(** * ai-chatbot: the continuous listener, the Whisper adapter and the chat history

    A shallow embedding of

    - [src/services/ContinuousListenerService.ts] (endpoint detector and
      wake-word / command mode controller),
    - [src/services/WhisperSTTService.ts] ([recognizeStream]),
    - [src/services/ChatGPTService.ts] ([sendMessage], [clearHistory]),
    - [transcribe.js] (the script that [recognizeStream] runs),
    - the [WhisperSTTService] that builds the WAV file in memory
      ([createWavBuffer], [recognizeStream]) and the [AudioInputService]
      with [startContinuousRecording], both in
      [src/services/AudioOutputService.ts],
    - [test-audio-file.js] (the analysis of a WAV file),
    - [src/index.ts] ([listenForWakeWord], [processVoiceInput]),

    together with the properties of the design document that concern them
    and further properties of the code.

    JavaScript runs one callback at a time; an [await] cuts a function in
    two pieces, and other callbacks may run in between.  The listener is
    therefore modelled as a transition function on events ([Data],
    [StreamError], a settled transcription, the two [listenFor...] calls),
    and every function that awaits the transcription is split into the part
    before the [await] and the part after it. *)

From Stdlib Require Import ZArith QArith Qround Bool List Lia.
From Stdlib.Strings Require Import Ascii String Byte.
From Stdlib.Numbers Require Import DecimalString.
From stdpp Require Import base option list gmap.
Import ListNotations.

Local Open Scope Z_scope.
Local Open Scope list_scope.

(** ** Strings: [toLowerCase], [trim], [includes]

    Transcripts are strings of code units below 256 (Latin-1), which is what
    Stdlib's [string] holds. *)

Module Str.

(** [String.prototype.toLowerCase] on one Latin-1 code unit: [A-Z] and
    the accented capitals U+00C0..U+00DE (the multiplication sign U+00D7
    apart) move up by 32; every other unit is kept. *)
Definition lowerChar (c : ascii) : ascii :=
  let n := N_of_ascii c in
  if (((65 <=? n) && (n <=? 90)) ||
      ((192 <=? n) && (n <=? 222) && negb (n =? 215)))%N
  then ascii_of_N (n + 32) else c.

Fixpoint toLowerCase (s : string) : string :=
  match s with
  | EmptyString => EmptyString
  | String c s' => String (lowerChar c) (toLowerCase s')
  end.

(** White space and line terminators that [trim] removes, below 256:
    TAB, LF, VT, FF, CR, SPACE and NBSP. *)
Definition isSpace (c : ascii) : bool :=
  let n := N_of_ascii c in
  ((n =? 9) || (n =? 10) || (n =? 11) || (n =? 12) || (n =? 13) ||
   (n =? 32) || (n =? 160))%N.

Definition isEmpty (s : string) : bool :=
  match s with EmptyString => true | String _ _ => false end.

Fixpoint trimStart (s : string) : string :=
  match s with
  | EmptyString => EmptyString
  | String c s' => if isSpace c then trimStart s' else s
  end.

Fixpoint trimEnd (s : string) : string :=
  match s with
  | EmptyString => EmptyString
  | String c s' =>
      let r := trimEnd s' in
      if isSpace c && isEmpty r then EmptyString else String c r
  end.

Definition trim (s : string) : string := trimEnd (trimStart s).

(** [hay.includes(needle)]. *)
Fixpoint includes (hay needle : string) : bool :=
  String.prefix needle hay ||
  match hay with
  | EmptyString => false
  | String _ hay' => includes hay' needle
  end.

(** A JavaScript string is truthy unless it is empty. *)
Definition truthy (s : string) : bool := negb (isEmpty s).

End Str.

(** ** Audio chunks *)

(** A Node [Buffer]: a sequence of bytes. *)
Definition Buffer := list byte.

(** [Buffer.concat]. *)
Definition Buffer_concat (bs : list Buffer) : Buffer := List.concat bs.

(** The value [readInt16LE] gives for the two bytes [lo], [hi]: the
    little-endian 16-bit word, read as a signed number. *)
Definition int16LE (lo hi : byte) : Z :=
  let u := Z.of_N (Byte.to_N lo) + 256 * Z.of_N (Byte.to_N hi) in
  if u <? 32768 then u else u - 65536.

(** The loop of [handleChunk] that computes [chunkMaxVolume]:
    [for (i = 0; i < chunk.length; i += 2) { sample = |readInt16LE(i)|; ... }].
    On a chunk of odd length the last [readInt16LE] is out of range and
    throws; that is [None]. *)
Fixpoint maxVolumeFrom (acc : Z) (chunk : Buffer) : option Z :=
  match chunk with
  | [] => Some acc
  | [_] => None
  | lo :: hi :: rest =>
      let sample := Z.abs (int16LE lo hi) in
      maxVolumeFrom (if sample >? acc then sample else acc) rest
  end.

Definition chunkMaxVolume (chunk : Buffer) : option Z := maxVolumeFrom 0 chunk.

(** ** ContinuousListenerService *)

Inductive ListenerMode := wake_word | command.

Definition ListenerMode_eqb (a b : ListenerMode) : bool :=
  match a, b with
  | wake_word, wake_word | command, command => true
  | _, _ => false
  end.

(** A promise created by [listenForWakeWord] or [listenForCommand]; its
    [resolve] and [reject] functions are named by the promise they settle. *)
Definition PromiseId := nat.

(** An [Error] value, by its message. *)
Definition Error := string.

(** The fields of the class.  [whisper] is the transcription collaborator
    and appears below as the [Transcribe] effect. *)
Record Listener := mkListener {
  volumeThreshold : Z;
  silenceDuration : Q;
  chunkBuffer : list Buffer;
  silenceStartTime : option Z;
  isProcessing : bool;
  mode : ListenerMode;
  currentResolver : option PromiseId;
  currentRejector : option PromiseId;
  chunkCount : Z;
  hasReceivedAudio : bool
}.

(** The constructor, with the field initialisers. *)
Definition newListener (threshold : Z) (duration : Q) : Listener :=
  {| volumeThreshold := threshold;
     silenceDuration := duration;
     chunkBuffer := [];
     silenceStartTime := None;
     isProcessing := false;
     mode := wake_word;
     currentResolver := None;
     currentRejector := None;
     chunkCount := 0;
     hasReceivedAudio := false |}.

(** Field assignments. *)
Definition set_chunkBuffer (v : list Buffer) (l : Listener) : Listener :=
  mkListener (volumeThreshold l) (silenceDuration l) v (silenceStartTime l)
    (isProcessing l) (mode l) (currentResolver l) (currentRejector l)
    (chunkCount l) (hasReceivedAudio l).
Definition set_silenceStartTime (v : option Z) (l : Listener) : Listener :=
  mkListener (volumeThreshold l) (silenceDuration l) (chunkBuffer l) v
    (isProcessing l) (mode l) (currentResolver l) (currentRejector l)
    (chunkCount l) (hasReceivedAudio l).
Definition set_isProcessing (v : bool) (l : Listener) : Listener :=
  mkListener (volumeThreshold l) (silenceDuration l) (chunkBuffer l)
    (silenceStartTime l) v (mode l) (currentResolver l) (currentRejector l)
    (chunkCount l) (hasReceivedAudio l).
Definition set_mode (v : ListenerMode) (l : Listener) : Listener :=
  mkListener (volumeThreshold l) (silenceDuration l) (chunkBuffer l)
    (silenceStartTime l) (isProcessing l) v (currentResolver l)
    (currentRejector l) (chunkCount l) (hasReceivedAudio l).
Definition set_callbacks (res rej : option PromiseId) (l : Listener) : Listener :=
  mkListener (volumeThreshold l) (silenceDuration l) (chunkBuffer l)
    (silenceStartTime l) (isProcessing l) (mode l) res rej
    (chunkCount l) (hasReceivedAudio l).
Definition set_chunkCount (v : Z) (l : Listener) : Listener :=
  mkListener (volumeThreshold l) (silenceDuration l) (chunkBuffer l)
    (silenceStartTime l) (isProcessing l) (mode l) (currentResolver l)
    (currentRejector l) v (hasReceivedAudio l).
Definition set_hasReceivedAudio (v : bool) (l : Listener) : Listener :=
  mkListener (volumeThreshold l) (silenceDuration l) (chunkBuffer l)
    (silenceStartTime l) (isProcessing l) (mode l) (currentResolver l)
    (currentRejector l) (chunkCount l) v.

(** Which function is suspended at [await this.whisper.recognizeStream(...)]. *)
Inductive Awaiting := AwaitWakeWord | AwaitCommand.

(** What the listener does to the outside, in order. *)
Inductive Effect :=
| Boundary (m : ListenerMode)
    (** the silence has lasted [silenceDuration]: line 79 of the source
        was reached with a true condition *)
| Transcribe (call : nat) (audio : Buffer)
    (** [this.whisper.recognizeStream] was called on the buffered audio *)
| Resolve (p : PromiseId) (text : string)
| Reject (p : PromiseId) (e : Error)
| LogHeard (text : string)
| LogError (e : Error)
| Uncaught
    (** [readInt16LE] threw inside [handleChunk]; nothing catches it *).

(** The listener object with the transcriptions in flight and the counters
    that name transcription calls and promises. *)
Record World := mkWorld {
  svc : Listener;
  inflight : gmap nat Awaiting;
  nextCall : nat;
  nextPromise : nat
}.

Definition with_svc (l : Listener) (w : World) : World :=
  mkWorld l (inflight w) (nextCall w) (nextPromise w).

Definition newWorld (threshold : Z) (duration : Q) : World :=
  mkWorld (newListener threshold duration) ∅ 0%nat 0%nat.

(** The call of [recognizeStream] and the suspension at the [await]. *)
Definition dispatch (k : Awaiting) (audio : Buffer) (l : Listener) (w : World)
  : World * list Effect :=
  (mkWorld l (<[nextCall w := k]> (inflight w)) (S (nextCall w)) (nextPromise w),
   [Transcribe (nextCall w) audio]).

(** [processWakeWord] up to the [await]. *)
Definition processWakeWord (w : World) : World * list Effect :=
  let l := svc w in
  if isProcessing l || (Z.of_nat (length (chunkBuffer l)) =? 0) then (w, [])
  else
    let l := set_isProcessing true l in
    let bufferedAudio := Buffer_concat (chunkBuffer l) in
    let l := set_chunkBuffer [] l in
    let l := set_silenceStartTime None l in
    dispatch AwaitWakeWord bufferedAudio l w.

(** The wake-phrase test of [processWakeWord]. *)
Definition wakePhraseIn (normalizedText : string) : bool :=
  Str.includes normalizedText "isis" || Str.includes normalizedText "ice is".

(** [processWakeWord] from the [await] on: the [try] body after the
    transcription arrived ([inr]), or the [catch] ([inl]), then the final
    assignment. *)
Definition processWakeWord_resume (r : Error + string) (l : Listener)
  : Listener * list Effect :=
  let '(l, effs) :=
    match r with
    | inr transcription =>
        if Str.truthy transcription &&
           (0 <? Z.of_nat (String.length (Str.trim transcription)))
        then
          let normalizedText := Str.trim (Str.toLowerCase transcription) in
          if wakePhraseIn normalizedText then
            match currentResolver l with
            | Some p =>
                (set_callbacks None None l,
                 [LogHeard transcription; Resolve p transcription])
            | None => (l, [LogHeard transcription])
            end
          else (l, [LogHeard transcription])
        else (l, [])
    | inl error => (l, [LogError error])
    end in
  (set_isProcessing false l, effs).

(** [processCommand] up to the [await]. *)
Definition processCommand (w : World) : World * list Effect :=
  let l := svc w in
  if isProcessing l || (Z.of_nat (length (chunkBuffer l)) =? 0)
     || negb (hasReceivedAudio l)
  then
    if negb (hasReceivedAudio l)
    then (with_svc (set_silenceStartTime None (set_chunkBuffer [] l)) w, [])
    else (w, [])
  else
    let l := set_isProcessing true l in
    let bufferedAudio := Buffer_concat (chunkBuffer l) in
    let l := set_chunkBuffer [] l in
    dispatch AwaitCommand bufferedAudio l w.

(** [processCommand] from the [await] on. *)
Definition processCommand_resume (r : Error + string) (l : Listener)
  : Listener * list Effect :=
  match r with
  | inr transcription =>
      match currentResolver l with
      | Some p => (set_callbacks None None l, [Resolve p transcription])
      | None => (l, [])
      end
  | inl error =>
      match currentRejector l with
      | Some p => (set_callbacks None None l, [Reject p error])
      | None => (l, [])
      end
  end.

(** [silenceDurationMs >= this.silenceDuration * 1000]. *)
Definition silenceElapsed (l : Listener) (silenceDurationMs : Z) : bool :=
  Qle_bool (silenceDuration l * 1000) (inject_Z silenceDurationMs).

(** The two early returns of [handleChunk], tested on the count after the
    increment. *)
Definition skipsChunk (l : Listener) : bool :=
  (chunkCount l =? 1) || (ListenerMode_eqb (mode l) command && (chunkCount l <=? 5)).

(** [handleChunk(chunk)], with the value [Date.now()] would give. *)
Definition handleChunk (chunk : Buffer) (now : Z) (w : World)
  : World * list Effect :=
  let l := set_chunkCount (chunkCount (svc w) + 1) (svc w) in
  if chunkCount l =? 1 then (with_svc l w, [])
  else if ListenerMode_eqb (mode l) command && (chunkCount l <=? 5)
  then (with_svc l w, [])
  else
    match chunkMaxVolume chunk with
    | None => (with_svc l w, [Uncaught])
    | Some volume =>
        let l :=
          if ListenerMode_eqb (mode l) command && (volumeThreshold l <=? volume)
          then set_hasReceivedAudio true l else l in
        let l := set_chunkBuffer (chunkBuffer l ++ [chunk]) l in
        if volume <? volumeThreshold l then
          match silenceStartTime l with
          | None => (with_svc (set_silenceStartTime (Some now) l) w, [])
          | Some start =>
              if silenceElapsed l (now - start) then
                let '(w', effs) :=
                  match mode l with
                  | wake_word => processWakeWord (with_svc l w)
                  | command => processCommand (with_svc l w)
                  end in
                (w', Boundary (mode l) :: effs)
              else (with_svc l w, [])
          end
        else (with_svc (set_silenceStartTime None l) w, [])
    end.

(** The executor of the promise [listenForWakeWord] returns. *)
Definition listenForWakeWord (w : World) : World * PromiseId :=
  let p := nextPromise w in
  let l := svc w in
  let l := set_mode wake_word l in
  let l := set_chunkBuffer [] l in
  let l := set_silenceStartTime None l in
  let l := set_isProcessing false l in
  let l := set_hasReceivedAudio false l in
  let l := set_callbacks (Some p) (Some p) l in
  (mkWorld l (inflight w) (nextCall w) (S p), p).

(** The executor of the promise [listenForCommand] returns. *)
Definition listenForCommand (w : World) : World * PromiseId :=
  let p := nextPromise w in
  let l := svc w in
  let l := set_mode command l in
  let l := set_chunkBuffer [] l in
  let l := set_silenceStartTime None l in
  let l := set_isProcessing false l in
  let l := set_chunkCount 0 l in
  let l := set_hasReceivedAudio false l in
  let l := set_callbacks (Some p) (Some p) l in
  (mkWorld l (inflight w) (nextCall w) (S p), p).

(** The ['error'] handler that [startListening] installs. *)
Definition onStreamError (error : Error) (l : Listener) : Listener * list Effect :=
  match currentRejector l with
  | Some p => (set_callbacks None None l, [Reject p error])
  | None => (l, [])
  end.

(** What can happen to a listener whose [startListening] has been called. *)
Inductive Event :=
| Data (chunk : Buffer) (now : Z)
| StreamError (error : Error)
| Settled (call : nat) (r : Error + string)
| CallListenForWakeWord
| CallListenForCommand.

(** One callback, run to its end or to its [await]. *)
Definition step (ev : Event) (w : World) : World * list Effect :=
  match ev with
  | Data chunk now => handleChunk chunk now w
  | StreamError error =>
      let '(l, effs) := onStreamError error (svc w) in (with_svc l w, effs)
  | Settled call r =>
      match inflight w !! call with
      | Some k =>
          let '(l, effs) :=
            match k with
            | AwaitWakeWord => processWakeWord_resume r (svc w)
            | AwaitCommand => processCommand_resume r (svc w)
            end in
          (mkWorld l (delete call (inflight w)) (nextCall w) (nextPromise w), effs)
      | None => (w, [])
      end
  | CallListenForWakeWord => (fst (listenForWakeWord w), [])
  | CallListenForCommand => (fst (listenForCommand w), [])
  end.

(** A sequence of callbacks; the effects of each, in order. *)
Fixpoint run (evs : list Event) (w : World) : World * list (list Effect) :=
  match evs with
  | [] => (w, [])
  | ev :: evs' =>
      let '(w1, effs) := step ev w in
      let '(w2, rest) := run evs' w1 in
      (w2, effs :: rest)
  end.

Definition trace (evs : list Event) (w : World) : list Effect :=
  List.concat (snd (run evs w)).

Definition final (evs : list Event) (w : World) : World := fst (run evs w).

(** * WhisperSTTService *)

Module Whisper.

(** How the piping of the audio into the WAV writer ends: the writer
    finishes, the writer reports an error, or the audio stream does. *)
Inductive Ending :=
| Finish
| WavWriterError (error : Error)
| AudioStreamError (error : Error).

(** What [recognizeStream] does to the outside, in order. *)
Inductive Effect :=
| NewFileWriter (path : string)
    (** [new wav.FileWriter(path, ...)]: the writer opens [path] for
        writing and puts the WAV header in it *)
| WriteWav (chunk : Buffer)
    (** a chunk of the audio stream, piped into the writer *)
| Uncaught
    (** [readInt16LE] threw inside the ['data'] handler; nothing catches it *)
| LogNoAudio
| LogRecording (bytesWritten maxAmplitude : Z)
| ExecFile (file : string) (args : list string)
    (** the transcription subprocess *)
| UnlinkSync (path : string)
| LogTranscription
| LogError (error : Error)
| Resolve (text : string)
| Reject (error : Error).

(** The decimal digits of [Date.now()]. *)
Definition decimal (n : Z) : string :=
  DecimalString.NilZero.string_of_int (Z.to_int n).

(** [`${tempDir}/audio-${Date.now()}.wav`]. *)
Definition tempFileName (devShm : bool) (now : Z) : string :=
  let tempDir := (if devShm then "/dev/shm" else "/tmp")%string in
  (tempDir ++ "/audio-" ++ decimal now ++ ".wav")%string.

(** The chunks as the stream delivers them.  The ['data'] handler, which
    was registered first, adds to [bytesWritten] and updates
    [maxAmplitude]; then the pipe writes the chunk.  The result is the two
    counters at the end of the stream, or [None] when the handler threw on
    a chunk of odd length. *)
Fixpoint deliver (chunks : list Buffer) (bytesWritten maxAmplitude : Z)
  : list Effect * option (Z * Z) :=
  match chunks with
  | [] => ([], Some (bytesWritten, maxAmplitude))
  | chunk :: rest =>
      let bytesWritten := bytesWritten + Z.of_nat (length chunk) in
      match maxVolumeFrom maxAmplitude chunk with
      | None => ([Uncaught], None)
      | Some maxAmplitude =>
          let '(effs, counters) := deliver rest bytesWritten maxAmplitude in
          (WriteWav chunk :: effs, counters)
      end
  end.

(** [recognizeStream(audioStream)], given what the environment answers:
    whether [/dev/shm] exists, the clock, the chunks the stream delivers
    and how it ends, the outcome of the subprocess ([inr stdout] or
    [inl error]), and whether the temporary file exists when the [catch]
    looks for it. *)
Definition recognizeStream (modelPath : string) (devShm : bool) (now : Z)
    (chunks : list Buffer) (ending : Ending)
    (exec : Error + string) (tempExists : bool) : list Effect :=
  let tempFile := tempFileName devShm now in
  let '(writes, counters) := deliver chunks 0 0 in
  NewFileWriter tempFile :: writes ++
  match counters with
  | None => []
  | Some (bytesWritten, maxAmplitude) =>
      match ending with
      | Finish =>
          if bytesWritten =? 0 then [LogNoAudio; Resolve EmptyString]
          else
            LogRecording bytesWritten maxAmplitude ::
            ExecFile "node" ["./transcribe.js"; tempFile; modelPath]%string ::
            match exec with
            | inr stdout =>
                [UnlinkSync tempFile; LogTranscription; Resolve (Str.trim stdout)]
            | inl error =>
                LogError error ::
                (if tempExists then [UnlinkSync tempFile] else []) ++ [Reject error]
            end
      | WavWriterError error => [LogError error; Reject error]
      | AudioStreamError error => [LogError error; Reject error]
      end
  end.

(** The number of bytes in the chunks of a stream. *)
Definition totalBytes (chunks : list Buffer) : Z :=
  fold_right (fun chunk n => Z.of_nat (length chunk) + n) 0 chunks.

Definition isExecFile (e : Effect) : bool :=
  match e with ExecFile _ _ => true | _ => false end.

Definition isUnlinkSync (e : Effect) : bool :=
  match e with UnlinkSync _ => true | _ => false end.

(** The effects that bring a file into being. *)
Definition createsFile (e : Effect) : bool :=
  match e with NewFileWriter _ => true | _ => false end.

End Whisper.

(** * ChatGPTService *)

Module ChatGPT.

Inductive Role := system | user | assistant.

Record Message := mkMessage { role : Role; content : string }.

(** What [chat.completions.create] answers, as far as [sendMessage]
    reads it: [completion.choices[0]?.message?.content]. *)
Record ChoiceMessage := mkChoiceMessage { reply : option string }.
Record Choice := mkChoice { message : option ChoiceMessage }.
Record Completion := mkCompletion { choices : list Choice }.

(** The argument of [chat.completions.create]. *)
Record Request := mkRequest {
  req_model : string;
  req_messages : list Message;
  req_temperature : Q;
  req_max_tokens : Z
}.

Record Service := mkService {
  conversationHistory : list Message;
  model : string
}.

Definition systemPrompt : string :=
  "You are a helpful voice assistant. Provide clear, concise responses suitable for text-to-speech output. Keep responses conversational and natural.".

(** The constructor. *)
Definition newService (model : string) : Service :=
  mkService [mkMessage system systemPrompt] model.

Definition push (msg : Message) (s : Service) : Service :=
  mkService (conversationHistory s ++ [msg]) (model s).

(** [completion.choices[0]?.message?.content || ''] *)
Definition assistantMessageOf (completion : Completion) : string :=
  match choices completion with
  | [] => EmptyString
  | choice :: _ =>
      match message choice with
      | None => EmptyString
      | Some msg =>
          match reply msg with
          | None => EmptyString
          | Some text => if Str.truthy text then text else EmptyString
          end
      end
  end.

(** [sendMessage(userMessage)], given what the API answers to a request
    ([inl] when the call throws).  The result is the service afterwards
    and what the promise settles with ([inl]: rejected). *)
Definition sendMessage (userMessage : string)
    (create : Request -> Error + Completion) (s : Service)
  : Service * (Error + string) :=
  let s := push (mkMessage user userMessage) s in
  match create (mkRequest (model s) (conversationHistory s) (7 # 10) 500) with
  | inr completion =>
      let assistantMessage := assistantMessageOf completion in
      let s := push (mkMessage assistant assistantMessage) s in
      (s, inr assistantMessage)
  | inl error => (s, inl error)
  end.

Definition clearHistory (s : Service) : Service :=
  mkService (firstn 1 (conversationHistory s)) (model s).

Definition getHistory (s : Service) : list Message := conversationHistory s.

End ChatGPT.

(** * What the properties are stated with *)

(** An effect that settles a promise. *)
Definition fulfils (p : PromiseId) (e : Effect) : bool :=
  match e with
  | Resolve q _ | Reject q _ => Nat.eqb p q
  | _ => false
  end.

Definition settles (e : Effect) : bool :=
  match e with Resolve _ _ | Reject _ _ => true | _ => false end.

Definition isTranscribe (e : Effect) : bool :=
  match e with Transcribe _ _ => true | _ => false end.

Definition isBoundary (e : Effect) : bool :=
  match e with Boundary _ => true | _ => false end.

(** How many times the effects [effs] settle the promise [p]. *)
Fixpoint fulfilments (p : PromiseId) (effs : list Effect) : nat :=
  match effs with
  | [] => 0
  | e :: rest => (if fulfils p e then 1 else 0) + fulfilments p rest
  end.

(** The three ways a callback can treat the pending slot. *)
Inductive SlotStep (w w' : World) (effs : list Effect) : Prop :=
| slot_kept :
    currentResolver (svc w') = currentResolver (svc w) ->
    currentRejector (svc w') = currentRejector (svc w) ->
    nextPromise w' = nextPromise w ->
    forallb (fun e => negb (settles e)) effs = true ->
    SlotStep w w' effs
| slot_fulfilled (p : PromiseId) :
    currentResolver (svc w) = Some p \/ currentRejector (svc w) = Some p ->
    currentResolver (svc w') = None ->
    currentRejector (svc w') = None ->
    nextPromise w' = nextPromise w ->
    (forall q, fulfilments q effs = if Nat.eqb q p then 1 else 0)%nat ->
    SlotStep w w' effs
| slot_registered :
    currentResolver (svc w') = Some (nextPromise w) ->
    currentRejector (svc w') = Some (nextPromise w) ->
    nextPromise w' = S (nextPromise w) ->
    effs = [] ->
    SlotStep w w' effs.

(** The invariant: resolver and rejector name the same promise; that
    promise has been created and not settled; no promise has been settled
    twice; no promise that is still to be created has been settled. *)
Record SlotInv (w : World) (past : list Effect) : Prop := {
  slot_pair : currentRejector (svc w) = currentResolver (svc w);
  slot_pending : forall p, currentResolver (svc w) = Some p ->
                   (p < nextPromise w)%nat /\ fulfilments p past = 0%nat;
  slot_once : forall p, (fulfilments p past <= 1)%nat;
  slot_fresh : forall p, (nextPromise w <= p)%nat -> fulfilments p past = 0%nat
}.

(** The chunk is dropped by one of the two early returns: only the count
    changes and nothing is done to the outside. *)
Definition skippedEntirely (chunk : Buffer) (now : Z) (w : World) : Prop :=
  handleChunk chunk now w =
    (with_svc (set_chunkCount (chunkCount (svc w) + 1) (svc w)) w, []).

(** The listener right after [this.chunkBuffer.push(chunk)]. *)
Definition pushed (chunk : Buffer) (volume : Z) (l : Listener) : Listener :=
  let l := set_chunkCount (chunkCount l + 1) l in
  let l :=
    if ListenerMode_eqb (mode l) command && (volumeThreshold l <=? volume)
    then set_hasReceivedAudio true l else l in
  set_chunkBuffer (chunkBuffer l ++ [chunk]) l.

(** The silence test of [handleChunk] on the listener [l] that [pushed]
    gives. *)
Definition checkSilence (volume now : Z) (l : Listener) (w : World)
  : World * list Effect :=
  if volume <? volumeThreshold l then
    match silenceStartTime l with
    | None => (with_svc (set_silenceStartTime (Some now) l) w, [])
    | Some start =>
        if silenceElapsed l (now - start) then
          let '(w', effs) :=
            match mode l with
            | wake_word => processWakeWord (with_svc l w)
            | command => processCommand (with_svc l w)
            end in
          (w', Boundary (mode l) :: effs)
        else (with_svc l w, [])
    end
  else (with_svc (set_silenceStartTime None l) w, []).

(** Whether the chunk makes the silence last long enough: it is processed,
    below the threshold, and the timer has been running for
    [silenceDuration] seconds. *)
Definition firesBoundary (chunk : Buffer) (now : Z) (w : World) : bool :=
  let l := set_chunkCount (chunkCount (svc w) + 1) (svc w) in
  negb (skipsChunk l) &&
  match chunkMaxVolume chunk, silenceStartTime l with
  | Some volume, Some start =>
      (volume <? volumeThreshold l) && silenceElapsed l (now - start)
  | _, _ => false
  end.

(** A run of [Data] events, from the chunks and their arrival times. *)
Definition datas (cts : list (Buffer * Z)) : list Event :=
  List.map (fun ct => Data (fst ct) (snd ct)) cts.

(** On every listener that callbacks have brought about, a chunk that is
    skipped finds the timer cleared. *)
Record TimerInv (w : World) : Prop := {
  timer_count : 0 <= chunkCount (svc w);
  timer_first : chunkCount (svc w) = 0 -> silenceStartTime (svc w) = None;
  timer_command : mode (svc w) = command -> chunkCount (svc w) < 5 ->
                  silenceStartTime (svc w) = None
}.

(** Chunk number [k] arrives at [t0 + 100 k] milliseconds. *)
Fixpoint arrivalTimes (t0 k : Z) (cs : list Buffer) : list (Buffer * Z) :=
  match cs with
  | [] => []
  | c :: cs' => (c, t0 + 100 * k) :: arrivalTimes t0 (k + 1) cs'
  end.

Definition arrivals (t0 k : Z) (cs : list Buffer) : list Event :=
  datas (arrivalTimes t0 k cs).

Definition loud (threshold : Z) (chunk : Buffer) : Prop :=
  exists volume, chunkMaxVolume chunk = Some volume /\ threshold <= volume.

Definition quiet (threshold : Z) (chunk : Buffer) : Prop :=
  exists volume, chunkMaxVolume chunk = Some volume /\ volume < threshold.

(** The count from which on no chunk is skipped. *)
Definition unskippedFrom (m : ListenerMode) : Z :=
  match m with wake_word => 1 | command => 5 end.

(** The flag [hasReceivedAudio] after a chunk that reached the threshold. *)
Definition heard (m : ListenerMode) (hra : bool) : bool :=
  match m with command => true | wake_word => hra end.

(** The callbacks of one listen session: everything but the two
    [listenFor...] calls, which start the next one. *)
Definition withinSession (ev : Event) : bool :=
  match ev with
  | CallListenForWakeWord | CallListenForCommand => false
  | _ => true
  end.

(** After [processCommand] has dispatched: Command mode, the flag is up,
    and no continuation of [processWakeWord] is waiting. *)
Record Latched (w : World) : Prop := {
  latched_mode : mode (svc w) = command;
  latched_flag : isProcessing (svc w) = true;
  latched_inflight : map_Forall (fun _ k => k = AwaitCommand) (inflight w)
}.

(** The values [readInt16LE] gives at the offsets 0, 2, 4, ... of a chunk,
    as far as they exist. *)
Fixpoint samplesOf (chunk : Buffer) : list Z :=
  match chunk with
  | lo :: hi :: rest => int16LE lo hi :: samplesOf rest
  | _ => []
  end.

(** Neither a boundary nor a call of the transcription. *)
Definition isQuietEffect (e : Effect) : bool :=
  negb (isBoundary e) && negb (isTranscribe e).

Definition isResolve (e : Effect) : bool :=
  match e with Resolve _ _ => true | _ => false end.

(** With a threshold of 0 or less no peak is below the threshold; and no
    transcription is in flight. *)
Record Unarmed (w : World) : Prop := {
  unarmed_threshold : volumeThreshold (svc w) <= 0;
  unarmed_inflight : inflight w = ∅
}.

(** The chunk that a callback pushes on [chunkBuffer], if any: a [Data]
    event whose chunk is neither skipped nor of odd length. *)
Definition pushedBy (ev : Event) (w : World) : list Buffer :=
  match ev with
  | Data chunk _ =>
      if skipsChunk (set_chunkCount (chunkCount (svc w) + 1) (svc w)) then []
      else match chunkMaxVolume chunk with Some _ => [chunk] | None => [] end
  | _ => []
  end.

Fixpoint pushedChunks (evs : list Event) (w : World) : list Buffer :=
  match evs with
  | [] => []
  | ev :: evs' => pushedBy ev w ++ pushedChunks evs' (fst (step ev w))
  end.

(** All the audio that has been sent to the transcription, in order. *)
Fixpoint audioOf (effs : list Effect) : Buffer :=
  match effs with
  | [] => []
  | Transcribe _ audio :: rest => audio ++ audioOf rest
  | _ :: rest => audioOf rest
  end.


(** A promise that exists and that neither callback reference names. *)
Record Stale (p : PromiseId) (w : World) : Prop := {
  stale_created : (p < nextPromise w)%nat;
  stale_resolver : currentResolver (svc w) <> Some p;
  stale_rejector : currentRejector (svc w) <> Some p
}.

(** ** Sequences of calls on a [ChatGPTService] *)

Module ChatGPTRuns.
Import ChatGPT.

(** A call of [sendMessage], with what the API answers to it, or a call of
    [clearHistory]. *)
Inductive Call :=
| Send (userMessage : string) (create : Request -> Error + Completion)
| Clear.

Definition call (s : Service) (c : Call) : Service :=
  match c with
  | Send userMessage create => fst (sendMessage userMessage create s)
  | Clear => clearHistory s
  end.

Definition calls (cs : list Call) (s : Service) : Service := fold_left call cs s.

(** The request that a [Send] passes to the API on the service [s]. *)
Definition requestOf (userMessage : string) (s : Service) : Request :=
  mkRequest (model s) (conversationHistory s ++ [mkMessage user userMessage])
    (7 # 10) 500.

(** The user messages of the [Send]s, and the texts of the answers of those
    that succeeded, in order. *)
Fixpoint sent (cs : list Call) : list string :=
  match cs with
  | [] => []
  | Send userMessage _ :: cs' => userMessage :: sent cs'
  | Clear :: cs' => sent cs'
  end.

Fixpoint answered (cs : list Call) (s : Service) : list string :=
  match cs with
  | [] => []
  | c :: cs' =>
      match c with
      | Send userMessage create =>
          match create (requestOf userMessage s) with
          | inr completion => [assistantMessageOf completion]
          | inl _ => []
          end
      | Clear => []
      end ++ answered cs' (call s c)
  end.

Definition hasRole (r : Role) (m : Message) : bool :=
  match r, role m with
  | system, system | user, user | assistant, assistant => true
  | _, _ => false
  end.

Definition contentsOf (r : Role) (history : list Message) : list string :=
  List.map content (List.filter (hasRole r) history).

Definition isSend (c : Call) : bool :=
  match c with Send _ _ => true | Clear => false end.

End ChatGPTRuns.

(** ** More about strings *)

Module StrMore.
Import Str.

Fixpoint allSpace (s : string) : bool :=
  match s with
  | EmptyString => true
  | String c s' => isSpace c && allSpace s'
  end.

Definition startsWithSpace (s : string) : bool :=
  match s with
  | EmptyString => false
  | String c _ => isSpace c
  end.

(** The line feed that [console.log] and [console.error] put after what
    they print. *)
Definition newline : string := String (ascii_of_nat 10) EmptyString.

End StrMore.

(** * transcribe.js *)

Module TranscribeScript.

(** What a run of the script leaves behind. *)
Record Outcome := mkOutcome { stdout : string; stderr : string; exitCode : Z }.

(** The calls into the whisper binding, in order. *)
Inductive Effect :=
| InitWhisper (modelPath : string) (useGpu : bool)
| TranscribeFile (filePath language : string) (temperature : Z)
| Release.

Definition defaultModel : string := "./models/ggml-base.en.bin".

(** [process.argv[3] || './models/ggml-base.en.bin'] *)
Definition modelPathOf (argv3 : option string) : string :=
  match argv3 with
  | Some path => if Str.truthy path then path else defaultModel
  | None => defaultModel
  end.

Definition usage : Outcome :=
  mkOutcome EmptyString
    ("Usage: node transcribe.js <audio-file> [model-path]" ++ StrMore.newline) 1.

(** The [catch]: [console.error('Transcription error:', error.message)] and
    [process.exit(1)], after what has been printed already. *)
Definition failure (printed : string) (error : Error) : Outcome :=
  mkOutcome printed ("Transcription error: " ++ error ++ StrMore.newline) 1.

(** The script, given its two arguments, whether the platform is
    [darwin], and what the whisper binding answers: [initWhisper]
    ([Some]: it fails), the transcription ([inr result.result] or [inl]),
    and [context.release()] ([Some]: it fails). *)
Definition main (argv2 argv3 : option string) (darwin : bool)
    (initWhisper : option Error) (transcribed : Error + string)
    (released : option Error) : list Effect * Outcome :=
  let modelPath := modelPathOf argv3 in
  match argv2 with
  | None => ([], usage)
  | Some filePath =>
      if negb (Str.truthy filePath) then ([], usage)
      else
        match initWhisper with
        | Some error => ([InitWhisper modelPath darwin], failure EmptyString error)
        | None =>
            match transcribed with
            | inl error =>
                ([InitWhisper modelPath darwin; TranscribeFile filePath "en" 0],
                 failure EmptyString error)
            | inr result =>
                let printed := (result ++ StrMore.newline)%string in
                ([InitWhisper modelPath darwin; TranscribeFile filePath "en" 0; Release],
                 match released with
                 | Some error => failure printed error
                 | None => mkOutcome printed EmptyString 0
                 end)
            end
        end
  end.

(** The promise of the promisified [execFile] for a child that ran to its
    exit: it resolves with the output when the exit code is 0, and is
    rejected with the error [failed] that Node builds otherwise. *)
Definition execFileAsync (failed : Error) (o : Outcome) : Error + string :=
  if exitCode o =? 0 then inr (stdout o) else inl failed.

End TranscribeScript.

(** The effects of [Whisper.recognizeStream] that settle its promise. *)
Definition isSettlement (e : Whisper.Effect) : bool :=
  match e with
  | Whisper.Resolve _ | Whisper.Reject _ => true
  | _ => false
  end.

Definition isWritten (e : Whisper.Effect) : bool :=
  match e with
  | Whisper.WriteWav _ | Whisper.Uncaught => true
  | _ => false
  end.

Module WhisperMore.
Import Whisper.

(** The part of [recognizeStream] after the stream, on the counters. *)
Definition afterStream (modelPath tempFile : string) (bytes amplitude : Z)
    (ending : Ending) (exec : Error + string) (tempExists : bool) : list Effect :=
  match ending with
  | Finish =>
      if bytes =? 0 then [LogNoAudio; Resolve EmptyString]
      else
        LogRecording bytes amplitude ::
        ExecFile "node" ["./transcribe.js"; tempFile; modelPath]%string ::
        match exec with
        | inr stdout =>
            [UnlinkSync tempFile; LogTranscription; Resolve (Str.trim stdout)]
        | inl error =>
            LogError error ::
            (if tempExists then [UnlinkSync tempFile] else []) ++ [Reject error]
        end
  | WavWriterError error => [LogError error; Reject error]
  | AudioStreamError error => [LogError error; Reject error]
  end.

End WhisperMore.

(** * The WAV file built in memory *)

(** The [WhisperSTTService] of [src/services/AudioOutputService.ts], which
    keeps the audio in memory and writes the WAV file itself. *)

Module Wav.

(** The byte with the value [v mod 256]. *)
Definition byteOf (v : Z) : byte :=
  match Byte.of_N (Z.to_N (v mod 256)) with
  | Some b => b
  | None => x00
  end.

(** The [n] low bytes of [v], least significant first. *)
Fixpoint bytesLE (n : nat) (v : Z) : list byte :=
  match n with
  | O => []
  | S n' => byteOf v :: bytesLE n' (v / 256)
  end.

(** The number that bytes stand for, least significant first. *)
Fixpoint valueLE (bytes : list byte) : Z :=
  match bytes with
  | [] => 0
  | b :: rest => Z.of_N (Byte.to_N b) + 256 * valueLE rest
  end.

(** [Buffer.alloc(size)]: [size] zero bytes. *)
Definition Buffer_alloc (size : nat) : Buffer := repeat x00 size.

(** [bytes] put over the bytes of [buf] from [offset] on.  Every write
    below lies within the buffer. *)
Definition writeAt (offset : nat) (bytes : list byte) (buf : Buffer) : Buffer :=
  firstn offset buf ++ bytes ++ skipn (offset + length bytes) buf.

(** [buf.write(text, offset)], for a text of ASCII characters. *)
Definition write (text : string) (offset : nat) (buf : Buffer) : Buffer :=
  writeAt offset (list_byte_of_string text) buf.

(** [buf.writeUInt32LE(value, offset)] and [buf.writeUInt16LE(value, offset)]:
    a value below 0 or above the largest unsigned number of the width
    throws a [RangeError] ([None]); a value in range is stored without its
    fraction. *)
Definition writeUIntLE (width : nat) (value : Q) (offset : nat) (buf : Buffer)
  : option Buffer :=
  if Qle_bool 0 value && Qle_bool value (inject_Z (2 ^ (8 * Z.of_nat width) - 1))
  then Some (writeAt offset (bytesLE width (Qfloor value)) buf)
  else None.

Definition writeUInt32LE := writeUIntLE 4.
Definition writeUInt16LE := writeUIntLE 2.

(** [createWavBuffer(pcmData, sampleRate, channels, bitDepth)], for whole
    numbers; [bitDepth / 8] need not be whole. *)
Definition createWavBuffer (pcmData : Buffer) (sampleRate channels bitDepth : Z)
  : option Buffer :=
  let blockAlign : Q := (inject_Z channels * (inject_Z bitDepth / inject_Z 8))%Q in
  let byteRate : Q := (inject_Z sampleRate * blockAlign)%Q in
  let dataSize := Z.of_nat (length pcmData) in
  let headerSize := 44 in
  let fileSize := headerSize + dataSize - 8 in
  let header := Buffer_alloc 44 in
  let header := write "RIFF" 0 header in
  header ← writeUInt32LE (inject_Z fileSize) 4 header;
  let header := write "WAVE" 8 header in
  let header := write "fmt " 12 header in
  header ← writeUInt32LE (inject_Z 16) 16 header;
  header ← writeUInt16LE (inject_Z 1) 20 header;
  header ← writeUInt16LE (inject_Z channels) 22 header;
  header ← writeUInt32LE (inject_Z sampleRate) 24 header;
  header ← writeUInt32LE byteRate 28 header;
  header ← writeUInt16LE blockAlign 32 header;
  header ← writeUInt16LE (inject_Z bitDepth) 34 header;
  let header := write "data" 36 header in
  header ← writeUInt32LE (inject_Z dataSize) 40 header;
  Some (Buffer_concat [header; pcmData]).

(** The 44 bytes of the header, field after field, and the data behind
    them. *)
Definition layout (pcmData : Buffer) (sampleRate channels bitDepth : Z) : Buffer :=
  let blockAlign : Q := (inject_Z channels * (inject_Z bitDepth / inject_Z 8))%Q in
  let byteRate : Q := (inject_Z sampleRate * blockAlign)%Q in
  list_byte_of_string "RIFF" ++ bytesLE 4 (Z.of_nat (length pcmData) + 36) ++
  list_byte_of_string "WAVE" ++ list_byte_of_string "fmt " ++
  bytesLE 4 16 ++ bytesLE 2 1 ++ bytesLE 2 channels ++ bytesLE 4 sampleRate ++
  bytesLE 4 (Qfloor byteRate) ++ bytesLE 2 (Qfloor blockAlign) ++
  bytesLE 2 bitDepth ++
  list_byte_of_string "data" ++ bytesLE 4 (Z.of_nat (length pcmData)) ++
  pcmData.

(** [buf.slice(start, start + size)]. *)
Definition slice (start size : nat) (buf : Buffer) : Buffer :=
  firstn size (skipn start buf).

End Wav.

Module WavMemory.
Import Wav.

(** How the audio stream ends: ['end'] or ['error']. *)
Inductive Ending :=
| End
| AudioStreamError (error : Error).

(** What this [recognizeStream] does to the outside, in order. *)
Inductive Effect :=
| Uncaught
    (** [readInt16LE] threw inside the ['data'] handler; nothing catches it *)
| LogNoAudio
| LogRecording (wavLength maxAmplitude : Z)
| WriteFileSync (path : string) (data : Buffer)
| ExecFile (file : string) (args : list string)
| UnlinkSync (path : string)
| LogTranscription
| LogError (error : Error)
| Resolve (text : string)
| Reject (error : Error).

(** The ['data'] handler over the chunks of the stream: the chunk is kept,
    its bytes are counted, and [maxAmplitude] is updated; [None] when the
    handler threw on a chunk of odd length. *)
Fixpoint collect (chunks audioChunks : list Buffer) (bytesWritten maxAmplitude : Z)
  : option (list Buffer * Z * Z) :=
  match chunks with
  | [] => Some (audioChunks, bytesWritten, maxAmplitude)
  | chunk :: rest =>
      let audioChunks := audioChunks ++ [chunk] in
      let bytesWritten := bytesWritten + Z.of_nat (length chunk) in
      match maxVolumeFrom maxAmplitude chunk with
      | None => None
      | Some maxAmplitude => collect rest audioChunks bytesWritten maxAmplitude
      end
  end.

(** [recognizeStream(audioStream)], given what the environment answers:
    whether [/dev/shm] exists, the clock, the chunks the stream delivers
    and how it ends, the [RangeError] a write to the header throws when its
    value is out of range, the outcome of [writeFileSync] ([Some]: it
    throws), the outcome of the subprocess, and whether the temporary file
    exists when the [catch] looks for it. *)
Definition recognizeStream (modelPath : string) (devShm : bool) (now : Z)
    (chunks : list Buffer) (ending : Ending) (outOfRange : Error)
    (written : option Error) (exec : Error + string) (tempExists : bool)
  : list Effect :=
  let tempFile := Whisper.tempFileName devShm now in
  match collect chunks [] 0 0 with
  | None => [Uncaught]
  | Some (audioChunks, bytesWritten, maxAmplitude) =>
      match ending with
      | AudioStreamError error => [LogError error; Reject error]
      | End =>
          let caught error :=
            LogError error ::
            (if tempExists then [UnlinkSync tempFile] else []) ++ [Reject error] in
          if bytesWritten =? 0 then [LogNoAudio; Resolve EmptyString]
          else
            let pcmBuffer := Buffer_concat audioChunks in
            match createWavBuffer pcmBuffer 16000 1 16 with
            | None => caught outOfRange
            | Some wavBuffer =>
                LogRecording (Z.of_nat (length wavBuffer)) maxAmplitude ::
                WriteFileSync tempFile wavBuffer ::
                match written with
                | Some error => caught error
                | None =>
                    ExecFile "node" ["./transcribe.js"; tempFile; modelPath]%string ::
                    match exec with
                    | inr stdout =>
                        [UnlinkSync tempFile; LogTranscription;
                         Resolve (Str.trim stdout)]
                    | inl error => caught error
                    end
                end
            end
      end
  end.

End WavMemory.

(** * test-audio-file.js: the analysis of a WAV file *)

Module TestAudioFile.

(** The loop over the audio data: the largest absolute sample, the number
    of samples, and the number of samples above 1000.  [None] when
    [readInt16LE] throws at the last byte of data of odd length. *)
Fixpoint scan (audioData : Buffer) (maxAmplitude totalSamples loudSamples : Z)
  : option (Z * Z * Z) :=
  match audioData with
  | [] => Some (maxAmplitude, totalSamples, loudSamples)
  | [_] => None
  | lo :: hi :: rest =>
      let sample := Z.abs (int16LE lo hi) in
      let totalSamples := totalSamples + 1 in
      let maxAmplitude := if sample >? maxAmplitude then sample else maxAmplitude in
      let loudSamples := if sample >? 1000 then loudSamples + 1 else loudSamples in
      scan rest maxAmplitude totalSamples loudSamples
  end.

(** The analysis of the contents of a file: [buffer.slice(44)], then the
    loop. *)
Definition analyze (buffer : Buffer) : option (Z * Z * Z) :=
  let audioData := skipn 44 buffer in
  scan audioData 0 0 0.

Inductive Verdict := ClearAudio | QuietAudio | MostlySilence.

Definition verdict (maxAmplitude : Z) : Verdict :=
  if maxAmplitude >? 5000 then ClearAudio
  else if maxAmplitude >? 1000 then QuietAudio
  else MostlySilence.

End TestAudioFile.

(** * index.ts: the voice assistant *)

(** [VoiceAssistant.processVoiceInput] and what it calls.  The messages on
    the console and the pauses are left out; the calls to the services are
    the effects. *)

Module Assistant.

(** ** The sentences of a response *)

Definition isTerminator (c : ascii) : bool :=
  (c =? ".")%char || (c =? "!")%char || (c =? "?")%char.

Definition snoc (s : string) (c : ascii) : string := (s ++ String c EmptyString)%string.

(** [response.match(/[^.!?]+[.!?]+/g)], as the list of matches ([[]] for
    [null]).  The scan goes through the response once; [body] is the run of
    characters other than [.!?] that the match under way has taken, and
    [marks] the run of [.!?] after it.  A match starts at the first
    character other than [.!?], takes all of them that follow (a shorter run
    would not be followed by one of [.!?]), then all the [.!?] that follow,
    and the next match starts behind it.  A [.!?] with no body before it
    cannot start a match and is passed over; a body that the end of the
    response cuts short gives no match. *)
Fixpoint matches (response body marks : string) : list string :=
  match response with
  | EmptyString =>
      if Str.isEmpty body || Str.isEmpty marks then [] else [(body ++ marks)%string]
  | String c rest =>
      if isTerminator c then
        if Str.isEmpty body then matches rest EmptyString EmptyString
        else matches rest body (snoc marks c)
      else
        if Str.isEmpty marks then matches rest (snoc body c) EmptyString
        else (body ++ marks)%string :: matches rest (String c EmptyString) EmptyString
  end.

(** [assistantResponse.match(/[^.!?]+[.!?]+/g) || [assistantResponse]] *)
Definition sentencesOf (assistantResponse : string) : list string :=
  match matches assistantResponse EmptyString EmptyString with
  | [] => [assistantResponse]
  | sentences => sentences
  end.

(** [Array.prototype.join]. *)
Fixpoint join (separator : string) (items : list string) : string :=
  match items with
  | [] => EmptyString
  | [item] => item
  | item :: rest => (item ++ separator ++ join separator rest)%string
  end.

(** The test on the reply to [Should I continue?]. *)
Definition affirmative (userResponse : string) : bool :=
  let normalized := Str.trim (Str.toLowerCase userResponse) in
  Str.includes normalized "yes" ||
  Str.includes normalized "yeah" ||
  Str.includes normalized "continue" ||
  Str.includes normalized "go ahead" ||
  Str.includes normalized "keep going".

(** ** The services, as the assistant sees them *)

Inductive Effect :=
| StartContinuousRecording
| NewContinuousListener (volumeThreshold : Z) (silenceDuration : Q)
| StartListening
| ListenForWakeWord
| Speak (text : string)
| ListenForCommand
| SendMessage (text : string)
| StartRecording (silenceThreshold silenceDuration : Z)
| RecognizeStream
| StopRecordingAfter (ms : Z)
| LogError (error : Error).

(** What the services answer in one run of [processVoiceInput]: whether
    [startContinuousRecording] throws; the outcomes of the promises of
    [listenForWakeWord], of [listenForCommand] and of [sendMessage]; whether
    [TEST_MODE] is [true]; for every call of [speak], counted from 0,
    whether it is rejected; and for every confirmation, counted from 0, the
    outcome of [recognizeStream]. *)
Record Env := mkEnv {
  startContinuousRecording : option Error;
  wakeWord : Error + string;
  command : Error + string;
  testMode : bool;
  answer : Error + string;
  says : nat -> option Error;
  confirmations : nat -> Error + string
}.

(** The fields of [VoiceAssistant] that change: whether [continuousStream]
    and [continuousListener] are set. *)
Record Assistant := mkAssistant {
  volumeThreshold : Z;
  continuousStream : bool;
  continuousListener : bool
}.

(** How many calls of [speak] and how many confirmations there have been. *)
Record Counters := mkCounters { speaks : nat; asked : nat }.

(** A computation inside the [try]: its effects, the counters after it,
    and its value or the error thrown. *)
Definition M (A : Type) : Type := Counters -> list Effect * Counters * (Error + A).

Definition ret {A : Type} (a : A) : M A := fun k => ([], k, inr a).

Definition throw {A : Type} (error : Error) : M A := fun k => ([], k, inl error).

Definition bind {A B : Type} (m : M A) (f : A -> M B) : M B := fun k =>
  match m k with
  | (effs, k', inl error) => (effs, k', inl error)
  | (effs, k', inr a) =>
      let '(effs', k'', r) := f a k' in (effs ++ effs', k'', r)
  end.

(** [await this.textToSpeech.speak(text)] *)
Definition speak (env : Env) (text : string) : M unit := fun k =>
  ([Speak text], mkCounters (S (speaks k)) (asked k),
   match says env (speaks k) with
   | Some error => inl error
   | None => inr tt
   end).

(** [await this.continuousListener.listenForCommand()] *)
Definition listenForCommand (env : Env) : M string := fun k =>
  ([ListenForCommand], k, command env).

(** [await this.chatGPT.sendMessage(userText)] *)
Definition sendMessage (env : Env) (userText : string) : M string := fun k =>
  ([SendMessage userText], k, answer env).

(** The confirmation: [startRecording(0, 0)], [recognizeStream] on its
    stream, [stopRecording] after 3 seconds, and the transcript awaited. *)
Definition confirm (env : Env) : M string := fun k =>
  ([StartRecording 0 0; RecognizeStream; StopRecordingAfter 3000],
   mkCounters (speaks k) (S (asked k)),
   confirmations env (asked k)).

(** The [while] loop, on [sentences.slice(sentenceIndex)]: two sentences
    are spoken; if more are left the user is asked, and the loop goes on
    with them or ends. *)
Fixpoint speakLoop (env : Env) (sentences : list string) : M unit :=
  match sentences with
  | [] => ret tt
  | [a] => speak env (join " " [a])
  | a :: b :: rest =>
      bind (speak env (join " " [a; b])) (fun _ =>
      match rest with
      | [] => ret tt
      | _ :: _ =>
          bind (speak env "Should I continue?") (fun _ =>
          bind (confirm env) (fun userResponse =>
          if affirmative userResponse then speakLoop env rest
          else speak env "Okay, stopping here."))
      end)
  end.

(** [VoiceAssistant.listenForWakeWord]: the recording and the listener are
    started if they are not there; every error is caught, and the result
    says whether there was none. *)
Definition listenForWakeWord (env : Env) (a : Assistant)
  : list Effect * Assistant * bool :=
  let listen (effs : list Effect) (a' : Assistant) :=
    match wakeWord env with
    | inr _ => (effs ++ [ListenForWakeWord], a', true)
    | inl error => (effs ++ [ListenForWakeWord; LogError error], a', false)
    end in
  if negb (continuousStream a) || negb (continuousListener a) then
    match startContinuousRecording env with
    | Some error => ([StartContinuousRecording; LogError error], a, false)
    | None =>
        listen [StartContinuousRecording;
                NewContinuousListener (volumeThreshold a) (3 # 2);
                StartListening]
               (mkAssistant (volumeThreshold a) true true)
    end
  else listen [] a.

(** The body of the [try] of [processVoiceInput], after the wake word. *)
Definition afterWakeWord (env : Env) (a : Assistant) : M unit :=
  bind (speak env "Yes") (fun _ =>
  bind (if continuousListener a then listenForCommand env
        else throw "Continuous listener not initialized"%string) (fun userText =>
  if negb (Str.truthy userText) || (String.length (Str.trim userText) =? 0)%nat
  then speak env "I didn't hear anything"
  else
    bind (if testMode env then ret ("I heard you say: " ++ userText)%string
          else sendMessage env userText) (fun assistantResponse =>
    speakLoop env (sentencesOf assistantResponse)))).

(** [processVoiceInput]: the result of [listenForWakeWord] is not looked
    at; an error thrown after it is caught and logged. *)
Definition processVoiceInput (env : Env) (a : Assistant) : list Effect * Assistant :=
  let '(effs, a', _) := listenForWakeWord env a in
  let '(effs', _, r) := afterWakeWord env a' (mkCounters 0 0) in
  (effs ++ effs' ++ match r with inl error => [LogError error] | inr _ => [] end, a').

(** ** What the properties are stated with *)

Fixpoint noTerminator (s : string) : bool :=
  match s with
  | EmptyString => true
  | String c rest => negb (isTerminator c) && noTerminator rest
  end.

Fixpoint allTerminators (s : string) : bool :=
  match s with
  | EmptyString => true
  | String c rest => isTerminator c && allTerminators rest
  end.

(** The texts spoken, in order. *)
Fixpoint said (effs : list Effect) : list string :=
  match effs with
  | [] => []
  | Speak text :: rest => text :: said rest
  | _ :: rest => said rest
  end.

(** The sentences two by two, as the loop speaks them. *)
Fixpoint chunked (sentences : list string) : list string :=
  match sentences with
  | [] => []
  | [a] => [join " " [a]]
  | a :: b :: rest => join " " [a; b] :: chunked rest
  end.

(** [items] with [separator] between them. *)
Fixpoint between (separator : string) (items : list string) : list string :=
  match items with
  | [] => []
  | [item] => [item]
  | item :: rest => item :: separator :: between separator rest
  end.

(** Whether the text starts with one of [.!?]. *)
Definition startsMarked (s : string) : bool :=
  match s with
  | EmptyString => false
  | String c _ => isTerminator c
  end.

(** Whether the last character of the text is one of [.!?]; [marked] says
    it of the character before the text. *)
Fixpoint endsMarked (s : string) (marked : bool) : bool :=
  match s with
  | EmptyString => marked
  | String c rest => endsMarked rest (isTerminator c)
  end.

(** A match: a run of characters other than [.!?], then a run of [.!?],
    neither of them empty. *)
Definition isSentence (sentence : string) : Prop :=
  exists body marks,
    sentence = (body ++ marks)%string /\
    Str.isEmpty body = false /\ noTerminator body = true /\
    Str.isEmpty marks = false /\ allTerminators marks = true.

(** The effects of the loop that speaks the response. *)
Definition isLoopEffect (e : Effect) : bool :=
  match e with
  | Speak _ | StartRecording _ _ | RecognizeStream | StopRecordingAfter _ => true
  | _ => false
  end.

(** The effects that set the continuous listening up. *)
Definition isSetup (e : Effect) : bool :=
  match e with
  | StartContinuousRecording | NewContinuousListener _ _ | StartListening => true
  | _ => false
  end.

Definition isNewContinuousListener (e : Effect) : bool :=
  match e with NewContinuousListener _ _ => true | _ => false end.

Definition isStartListening (e : Effect) : bool :=
  match e with StartListening => true | _ => false end.

(** One run of [processVoiceInput] after the other, as the loop of [start]
    makes them, each with the answers of the services for it. *)
Fixpoint runs (envs : list Env) (a : Assistant) : list Effect * Assistant :=
  match envs with
  | [] => ([], a)
  | env :: rest =>
      let '(effs, a') := processVoiceInput env a in
      let '(effs', a'') := runs rest a' in
      (effs ++ effs', a'')
  end.

Definition isSendMessage (e : Effect) : bool :=
  match e with SendMessage _ => true | _ => false end.

Definition isRecognizeStream (e : Effect) : bool :=
  match e with RecognizeStream => true | _ => false end.

End Assistant.

(** * The listener and the transcription together *)



(** * AudioInputService *)

(** The service with [startContinuousRecording], in
    [src/services/AudioOutputService.ts].  A recorder is what
    [record.record] returns; its stream is named by the recorder.  The
    messages on the console about the volume are left out, and with them
    the variables that only they read. *)

Module AudioInput.

Definition RecorderId := nat.

Inductive RecordProgram := sox | arecord.

(** The options given to [record.record]; [silence] is the duration whose
    decimal string is passed. *)
Record Options := mkOptions {
  sampleRate : Z;
  threshold : Q;
  verbose : bool;
  recordProgram : RecordProgram;
  silence : option Q
}.

Record Service := mkService {
  recording : option RecorderId;
  continuousStream : option RecorderId
}.

(** What the ['data'] handler of a stream of [startRecording] closes
    over, for its detection of silence. *)
Record Detector := mkDetector {
  volumeThreshold : Q;
  silenceDuration : Q;
  silenceStartTime : option Z
}.

Record World := mkWorld {
  svc : Service;
  detectors : gmap nat Detector;
  nextRecorder : nat
}.

Definition newWorld : World := mkWorld (mkService None None) ∅ 0%nat.

Inductive Effect :=
| Started (r : RecorderId) (options : Options)
| Stopped (r : RecorderId)
| LogNoActiveRecording
| LogSilenceDetected (silenceDurationMs : Z)
| Uncaught.

Definition programFor (darwin : bool) : RecordProgram :=
  if darwin then sox else arecord.

(** [0 < q], for the tests [x > 0]. *)
Definition positive (q : Q) : bool := negb (Qle_bool q 0).

Definition startContinuousRecording (darwin : bool) (w : World)
  : World * list Effect * RecorderId :=
  match continuousStream (svc w) with
  | Some stream => (w, [], stream)
  | None =>
      let recordOptions := mkOptions 16000 0 false (programFor darwin) None in
      let r := nextRecorder w in
      (mkWorld (mkService (Some r) (Some r)) (detectors w) (S r),
       [Started r recordOptions], r)
  end.

Definition startRecording (darwin : bool)
    (silenceThreshold silenceDuration volumeThreshold : Q) (w : World)
  : World * list Effect * RecorderId :=
  let recordOptions :=
    mkOptions 16000 silenceThreshold false (programFor darwin)
      (if positive silenceDuration && Qeq_bool volumeThreshold 0
       then Some silenceDuration else None) in
  let r := nextRecorder w in
  (mkWorld (mkService (Some r) (continuousStream (svc w)))
     (<[r := mkDetector volumeThreshold silenceDuration None]> (detectors w))
     (S r),
   [Started r recordOptions], r).

Definition stopRecording (w : World) : World * list Effect :=
  match recording (svc w) with
  | Some r =>
      (mkWorld (mkService None (continuousStream (svc w))) (detectors w)
         (nextRecorder w),
       [Stopped r])
  | None => (w, [LogNoActiveRecording])
  end.

Definition stopContinuousRecording (w : World) : World * list Effect :=
  match recording (svc w) with
  | Some r =>
      (mkWorld (mkService None None) (detectors w) (nextRecorder w), [Stopped r])
  | None => (w, [])
  end.

Definition set_silenceStartTime (r : RecorderId) (d : Detector) (v : option Z)
    (w : World) : World :=
  mkWorld (svc w)
    (<[r := mkDetector (volumeThreshold d) (silenceDuration d) v]> (detectors w))
    (nextRecorder w).

(** The ['data'] handler of the stream of the recorder [r], with the value
    [Date.now()] gives.  The handler of the continuous stream only
    measures the chunk. *)
Definition onData (r : RecorderId) (chunk : Buffer) (now : Z) (w : World)
  : World * list Effect :=
  match chunkMaxVolume chunk with
  | None => (w, [Uncaught])
  | Some volume =>
      match detectors w !! r with
      | None => (w, [])
      | Some d =>
          if positive (volumeThreshold d) then
            if negb (Qle_bool (volumeThreshold d) (inject_Z volume)) then
              match silenceStartTime d with
              | None => (set_silenceStartTime r d (Some now) w, [])
              | Some start =>
                  let silenceDurationMs := now - start in
                  if Qle_bool (silenceDuration d * 1000) (inject_Z silenceDurationMs)
                  then
                    let '(w', effs) := stopRecording w in
                    (w', LogSilenceDetected silenceDurationMs :: effs)
                  else (w, [])
              end
            else (set_silenceStartTime r d None w, [])
          else (w, [])
      end
  end.

(** What can happen to the service. *)
Inductive Event :=
| CallStartContinuousRecording
| CallStartRecording (silenceThreshold silenceDuration volumeThreshold : Q)
| CallStopRecording
| CallStopContinuousRecording
| Data (r : RecorderId) (chunk : Buffer) (now : Z).

Definition step (darwin : bool) (ev : Event) (w : World) : World * list Effect :=
  match ev with
  | CallStartContinuousRecording =>
      let '(w', effs, _) := startContinuousRecording darwin w in (w', effs)
  | CallStartRecording silenceThreshold silenceDuration volumeThreshold =>
      let '(w', effs, _) :=
        startRecording darwin silenceThreshold silenceDuration volumeThreshold w in
      (w', effs)
  | CallStopRecording => stopRecording w
  | CallStopContinuousRecording => stopContinuousRecording w
  | Data r chunk now => onData r chunk now w
  end.

Fixpoint run (darwin : bool) (evs : list Event) (w : World) : World * list Effect :=
  match evs with
  | [] => (w, [])
  | ev :: rest =>
      let '(w', effs) := step darwin ev w in
      let '(w'', effs') := run darwin rest w' in
      (w'', effs ++ effs')
  end.

(** The recorder that [recording] names has been started. *)
Definition Current (w : World) : Prop :=
  forall r, recording (svc w) = Some r -> (r < nextRecorder w)%nat.

End AudioInput.

(** * Properties of the listener *)

(** ** Facts about the string functions *)

Module StrFacts.
Import Str.

Lemma isSpace_lowerChar (c : ascii) : isSpace (lowerChar c) = isSpace c.
Proof. destruct c as [[] [] [] [] [] [] [] []]; reflexivity. Qed.

Lemma isEmpty_toLowerCase (s : string) : isEmpty (toLowerCase s) = isEmpty s.
Proof. destruct s; reflexivity. Qed.

Lemma trimStart_toLowerCase (s : string) :
  trimStart (toLowerCase s) = toLowerCase (trimStart s).
Proof.
  induction s as [|c s IH]; simpl; [reflexivity|].
  rewrite isSpace_lowerChar. destruct (isSpace c); [exact IH | reflexivity].
Qed.

Lemma trimEnd_toLowerCase (s : string) :
  trimEnd (toLowerCase s) = toLowerCase (trimEnd s).
Proof.
  induction s as [|c s IH]; simpl; [reflexivity|].
  rewrite isSpace_lowerChar, IH, isEmpty_toLowerCase.
  destruct (isSpace c && isEmpty (trimEnd s)); reflexivity.
Qed.

Lemma trim_toLowerCase (s : string) : trim (toLowerCase s) = toLowerCase (trim s).
Proof. unfold trim. rewrite trimStart_toLowerCase. apply trimEnd_toLowerCase. Qed.

Lemma includes_nonempty (hay needle : string) :
  isEmpty needle = false -> includes hay needle = true -> isEmpty hay = false.
Proof.
  intros Hn H. destruct hay; [|reflexivity].
  destruct needle; [discriminate Hn | discriminate H].
Qed.

Lemma isEmpty_length (s : string) :
  isEmpty s = false -> (0 <? Z.of_nat (String.length s)) = true.
Proof. destruct s; [discriminate|]. intros _. simpl String.length. apply Z.ltb_lt. lia. Qed.

Lemma trim_nonempty_truthy (s : string) : isEmpty (trim s) = false -> truthy s = true.
Proof. destruct s; [discriminate | reflexivity]. Qed.

End StrFacts.

(** A transcript in which the wake phrase is found passes the guard
    [transcription && transcription.trim().length > 0]. *)
Lemma wakePhraseIn_guard (transcription : string) :
  wakePhraseIn (Str.trim (Str.toLowerCase transcription)) = true ->
  Str.truthy transcription &&
    (0 <? Z.of_nat (String.length (Str.trim transcription))) = true.
Proof.
  intros H.
  assert (He : Str.isEmpty (Str.trim transcription) = false).
  { rewrite StrFacts.trim_toLowerCase in H.
    rewrite <- StrFacts.isEmpty_toLowerCase.
    unfold wakePhraseIn in H. apply orb_true_iff in H as [H|H];
      eapply StrFacts.includes_nonempty; try exact H; reflexivity. }
  rewrite (StrFacts.trim_nonempty_truthy _ He), (StrFacts.isEmpty_length _ He).
  reflexivity.
Qed.

(** ** The fields a callback leaves alone *)

Lemma processWakeWord_resume_fields (r : Error + string) (l : Listener) :
  let l' := fst (processWakeWord_resume r l) in
  mode l' = mode l /\ chunkBuffer l' = chunkBuffer l /\
  silenceStartTime l' = silenceStartTime l /\ chunkCount l' = chunkCount l /\
  hasReceivedAudio l' = hasReceivedAudio l /\ isProcessing l' = false /\
  volumeThreshold l' = volumeThreshold l /\ silenceDuration l' = silenceDuration l.
Proof.
  unfold processWakeWord_resume.
  destruct r as [e|t]; simpl; [repeat split|].
  destruct (_ && _); [|simpl; repeat split].
  destruct (wakePhraseIn _); [|simpl; repeat split].
  destruct (currentResolver l); simpl; repeat split.
Qed.

Lemma processCommand_resume_fields (r : Error + string) (l : Listener) :
  let l' := fst (processCommand_resume r l) in
  mode l' = mode l /\ chunkBuffer l' = chunkBuffer l /\
  silenceStartTime l' = silenceStartTime l /\ chunkCount l' = chunkCount l /\
  hasReceivedAudio l' = hasReceivedAudio l /\ isProcessing l' = isProcessing l /\
  volumeThreshold l' = volumeThreshold l /\ silenceDuration l' = silenceDuration l.
Proof.
  unfold processCommand_resume.
  destruct r as [e|t]; [destruct (currentRejector l) | destruct (currentResolver l)];
    simpl; repeat split.
Qed.

(** Settling a call that is in flight runs the continuation that awaits it. *)
Lemma step_Settled_wake (w : World) (call : nat) (r : Error + string) :
  inflight w !! call = Some AwaitWakeWord ->
  step (Settled call r) w =
    (mkWorld (fst (processWakeWord_resume r (svc w))) (delete call (inflight w))
       (nextCall w) (nextPromise w),
     snd (processWakeWord_resume r (svc w))).
Proof.
  intros H. unfold step. rewrite H.
  destruct (processWakeWord_resume r (svc w)); reflexivity.
Qed.

Lemma step_Settled_command (w : World) (call : nat) (r : Error + string) :
  inflight w !! call = Some AwaitCommand ->
  step (Settled call r) w =
    (mkWorld (fst (processCommand_resume r (svc w))) (delete call (inflight w))
       (nextCall w) (nextPromise w),
     snd (processCommand_resume r (svc w))).
Proof.
  intros H. unfold step. rewrite H.
  destruct (processCommand_resume r (svc w)); reflexivity.
Qed.

(** ** The wake phrase (C6) *)

(** C6. In WakeWord mode, when the transcription of a dispatched utterance
    comes back: if the transcript, lower-cased and trimmed, contains "isis"
    or "ice is", the pending result is resolved with the whole original
    transcript and the resolver and rejector are cleared; if it contains
    neither, no promise is settled, the pending slot is kept, the mode is
    unchanged and [isProcessing] is false again, so that the next boundary
    is dispatched. *)
Theorem wake_phrase_decides_fulfilment
  (w : World) (call : nat) (transcript : string) :
  inflight w !! call = Some AwaitWakeWord ->
  let normalized := Str.trim (Str.toLowerCase transcript) in
  let w' := fst (step (Settled call (inr transcript)) w) in
  let effs := snd (step (Settled call (inr transcript)) w) in
  (Str.includes normalized "isis" || Str.includes normalized "ice is" = true ->
   forall p, currentResolver (svc w) = Some p ->
     effs = [LogHeard transcript; Resolve p transcript] /\
     currentResolver (svc w') = None /\ currentRejector (svc w') = None) /\
  (Str.includes normalized "isis" || Str.includes normalized "ice is" = false ->
   forallb (fun e => negb (settles e)) effs = true /\
   currentResolver (svc w') = currentResolver (svc w) /\
   currentRejector (svc w') = currentRejector (svc w) /\
   mode (svc w') = mode (svc w) /\
   isProcessing (svc w') = false).
Proof.
  intros Hfl normalized w' effs. subst w' effs.
  rewrite (step_Settled_wake _ _ _ Hfl). simpl fst. simpl snd.
  fold (wakePhraseIn normalized).
  unfold processWakeWord_resume. fold normalized. split.
  - intros Hin p Hp.
    rewrite (wakePhraseIn_guard _ Hin). subst normalized. rewrite Hin, Hp.
    simpl. auto.
  - intros Hout. rewrite Hout.
    destruct (_ && _); simpl; auto.
Qed.

Lemma wake_phrase_decides_fulfilment_witness :
  let w := fst (step (Data [x01; x00; x01; x00]%byte 1500)
            (fst (step (Data [x01; x00]%byte 0)
              (fst (step (Data [] 0)
                (fst (listenForWakeWord (newWorld 900 (3 # 2))))))))) in
  snd (step (Settled 0%nat (inr "hey there isis can you help"%string)) w)
  = [LogHeard "hey there isis can you help";
     Resolve 0%nat "hey there isis can you help"].
Proof.
  intros w.
  apply (proj1 (wake_phrase_decides_fulfilment w 0%nat
                  "hey there isis can you help" eq_refl) eq_refl 0%nat eq_refl).
Defined.

(** ** Transcription failures (C7) *)

(** C7. When the transcription awaited by [processWakeWord] fails, the
    error is logged and nothing else happens: no promise is settled, the
    pending slot is kept and [isProcessing] is false again.  When the
    transcription awaited by [processCommand] fails, the pending result is
    rejected with that error and the slot is cleared. *)
Theorem transcription_error_by_mode
  (w : World) (call : nat) (k : Awaiting) (error : Error) :
  inflight w !! call = Some k ->
  let w' := fst (step (Settled call (inl error)) w) in
  let effs := snd (step (Settled call (inl error)) w) in
  match k with
  | AwaitWakeWord =>
      effs = [LogError error] /\
      currentResolver (svc w') = currentResolver (svc w) /\
      currentRejector (svc w') = currentRejector (svc w) /\
      mode (svc w') = mode (svc w) /\
      chunkBuffer (svc w') = chunkBuffer (svc w) /\
      isProcessing (svc w') = false
  | AwaitCommand =>
      forall p, currentRejector (svc w) = Some p ->
      effs = [Reject p error] /\
      currentResolver (svc w') = None /\ currentRejector (svc w') = None
  end.
Proof.
  intros Hfl w' effs. subst w' effs. destruct k.
  - rewrite (step_Settled_wake _ _ _ Hfl). simpl. repeat split.
  - intros p Hp. rewrite (step_Settled_command _ _ _ Hfl). simpl. rewrite Hp.
    simpl. auto.
Qed.

Lemma transcription_error_by_mode_witness :
  let w := fst (run [CallListenForCommand;
                     Data [] 0; Data [] 100; Data [] 200; Data [] 300; Data [] 400;
                     Data [x00; x10]%byte 500; Data [x01; x00]%byte 600;
                     Data [x01; x00]%byte 2100] (newWorld 900 (3 # 2))) in
  snd (step (Settled 0%nat (inl "timeout"%string)) w) = [Reject 0%nat "timeout"%string] /\
  currentResolver (svc (fst (step (Settled 0%nat (inl "timeout"%string)) w))) = None /\
  currentRejector (svc (fst (step (Settled 0%nat (inl "timeout"%string)) w))) = None.
Proof.
  intros w.
  exact (transcription_error_by_mode w 0%nat AwaitCommand "timeout"%string
           eq_refl 0%nat eq_refl).
Defined.

(** ** What [handleChunk] never touches *)

Ltac handleChunk_cases :=
  unfold handleChunk, processWakeWord, processCommand, dispatch;
  repeat (simpl; case_match); simpl.

Lemma handleChunk_frame (chunk : Buffer) (now : Z) (w : World) :
  let w' := fst (handleChunk chunk now w) in
  currentResolver (svc w') = currentResolver (svc w) /\
  currentRejector (svc w') = currentRejector (svc w) /\
  nextPromise w' = nextPromise w /\
  mode (svc w') = mode (svc w) /\
  volumeThreshold (svc w') = volumeThreshold (svc w) /\
  silenceDuration (svc w') = silenceDuration (svc w) /\
  chunkCount (svc w') = chunkCount (svc w) + 1 /\
  forallb (fun e => negb (settles e)) (snd (handleChunk chunk now w)) = true.
Proof.
  handleChunk_cases; simplify_eq; simpl; repeat split; congruence.
Qed.

(** ** At most one fulfilment per listen request (C5) *)

Lemma fulfilments_app (p : PromiseId) (a b : list Effect) :
  fulfilments p (a ++ b) = (fulfilments p a + fulfilments p b)%nat.
Proof. induction a as [|e a IH]; simpl; [reflexivity|]. rewrite IH. lia. Qed.

Lemma fulfilments_none (p : PromiseId) (effs : list Effect) :
  forallb (fun e => negb (settles e)) effs = true -> fulfilments p effs = 0%nat.
Proof.
  induction effs as [|e effs IH]; simpl; [reflexivity|].
  intros H. apply andb_true_iff in H as [He H]. rewrite (IH H).
  destruct e; simpl in *; try reflexivity; discriminate.
Qed.

Lemma step_SlotStep (ev : Event) (w : World) :
  SlotStep w (fst (step ev w)) (snd (step ev w)).
Proof.
  destruct ev as [chunk now|error|call r| |].
  - destruct (handleChunk_frame chunk now w) as (?&?&?&?&?&?&?&?).
    apply slot_kept; assumption.
  - simpl. unfold onStreamError.
    destruct (currentRejector (svc w)) as [p|] eqn:Hp; simpl.
    + apply (slot_fulfilled _ _ _ p); auto;
        intros q; simpl; destruct (Nat.eqb q p); reflexivity.
    + apply slot_kept; auto.
  - simpl. destruct (inflight w !! call) as [[]|] eqn:Hc.
    + unfold processWakeWord_resume.
      destruct r as [e|t]; simpl; [apply slot_kept; auto|].
      destruct (_ && _); simpl; [|apply slot_kept; auto].
      destruct (wakePhraseIn _); simpl; [|apply slot_kept; auto].
      destruct (currentResolver (svc w)) as [p|] eqn:Hp; simpl;
        [|apply slot_kept; auto].
      apply (slot_fulfilled _ _ _ p); auto;
        intros q; simpl; destruct (Nat.eqb q p); reflexivity.
    + unfold processCommand_resume. destruct r as [e|t].
      * destruct (currentRejector (svc w)) as [p|] eqn:Hp; simpl;
          [|apply slot_kept; auto].
        apply (slot_fulfilled _ _ _ p); auto;
          intros q; simpl; destruct (Nat.eqb q p); reflexivity.
      * destruct (currentResolver (svc w)) as [p|] eqn:Hp; simpl;
          [|apply slot_kept; auto].
        apply (slot_fulfilled _ _ _ p); auto;
          intros q; simpl; destruct (Nat.eqb q p); reflexivity.
    + apply slot_kept; auto.
  - apply slot_registered; reflexivity.
  - apply slot_registered; reflexivity.
Qed.

Lemma SlotInv_init (threshold : Z) (duration : Q) :
  SlotInv (newWorld threshold duration) [].
Proof. split; simpl; auto; intros; discriminate. Qed.

Lemma SlotInv_step (ev : Event) (w : World) (past : list Effect) :
  SlotInv w past -> SlotInv (fst (step ev w)) (past ++ snd (step ev w)).
Proof.
  intros [Hpair Hpend Honce Hfresh].
  destruct (step_SlotStep ev w) as [Hr Hj Hn Hq | p Hp Hr Hj Hn Hq | Hr Hj Hn Hq].
  - split; rewrite ?Hr, ?Hj, ?Hn; auto; intros q;
      rewrite fulfilments_app, (fulfilments_none _ _ Hq), Nat.add_0_r; auto.
  - assert (Hp' : currentResolver (svc w) = Some p)
      by (destruct Hp as [Hp|Hp]; congruence).
    destruct (Hpend p Hp') as [Hlt H0].
    split; rewrite ?Hr, ?Hj, ?Hn; auto.
    + intros q Hqq. discriminate.
    + intros q. rewrite fulfilments_app, Hq.
      destruct (Nat.eqb_spec q p) as [->|Hne]; [rewrite H0; lia|].
      specialize (Honce q). lia.
    + intros q Hge. rewrite fulfilments_app, Hq, (Hfresh q Hge).
      destruct (Nat.eqb_spec q p) as [->|Hne]; [lia | reflexivity].
  - rewrite Hq, app_nil_r. split; rewrite ?Hr, ?Hj, ?Hn; auto.
    + intros q [= <-]. split; [lia|]. apply Hfresh. lia.
    + intros q Hge. apply Hfresh. lia.
Qed.

Lemma run_cons (ev : Event) (evs : list Event) (w : World) :
  run (ev :: evs) w =
    (fst (run evs (fst (step ev w))),
     snd (step ev w) :: snd (run evs (fst (step ev w)))).
Proof.
  simpl. destruct (step ev w) as [w1 effs]. simpl.
  destruct (run evs w1); reflexivity.
Qed.

Lemma trace_cons (ev : Event) (evs : list Event) (w : World) :
  trace (ev :: evs) w = snd (step ev w) ++ trace evs (fst (step ev w)).
Proof. unfold trace. rewrite run_cons. reflexivity. Qed.

Lemma final_cons (ev : Event) (evs : list Event) (w : World) :
  final (ev :: evs) w = final evs (fst (step ev w)).
Proof. unfold final. rewrite run_cons. reflexivity. Qed.

Lemma SlotInv_run (evs : list Event) (w : World) (past : list Effect) :
  SlotInv w past -> SlotInv (final evs w) (past ++ trace evs w).
Proof.
  revert w past. induction evs as [|ev evs IH]; intros w past Hinv.
  - unfold trace, final. simpl. rewrite app_nil_r. exact Hinv.
  - rewrite trace_cons, final_cons, app_assoc.
    apply IH, SlotInv_step, Hinv.
Qed.

(** C5. Whatever callbacks run on a listener, in whatever order, every
    promise handed out by [listenForWakeWord] or [listenForCommand] is
    settled at most once; and a callback that settles a promise leaves both
    [currentResolver] and [currentRejector] null when it returns, so that no
    later boundary, transcription result or stream error can reach that
    promise again. *)
Theorem pending_result_fulfilled_at_most_once
  (threshold : Z) (duration : Q) (evs : list Event) :
  (forall p, (fulfilments p (trace evs (newWorld threshold duration)) <= 1)%nat) /\
  (forall ev,
     let w := final evs (newWorld threshold duration) in
     existsb settles (snd (step ev w)) = true ->
     currentResolver (svc (fst (step ev w))) = None /\
     currentRejector (svc (fst (step ev w))) = None).
Proof.
  split.
  - intros p.
    apply (slot_once _ _ (SlotInv_run evs _ [] (SlotInv_init threshold duration))).
  - intros ev w Hs.
    destruct (step_SlotStep ev w) as [Hr Hj Hn Hq | p Hp Hr Hj Hn Hq | Hr Hj Hn Hq].
    + exfalso. revert Hs Hq. generalize (snd (step ev w)).
      induction l as [|e l IH]; simpl; [discriminate|].
      destruct (settles e); simpl; [discriminate | exact IH].
    + auto.
    + rewrite Hq in Hs. discriminate.
Qed.

(** ** [handleChunk], branch by branch *)

Lemma skipsChunk_skippedEntirely (chunk : Buffer) (now : Z) (w : World) :
  skipsChunk (set_chunkCount (chunkCount (svc w) + 1) (svc w)) = true ->
  skippedEntirely chunk now w.
Proof.
  unfold skipsChunk, skippedEntirely, handleChunk. intros H.
  destruct (chunkCount _ =? 1); [reflexivity|].
  simpl in H. simpl. rewrite H. reflexivity.
Qed.

Lemma handleChunk_processed (chunk : Buffer) (now volume : Z) (w : World) :
  skipsChunk (set_chunkCount (chunkCount (svc w) + 1) (svc w)) = false ->
  chunkMaxVolume chunk = Some volume ->
  handleChunk chunk now w = checkSilence volume now (pushed chunk volume (svc w)) w.
Proof.
  unfold skipsChunk, handleChunk. intros H Hv.
  apply orb_false_iff in H as [H1 H2]. rewrite H1, H2, Hv. reflexivity.
Qed.

Lemma pushed_fields (chunk : Buffer) (volume : Z) (l : Listener) :
  let l' := pushed chunk volume l in
  volumeThreshold l' = volumeThreshold l /\ silenceDuration l' = silenceDuration l /\
  silenceStartTime l' = silenceStartTime l /\ mode l' = mode l /\
  isProcessing l' = isProcessing l /\
  chunkBuffer l' = chunkBuffer l ++ [chunk] /\
  chunkCount l' = chunkCount l + 1 /\
  currentResolver l' = currentResolver l /\ currentRejector l' = currentRejector l /\
  hasReceivedAudio l' =
    hasReceivedAudio l ||
    (ListenerMode_eqb (mode l) command && (volumeThreshold l <=? volume)).
Proof.
  unfold pushed. simpl.
  destruct (ListenerMode_eqb (mode l) command && (volumeThreshold l <=? volume));
    simpl; rewrite ?orb_true_r, ?orb_false_r; repeat split.
Qed.

Lemma silenceElapsed_pushed (chunk : Buffer) (volume d : Z) (l : Listener) :
  silenceElapsed (pushed chunk volume l) d = silenceElapsed l d.
Proof.
  unfold silenceElapsed.
  destruct (pushed_fields chunk volume l) as (_ & -> & _). reflexivity.
Qed.

(** What [firesBoundary] says, spelled out. *)
Lemma firesBoundary_inv (chunk : Buffer) (now : Z) (w : World) :
  firesBoundary chunk now w = true ->
  exists volume start,
    skipsChunk (set_chunkCount (chunkCount (svc w) + 1) (svc w)) = false /\
    chunkMaxVolume chunk = Some volume /\
    silenceStartTime (svc w) = Some start /\
    (volume <? volumeThreshold (svc w)) = true /\
    silenceElapsed (svc w) (now - start) = true.
Proof.
  unfold firesBoundary. intros Hf.
  apply andb_true_iff in Hf as [Hs Hf]. apply negb_true_iff in Hs.
  destruct (chunkMaxVolume chunk) as [v|]; [|discriminate].
  simpl in Hf. destruct (silenceStartTime (svc w)) as [start|]; [|discriminate].
  apply andb_true_iff in Hf as [Hq He]. exists v, start. auto.
Qed.

Lemma checkSilence_boundary (chunk : Buffer) (volume now start : Z) (w : World) :
  (volume <? volumeThreshold (svc w)) = true ->
  silenceStartTime (svc w) = Some start ->
  silenceElapsed (svc w) (now - start) = true ->
  checkSilence volume now (pushed chunk volume (svc w)) w =
    (fst match mode (svc w) with
         | wake_word => processWakeWord (with_svc (pushed chunk volume (svc w)) w)
         | command => processCommand (with_svc (pushed chunk volume (svc w)) w)
         end,
     Boundary (mode (svc w)) ::
     snd match mode (svc w) with
         | wake_word => processWakeWord (with_svc (pushed chunk volume (svc w)) w)
         | command => processCommand (with_svc (pushed chunk volume (svc w)) w)
         end).
Proof.
  intros Hq Hst He. unfold checkSilence.
  destruct (pushed_fields chunk volume (svc w)) as (Ht & _ & Hst' & Hm' & _).
  rewrite Ht, Hq, Hst', Hst. cbv beta iota.
  rewrite silenceElapsed_pushed, He, Hm'.
  destruct (mode (svc w));
    [destruct (processWakeWord _) | destruct (processCommand _)]; reflexivity.
Qed.

Lemma handleChunk_boundary (chunk : Buffer) (now : Z) (w : World) :
  firesBoundary chunk now w = true ->
  exists volume,
    chunkMaxVolume chunk = Some volume /\
    (volume <? volumeThreshold (svc w)) = true /\
    handleChunk chunk now w =
      (fst match mode (svc w) with
           | wake_word => processWakeWord (with_svc (pushed chunk volume (svc w)) w)
           | command => processCommand (with_svc (pushed chunk volume (svc w)) w)
           end,
       Boundary (mode (svc w)) ::
       snd match mode (svc w) with
           | wake_word => processWakeWord (with_svc (pushed chunk volume (svc w)) w)
           | command => processCommand (with_svc (pushed chunk volume (svc w)) w)
           end).
Proof.
  intros Hf. destruct (firesBoundary_inv _ _ _ Hf) as (v & start & Hs & Hv & Hst & Hq & He).
  exists v. split; [exact Hv|]. split; [exact Hq|].
  rewrite (handleChunk_processed _ _ _ _ Hs Hv).
  apply (checkSilence_boundary _ _ _ start); assumption.
Qed.

(** The [Boundary] effect marks exactly the chunks on which the silence
    test succeeds. *)
Lemma Boundary_iff_firesBoundary (chunk : Buffer) (now : Z) (w : World) :
  existsb isBoundary (snd (handleChunk chunk now w)) = firesBoundary chunk now w.
Proof.
  destruct (firesBoundary chunk now w) eqn:Hf.
  - destruct (handleChunk_boundary _ _ _ Hf) as (v & _ & _ & ->). reflexivity.
  - unfold firesBoundary in Hf.
    destruct (skipsChunk _) eqn:Hs.
    + rewrite (skipsChunk_skippedEntirely _ _ _ Hs). reflexivity.
    + simpl in Hf. destruct (chunkMaxVolume chunk) as [v|] eqn:Hv.
      * rewrite (handleChunk_processed _ _ _ _ Hs Hv). unfold checkSilence.
        destruct (pushed_fields chunk v (svc w)) as (Ht & _ & Hst & _).
        rewrite Ht, Hst.
        destruct (v <? _); [|reflexivity].
        destruct (silenceStartTime (svc w)); [|reflexivity].
        rewrite silenceElapsed_pushed. unfold silenceElapsed in *.
        simpl in Hf. rewrite Hf. reflexivity.
      * unfold skipsChunk in Hs. apply orb_false_iff in Hs as [H1 H2].
        unfold handleChunk. rewrite H1, H2, Hv. reflexivity.
Qed.

(** What a boundary does, by mode and by the state the chunk found. *)
Lemma boundary_wake_dispatch (chunk : Buffer) (now : Z) (w : World) :
  firesBoundary chunk now w = true ->
  mode (svc w) = wake_word -> isProcessing (svc w) = false ->
  exists l,
    handleChunk chunk now w =
      (mkWorld l (<[nextCall w := AwaitWakeWord]> (inflight w)) (S (nextCall w))
         (nextPromise w),
       [Boundary wake_word;
        Transcribe (nextCall w) (Buffer_concat (chunkBuffer (svc w) ++ [chunk]))]) /\
    chunkBuffer l = [] /\ silenceStartTime l = None /\ isProcessing l = true /\
    mode l = wake_word /\ hasReceivedAudio l = hasReceivedAudio (svc w) /\
    currentResolver l = currentResolver (svc w) /\
    currentRejector l = currentRejector (svc w).
Proof.
  intros Hf Hm Hp.
  destruct (handleChunk_boundary _ _ _ Hf) as (v & Hv & Hq & ->). rewrite Hm.
  destruct (pushed_fields chunk v (svc w)) as (_ & _ & _ & Hm' & Hp' & Hb & _ & Hr & Hj & Hh).
  set (l1 := pushed chunk v (svc w)) in *. clearbody l1.
  unfold processWakeWord, dispatch. simpl svc. rewrite Hp', Hp, Hb.
  rewrite length_app. simpl length.
  replace (Z.of_nat (length (chunkBuffer (svc w)) + 1) =? 0) with false
    by (symmetry; apply Z.eqb_neq; lia).
  simpl. rewrite Hb. eexists. split; [reflexivity|]. simpl.
  rewrite Hh, Hm. simpl. rewrite orb_false_r. repeat split; congruence.
Qed.

Lemma boundary_wake_dropped (chunk : Buffer) (now : Z) (w : World) :
  firesBoundary chunk now w = true ->
  mode (svc w) = wake_word -> isProcessing (svc w) = true ->
  exists volume,
    chunkMaxVolume chunk = Some volume /\
    handleChunk chunk now w =
      (with_svc (pushed chunk volume (svc w)) w, [Boundary wake_word]).
Proof.
  intros Hf Hm Hp.
  destruct (handleChunk_boundary _ _ _ Hf) as (v & Hv & Hq & ->). rewrite Hm.
  exists v. split; [exact Hv|].
  destruct (pushed_fields chunk v (svc w)) as (_ & _ & _ & _ & Hp' & _).
  set (l1 := pushed chunk v (svc w)) in *. clearbody l1.
  unfold processWakeWord. simpl svc. rewrite Hp', Hp. reflexivity.
Qed.

Lemma boundary_command_pure_silence (chunk : Buffer) (now : Z) (w : World) :
  firesBoundary chunk now w = true ->
  mode (svc w) = command -> hasReceivedAudio (svc w) = false ->
  exists volume,
    chunkMaxVolume chunk = Some volume /\
    handleChunk chunk now w =
      (with_svc (set_silenceStartTime None
                   (set_chunkBuffer [] (pushed chunk volume (svc w)))) w,
       [Boundary command]) /\
    hasReceivedAudio (pushed chunk volume (svc w)) = false.
Proof.
  intros Hf Hm Hh.
  destruct (handleChunk_boundary _ _ _ Hf) as (v & Hv & Hq & ->). rewrite Hm.
  exists v. split; [exact Hv|].
  destruct (pushed_fields chunk v (svc w)) as (_ & _ & _ & _ & _ & _ & _ & _ & _ & Hh').
  set (l1 := pushed chunk v (svc w)) in *. clearbody l1.
  assert (Hh'' : hasReceivedAudio l1 = false).
  { rewrite Hh', Hh, Hm. simpl. apply Z.leb_gt. apply Z.ltb_lt in Hq. lia. }
  unfold processCommand. simpl svc. rewrite Hh''. simpl.
  rewrite orb_true_r. auto.
Qed.

Lemma boundary_command_dispatch (chunk : Buffer) (now : Z) (w : World) :
  firesBoundary chunk now w = true ->
  mode (svc w) = command -> hasReceivedAudio (svc w) = true ->
  isProcessing (svc w) = false ->
  exists l,
    handleChunk chunk now w =
      (mkWorld l (<[nextCall w := AwaitCommand]> (inflight w)) (S (nextCall w))
         (nextPromise w),
       [Boundary command;
        Transcribe (nextCall w) (Buffer_concat (chunkBuffer (svc w) ++ [chunk]))]) /\
    chunkBuffer l = [] /\ silenceStartTime l = silenceStartTime (svc w) /\
    isProcessing l = true /\ mode l = command /\ hasReceivedAudio l = true.
Proof.
  intros Hf Hm Hh Hp.
  destruct (handleChunk_boundary _ _ _ Hf) as (v & Hv & Hq & ->). rewrite Hm.
  destruct (pushed_fields chunk v (svc w)) as (_ & _ & Hst & Hm' & Hp' & Hb & _ & _ & _ & Hh').
  set (l1 := pushed chunk v (svc w)) in *. clearbody l1.
  rewrite Hh in Hh'. simpl in Hh'.
  unfold processCommand, dispatch. simpl svc. rewrite Hp', Hp, Hb, Hh'.
  rewrite length_app. simpl length.
  replace (Z.of_nat (length (chunkBuffer (svc w)) + 1) =? 0) with false
    by (symmetry; apply Z.eqb_neq; lia).
  simpl. rewrite Hb. eexists. split; [reflexivity|]. simpl.
  repeat split; congruence.
Qed.

Lemma boundary_command_dropped (chunk : Buffer) (now : Z) (w : World) :
  firesBoundary chunk now w = true ->
  mode (svc w) = command -> hasReceivedAudio (svc w) = true ->
  isProcessing (svc w) = true ->
  exists volume,
    chunkMaxVolume chunk = Some volume /\
    handleChunk chunk now w =
      (with_svc (pushed chunk volume (svc w)) w, [Boundary command]).
Proof.
  intros Hf Hm Hh Hp.
  destruct (handleChunk_boundary _ _ _ Hf) as (v & Hv & Hq & ->). rewrite Hm.
  exists v. split; [exact Hv|].
  destruct (pushed_fields chunk v (svc w)) as (_ & _ & _ & _ & Hp' & _ & _ & _ & _ & Hh').
  set (l1 := pushed chunk v (svc w)) in *. clearbody l1.
  rewrite Hh in Hh'. simpl in Hh'.
  unfold processCommand. simpl svc. rewrite Hp', Hp, Hh'. reflexivity.
Qed.

Lemma handleChunk_loud (chunk : Buffer) (now volume : Z) (w : World) :
  skipsChunk (set_chunkCount (chunkCount (svc w) + 1) (svc w)) = false ->
  chunkMaxVolume chunk = Some volume ->
  volumeThreshold (svc w) <= volume ->
  handleChunk chunk now w =
    (with_svc (set_silenceStartTime None (pushed chunk volume (svc w))) w, []).
Proof.
  intros Hs Hv Hle. rewrite (handleChunk_processed _ _ _ _ Hs Hv).
  unfold checkSilence.
  destruct (pushed_fields chunk volume (svc w)) as (-> & _).
  replace (volume <? volumeThreshold (svc w)) with false
    by (symmetry; apply Z.ltb_ge; exact Hle).
  reflexivity.
Qed.

Lemma handleChunk_quiet_start (chunk : Buffer) (now volume : Z) (w : World) :
  skipsChunk (set_chunkCount (chunkCount (svc w) + 1) (svc w)) = false ->
  chunkMaxVolume chunk = Some volume ->
  volume < volumeThreshold (svc w) ->
  silenceStartTime (svc w) = None ->
  handleChunk chunk now w =
    (with_svc (set_silenceStartTime (Some now) (pushed chunk volume (svc w))) w, []).
Proof.
  intros Hs Hv Hlt Hst. rewrite (handleChunk_processed _ _ _ _ Hs Hv).
  unfold checkSilence.
  destruct (pushed_fields chunk volume (svc w)) as (-> & _ & -> & _).
  rewrite Hst. apply Z.ltb_lt in Hlt. rewrite Hlt. reflexivity.
Qed.

Lemma handleChunk_quiet_wait (chunk : Buffer) (now volume start : Z) (w : World) :
  skipsChunk (set_chunkCount (chunkCount (svc w) + 1) (svc w)) = false ->
  chunkMaxVolume chunk = Some volume ->
  volume < volumeThreshold (svc w) ->
  silenceStartTime (svc w) = Some start ->
  silenceElapsed (svc w) (now - start) = false ->
  handleChunk chunk now w = (with_svc (pushed chunk volume (svc w)) w, []).
Proof.
  intros Hs Hv Hlt Hst He. rewrite (handleChunk_processed _ _ _ _ Hs Hv).
  unfold checkSilence.
  destruct (pushed_fields chunk volume (svc w)) as (-> & _ & -> & _).
  rewrite Hst. apply Z.ltb_lt in Hlt. rewrite Hlt. cbv beta iota.
  rewrite silenceElapsed_pushed, He. reflexivity.
Qed.

Lemma ListenerMode_eqb_eq (a b : ListenerMode) : ListenerMode_eqb a b = true <-> a = b.
Proof. destruct a, b; simpl; split; (reflexivity || discriminate). Qed.

Lemma skipsChunk_iff (l : Listener) :
  skipsChunk l = true <->
  chunkCount l = 1 \/ (mode l = command /\ chunkCount l <= 5).
Proof.
  unfold skipsChunk.
  rewrite orb_true_iff, andb_true_iff, Z.eqb_eq, Z.leb_le, ListenerMode_eqb_eq.
  reflexivity.
Qed.

(** ** Boundaries on pure silence (C1) *)

(** In Command mode a chunk that leaves [hasReceivedAudio] false has
    dispatched nothing. *)
Lemma command_no_audio_no_transcription (chunk : Buffer) (now : Z) (w : World) :
  mode (svc w) = command ->
  hasReceivedAudio (svc (fst (handleChunk chunk now w))) = false ->
  forallb (fun e => negb (isTranscribe e)) (snd (handleChunk chunk now w)) = true /\
  hasReceivedAudio (svc w) = false.
Proof.
  intros Hm. handleChunk_cases; simplify_eq; simpl in *; intros Hx;
    rewrite ?Hx in *; simpl in *; rewrite ?orb_true_r in *; auto; congruence.
Qed.

Lemma command_no_audio_run (cts : list (Buffer * Z)) (w : World) :
  mode (svc w) = command ->
  hasReceivedAudio (svc (final (datas cts) w)) = false ->
  forallb (fun e => negb (isTranscribe e)) (trace (datas cts) w) = true.
Proof.
  revert w. induction cts as [|[chunk now] cts IH]; intros w Hm Hh; [reflexivity|].
  simpl datas in *. rewrite trace_cons. rewrite final_cons in Hh. simpl step in *.
  destruct (handleChunk_frame chunk now w) as (_ & _ & _ & Hm' & _).
  rewrite Hm in Hm'.
  assert (Hmid : hasReceivedAudio (svc (fst (handleChunk chunk now w))) = false).
  { destruct (hasReceivedAudio (svc (fst (handleChunk chunk now w)))) eqn:E;
      [|reflexivity].
    exfalso. clear IH. revert Hh Hm' E.
    generalize (fst (handleChunk chunk now w)). clear.
    induction cts as [|[c t] cts IH]; intros w Hh Hm E.
    - unfold final in Hh. simpl in Hh. congruence.
    - simpl datas in Hh. rewrite final_cons in Hh. simpl step in Hh.
      destruct (handleChunk_frame c t w) as (_ & _ & _ & Hm' & _).
      apply (IH _ Hh); [congruence|].
      destruct (hasReceivedAudio (svc (fst (handleChunk c t w)))) eqn:E'; [reflexivity|].
      destruct (command_no_audio_no_transcription c t w Hm E'). congruence. }
  rewrite forallb_app.
  destruct (command_no_audio_no_transcription chunk now w Hm Hmid) as [-> _].
  apply (IH _ Hm' Hh).
Qed.

(** In Command mode a chunk whose peak is below the threshold leaves
    [hasReceivedAudio] as it was. *)
Lemma handleChunk_below_threshold (chunk : Buffer) (now : Z) (w : World) :
  mode (svc w) = command -> hasReceivedAudio (svc w) = false ->
  (forall volume, chunkMaxVolume chunk = Some volume ->
     volume < volumeThreshold (svc w)) ->
  hasReceivedAudio (svc (fst (handleChunk chunk now w))) = false.
Proof.
  intros Hm Hh Hq.
  destruct (skipsChunk (set_chunkCount (chunkCount (svc w) + 1) (svc w))) eqn:Hs.
  - rewrite (skipsChunk_skippedEntirely chunk now w Hs). exact Hh.
  - destruct (chunkMaxVolume chunk) as [v|] eqn:Hv.
    + specialize (Hq v eq_refl).
      destruct (firesBoundary chunk now w) eqn:Hf.
      * destruct (boundary_command_pure_silence _ _ _ Hf Hm Hh) as (v' & _ & -> & Hh').
        exact Hh'.
      * destruct (pushed_fields chunk v (svc w)) as (_ & _ & _ & _ & _ & _ & _ & _ & _ & Hp).
        assert (Hh' : hasReceivedAudio (pushed chunk v (svc w)) = false).
        { rewrite Hp, Hh, Hm. simpl. apply Z.leb_gt. exact Hq. }
        unfold firesBoundary in Hf. rewrite Hs, Hv in Hf. simpl in Hf.
        destruct (silenceStartTime (svc w)) as [start|] eqn:Hst.
        -- apply Z.ltb_lt in Hq. rewrite Hq in Hf. simpl in Hf.
           rewrite (handleChunk_quiet_wait _ _ v start); auto.
           apply Z.ltb_lt. exact Hq.
        -- rewrite (handleChunk_quiet_start _ _ v); auto.
    + unfold skipsChunk in Hs. apply orb_false_iff in Hs as [H1 H2].
      unfold handleChunk. rewrite H1, H2, Hv. exact Hh.
Qed.

Lemma command_below_threshold_run (cts : list (Buffer * Z)) (w : World) :
  mode (svc w) = command -> hasReceivedAudio (svc w) = false ->
  Forall (fun ct => forall volume, chunkMaxVolume (fst ct) = Some volume ->
                      volume < volumeThreshold (svc w)) cts ->
  hasReceivedAudio (svc (final (datas cts) w)) = false.
Proof.
  revert w. induction cts as [|[chunk now] cts IH]; intros w Hm Hh Hq; [exact Hh|].
  apply Forall_cons in Hq as [Hq1 Hq].
  simpl datas. rewrite final_cons. simpl step.
  destruct (handleChunk_frame chunk now w) as (_ & _ & _ & Hm' & Ht & _).
  apply IH; [congruence | apply handleChunk_below_threshold; assumption |].
  rewrite Ht. exact Hq.
Qed.

(** C1, as the code has it.  In Command mode a boundary that fires while
    [hasReceivedAudio] is false (no chunk processed since [listenForCommand]
    reached the threshold) does not call the transcription: the buffer is
    emptied, the silence timer is cleared, and mode, pending slot and
    transcriptions in flight are as before; and over any run of chunks in
    Command mode that ends with [hasReceivedAudio] false no transcription
    is called at all, which is the case of every run of chunks whose peaks
    are all below the threshold.  In WakeWord mode [hasReceivedAudio] is not consulted:
    a boundary that fires while no transcription is in flight sends the
    buffered chunks to the transcription. *)
Theorem pure_silence_boundary_by_mode :
  (forall (w : World) (chunk : Buffer) (now : Z),
     firesBoundary chunk now w = true ->
     mode (svc w) = command -> hasReceivedAudio (svc w) = false ->
     let w' := fst (handleChunk chunk now w) in
     snd (handleChunk chunk now w) = [Boundary command] /\
     chunkBuffer (svc w') = [] /\ silenceStartTime (svc w') = None /\
     hasReceivedAudio (svc w') = false /\ mode (svc w') = command /\
     isProcessing (svc w') = isProcessing (svc w) /\
     currentResolver (svc w') = currentResolver (svc w) /\
     currentRejector (svc w') = currentRejector (svc w) /\
     inflight w' = inflight w) /\
  (forall (w : World) (cts : list (Buffer * Z)),
     mode (svc w) = command ->
     hasReceivedAudio (svc (final (datas cts) w)) = false ->
     forallb (fun e => negb (isTranscribe e)) (trace (datas cts) w) = true) /\
  (forall (w : World) (cts : list (Buffer * Z)),
     mode (svc w) = command -> hasReceivedAudio (svc w) = false ->
     Forall (fun ct => forall volume, chunkMaxVolume (fst ct) = Some volume ->
                         volume < volumeThreshold (svc w)) cts ->
     hasReceivedAudio (svc (final (datas cts) w)) = false /\
     forallb (fun e => negb (isTranscribe e)) (trace (datas cts) w) = true) /\
  (forall (w : World) (chunk : Buffer) (now : Z),
     firesBoundary chunk now w = true ->
     mode (svc w) = wake_word -> isProcessing (svc w) = false ->
     snd (handleChunk chunk now w) =
       [Boundary wake_word;
        Transcribe (nextCall w) (Buffer_concat (chunkBuffer (svc w) ++ [chunk]))]).
Proof.
  split; [|split; [|split]].
  - intros w chunk now Hf Hm Hh w'. subst w'.
    destruct (boundary_command_pure_silence _ _ _ Hf Hm Hh) as (v & Hv & -> & Hh').
    destruct (pushed_fields chunk v (svc w)) as (_ & _ & _ & Hm' & Hp' & _ & _ & Hr & Hj & _).
    set (l1 := pushed chunk v (svc w)) in *. clearbody l1.
    simpl. repeat split; congruence.
  - exact (fun w cts => command_no_audio_run cts w).
  - intros w cts Hm Hh Hq.
    pose proof (command_below_threshold_run cts w Hm Hh Hq) as Hend.
    split; [exact Hend | apply command_no_audio_run; assumption].
  - intros w chunk now Hf Hm Hp.
    destruct (boundary_wake_dispatch _ _ _ Hf Hm Hp) as (l & -> & _). reflexivity.
Qed.

Lemma pure_silence_boundary_by_mode_witness :
  let w := final [CallListenForCommand;
                  Data [] 0; Data [] 100; Data [] 200; Data [] 300; Data [] 400;
                  Data [x01; x00]%byte 500] (newWorld 900 (3 # 2)) in
  snd (handleChunk [x02; x00]%byte 2000 w) = [Boundary command] /\
  chunkBuffer (svc (fst (handleChunk [x02; x00]%byte 2000 w))) = [].
Proof.
  intros w.
  destruct (proj1 pure_silence_boundary_by_mode w [x02; x00]%byte 2000
              eq_refl eq_refl eq_refl) as (H1 & H2 & _).
  exact (conj H1 H2).
Defined.

(** C1 as the specification words it fails in WakeWord mode: after
    [listenForWakeWord], one skipped chunk and two chunks of peak 1 (the
    threshold is 900) that are 1.5 s apart, the boundary fires and the two
    silent chunks are sent to the transcription. *)
Lemma wake_word_pure_silence_is_transcribed :
  chunkMaxVolume [x01; x00]%byte = Some 1 /\
  trace [CallListenForWakeWord; Data [] 0;
         Data [x01; x00]%byte 100; Data [x01; x00]%byte 1600]
        (newWorld 900 (3 # 2))
  = [Boundary wake_word; Transcribe 0 [x01; x00; x01; x00]%byte].
Proof. split; reflexivity. Qed.

(** ** Leading chunks (C2) *)

Lemma run_skipped_command (cts : list (Buffer * Z)) (w : World) :
  mode (svc w) = command ->
  chunkCount (svc w) + Z.of_nat (length cts) <= 5 ->
  run (datas cts) w =
    (with_svc (set_chunkCount (chunkCount (svc w) + Z.of_nat (length cts)) (svc w)) w,
     List.map (fun _ => []) cts).
Proof.
  revert w. induction cts as [|[chunk now] cts IH]; intros w Hm Hc.
  - simpl. rewrite Z.add_0_r. destruct w as [[] ? ? ?]; reflexivity.
  - simpl datas. rewrite run_cons. simpl step.
    assert (Hs : skippedEntirely chunk now w).
    { apply skipsChunk_skippedEntirely, skipsChunk_iff. right. simpl length in Hc.
      simpl. split; [exact Hm|lia]. }
    rewrite Hs. simpl fst. simpl snd. rewrite IH; [|exact Hm|simpl in *; lia].
    simpl. f_equal. unfold with_svc, set_chunkCount. simpl. do 2 f_equal.
    rewrite Nat2Z.inj_succ. lia.
Qed.

(** C2, as the code has it.  The chunk that brings [chunkCount] to 1 is
    skipped entirely, and in Command mode so is every chunk that brings it
    to at most 5.  [listenForCommand] sets [chunkCount] to 0, so that the
    first five chunks after it are skipped, whatever they hold, and the
    sixth is measured and buffered.  [listenForWakeWord] leaves
    [chunkCount] as it is: the first chunk after it is skipped when no chunk
    has been counted yet, and is measured and buffered otherwise. *)
Theorem leading_chunks_skipped :
  (forall (w : World) (chunk : Buffer) (now : Z),
     chunkCount (svc w) = 0 -> skippedEntirely chunk now w) /\
  (forall (w : World) (chunk : Buffer) (now : Z),
     mode (svc w) = command -> chunkCount (svc w) < 5 ->
     skippedEntirely chunk now w) /\
  (forall (w : World) (cts : list (Buffer * Z)),
     (length cts <= 5)%nat ->
     let w0 := fst (listenForCommand w) in
     run (datas cts) w0 =
       (with_svc (set_chunkCount (Z.of_nat (length cts)) (svc w0)) w0,
        List.map (fun _ => []) cts)) /\
  (forall (w : World) (cts : list (Buffer * Z)) (chunk : Buffer) (now volume : Z),
     length cts = 5%nat -> chunkMaxVolume chunk = Some volume ->
     let w5 := final (datas cts) (fst (listenForCommand w)) in
     handleChunk chunk now w5 =
       checkSilence volume now (pushed chunk volume (svc w5)) w5) /\
  (forall (w : World),
     chunkCount (svc (fst (listenForWakeWord w))) = chunkCount (svc w) /\
     mode (svc (fst (listenForWakeWord w))) = wake_word) /\
  (forall (w : World) (chunk : Buffer) (now volume : Z),
     mode (svc w) = wake_word -> chunkCount (svc w) <> 0 ->
     chunkMaxVolume chunk = Some volume ->
     handleChunk chunk now w =
       checkSilence volume now (pushed chunk volume (svc w)) w).
Proof.
  repeat apply conj.
  - intros w chunk now H0. apply skipsChunk_skippedEntirely, skipsChunk_iff.
    left. simpl. lia.
  - intros w chunk now Hm Hc. apply skipsChunk_skippedEntirely, skipsChunk_iff.
    right. simpl. split; [exact Hm|lia].
  - intros w cts Hlen w0. subst w0.
    rewrite run_skipped_command; [reflexivity|reflexivity|simpl; lia].
  - intros w cts chunk now volume Hlen Hv w5. subst w5.
    apply handleChunk_processed; [|exact Hv].
    unfold final. rewrite run_skipped_command; [|reflexivity|simpl; lia].
    rewrite Hlen. reflexivity.
  - intros w. split; reflexivity.
  - intros w chunk now volume Hm Hc Hv.
    apply handleChunk_processed; [|exact Hv].
    destruct (skipsChunk _) eqn:Hs; [|reflexivity].
    apply skipsChunk_iff in Hs. simpl in Hs.
    destruct Hs as [Hs|[Hs _]]; [lia|congruence].
Qed.

(** C2 as the specification words it fails for [listenForWakeWord]: here
    the listener enters WakeWord mode a second time after two chunks, and
    the first chunk after that entry is buffered and starts the silence
    timer. *)
Lemma first_chunk_after_wake_word_reentry_is_processed :
  let w := final [CallListenForWakeWord; Data [x01; x00]%byte 0;
                  Data [x01; x00]%byte 100; CallListenForWakeWord]
                 (newWorld 900 (3 # 2)) in
  chunkBuffer (svc w) = [] /\
  chunkBuffer (svc (fst (step (Data [x02; x00]%byte 200) w))) = [[x02; x00]%byte] /\
  silenceStartTime (svc (fst (step (Data [x02; x00]%byte 200) w))) = Some 200 /\
  ~ skippedEntirely [x02; x00]%byte 200 w.
Proof.
  intros w. repeat apply conj; try reflexivity.
  unfold skippedEntirely. intros H.
  apply (f_equal (fun r => silenceStartTime (svc (fst r)))) in H.
  vm_compute in H. discriminate H.
Qed.

(** ** The silence timer (C4) *)

Lemma handleChunk_unskipped_count (chunk : Buffer) (now : Z) (w : World) :
  skipsChunk (set_chunkCount (chunkCount (svc w) + 1) (svc w)) = false ->
  chunkCount (svc w) + 1 <> 1 /\ (mode (svc w) = command -> 5 < chunkCount (svc w) + 1).
Proof.
  intros Hs. split.
  - intros H. assert (skipsChunk (set_chunkCount (chunkCount (svc w) + 1) (svc w)) = true)
      by (apply skipsChunk_iff; left; exact H). congruence.
  - intros Hm. destruct (Z_lt_le_dec 5 (chunkCount (svc w) + 1)) as [H|H]; [exact H|].
    assert (skipsChunk (set_chunkCount (chunkCount (svc w) + 1) (svc w)) = true)
      by (apply skipsChunk_iff; right; split; [exact Hm | exact H]). congruence.
Qed.

Lemma TimerInv_step (ev : Event) (w : World) : TimerInv w -> TimerInv (fst (step ev w)).
Proof.
  intros [Hc H0 H5]. destruct ev as [chunk now|error|call r| |].
  - simpl step.
    destruct (handleChunk_frame chunk now w) as (_ & _ & _ & Hm & _ & _ & Hcnt & _).
    destruct (skipsChunk (set_chunkCount (chunkCount (svc w) + 1) (svc w))) eqn:Hs.
    + pose proof (skipsChunk_skippedEntirely chunk now w Hs) as He.
      unfold skippedEntirely in He. rewrite He. simpl.
      apply skipsChunk_iff in Hs. simpl in Hs.
      assert (Ht : silenceStartTime (svc w) = None).
      { destruct Hs as [Hs|[Hs1 Hs2]]; [apply H0; lia | apply H5; [exact Hs1|lia]]. }
      split; simpl; auto; lia.
    + destruct (handleChunk_unskipped_count chunk now w Hs) as [H1 H2].
      split; rewrite ?Hcnt, ?Hm; try lia.
      intros Hcmd. specialize (H2 Hcmd). lia.
  - simpl. unfold onStreamError.
    destruct (currentRejector (svc w)); simpl; split; auto.
  - simpl. destruct (inflight w !! call) as [[]|]; [| |split; auto].
    + destruct (processWakeWord_resume_fields r (svc w)) as (Hm & _ & Ht & Hcnt & _).
      destruct (processWakeWord_resume r (svc w)) as [l effs]. simpl in *.
      split; simpl; rewrite ?Hm, ?Ht, ?Hcnt; auto.
    + destruct (processCommand_resume_fields r (svc w)) as (Hm & _ & Ht & Hcnt & _).
      destruct (processCommand_resume r (svc w)) as [l effs]. simpl in *.
      split; simpl; rewrite ?Hm, ?Ht, ?Hcnt; auto.
  - split; simpl; auto.
  - split; simpl; auto; lia.
Qed.

Lemma TimerInv_run (evs : list Event) (w : World) : TimerInv w -> TimerInv (final evs w).
Proof.
  revert w. induction evs as [|ev evs IH]; intros w H; [exact H|].
  rewrite final_cons. apply IH, TimerInv_step, H.
Qed.

Lemma TimerInv_init (threshold : Z) (duration : Q) : TimerInv (newWorld threshold duration).
Proof. split; simpl; auto; lia. Qed.

(** C4, as the code has it.  On a listener that any callbacks have brought
    about ([w] below): the silence timer is null after every chunk whose
    peak reaches the threshold; a processed chunk below the threshold that
    finds the timer null sets it to its arrival time; [listenForWakeWord]
    and [listenForCommand] clear it; a boundary clears it when it is
    dispatched in WakeWord mode and when it is discarded as pure silence in
    Command mode; a boundary that is dropped because a transcription is in
    flight leaves the timer as it was. *)
Theorem silence_timer_lifecycle (threshold : Z) (duration : Q) (evs : list Event) :
  let w := final evs (newWorld threshold duration) in
  (forall (chunk : Buffer) (now volume : Z),
     chunkMaxVolume chunk = Some volume ->
     volumeThreshold (svc w) <= volume ->
     silenceStartTime (svc (fst (handleChunk chunk now w))) = None) /\
  (forall (chunk : Buffer) (now volume : Z),
     skipsChunk (set_chunkCount (chunkCount (svc w) + 1) (svc w)) = false ->
     chunkMaxVolume chunk = Some volume ->
     volume < volumeThreshold (svc w) ->
     silenceStartTime (svc w) = None ->
     silenceStartTime (svc (fst (handleChunk chunk now w))) = Some now) /\
  silenceStartTime (svc (fst (listenForWakeWord w))) = None /\
  silenceStartTime (svc (fst (listenForCommand w))) = None /\
  (forall (chunk : Buffer) (now : Z),
     firesBoundary chunk now w = true ->
     let timer' := silenceStartTime (svc (fst (handleChunk chunk now w))) in
     (mode (svc w) = wake_word -> isProcessing (svc w) = false -> timer' = None) /\
     (mode (svc w) = command -> hasReceivedAudio (svc w) = false -> timer' = None) /\
     (isProcessing (svc w) = true ->
      mode (svc w) = wake_word \/ hasReceivedAudio (svc w) = true ->
      timer' = silenceStartTime (svc w))).
Proof.
  intros w.
  pose proof (TimerInv_run evs _ (TimerInv_init threshold duration)) as Hinv.
  fold w in Hinv. clearbody w. destruct Hinv as [Hc H0 H5].
  repeat apply conj; try reflexivity.
  - intros chunk now volume Hv Hle.
    destruct (skipsChunk (set_chunkCount (chunkCount (svc w) + 1) (svc w))) eqn:Hs.
    + pose proof (skipsChunk_skippedEntirely chunk now w Hs) as He.
      unfold skippedEntirely in He. rewrite He. simpl.
      apply skipsChunk_iff in Hs. simpl in Hs.
      destruct Hs as [Hs|[Hs1 Hs2]]; [apply H0; lia | apply H5; [exact Hs1|lia]].
    + rewrite (handleChunk_loud _ _ _ _ Hs Hv Hle). reflexivity.
  - intros chunk now volume Hs Hv Hlt Hst.
    rewrite (handleChunk_quiet_start _ _ _ _ Hs Hv Hlt Hst). reflexivity.
  - intros chunk now Hf timer'. subst timer'. repeat apply conj.
    + intros Hm Hp.
      destruct (boundary_wake_dispatch _ _ _ Hf Hm Hp) as (l & -> & _ & Ht & _).
      exact Ht.
    + intros Hm Hh.
      destruct (boundary_command_pure_silence _ _ _ Hf Hm Hh) as (v & _ & -> & _).
      reflexivity.
    + intros Hp Hor.
      assert (Hd : exists v, handleChunk chunk now w =
                     (with_svc (pushed chunk v (svc w)) w, [Boundary (mode (svc w))])).
      { destruct (mode (svc w)) eqn:Hm.
        - destruct (boundary_wake_dropped _ _ _ Hf Hm Hp) as (v & _ & E). eauto.
        - destruct Hor as [?|Hh]; [discriminate|].
          destruct (boundary_command_dropped _ _ _ Hf Hm Hh Hp) as (v & _ & E). eauto. }
      destruct Hd as (v & ->).
      destruct (pushed_fields chunk v (svc w)) as (_ & _ & Ht & _). exact Ht.
Qed.

(** C4 as the specification words it fails at a boundary that is dropped:
    in WakeWord mode the first boundary is dispatched (and clears the
    timer), the next silent chunk restarts the timer at 1700, and the
    boundary that fires at 3200 while that transcription is still in flight
    is dropped with the timer still at 1700. *)
Lemma dropped_boundary_keeps_the_timer :
  let w := final [CallListenForWakeWord; Data [] 0;
                  Data [x01; x00]%byte 100; Data [x01; x00]%byte 1600;
                  Data [x01; x00]%byte 1700] (newWorld 900 (3 # 2)) in
  mode (svc w) = wake_word /\
  snd (step (Data [x01; x00]%byte 3200) w) = [Boundary wake_word] /\
  silenceStartTime (svc (fst (step (Data [x01; x00]%byte 3200) w))) = Some 1700.
Proof. intros w. repeat apply conj; reflexivity. Qed.

(** ** Runs of chunks at a fixed pace (C3) *)

Lemma run_app (a b : list Event) (w : World) :
  run (a ++ b) w =
    (fst (run b (fst (run a w))), snd (run a w) ++ snd (run b (fst (run a w)))).
Proof.
  revert w. induction a as [|ev a IH]; intros w.
  - simpl. destruct (run b w); reflexivity.
  - rewrite <- app_comm_cons, !run_cons, IH. reflexivity.
Qed.

Lemma arrivalTimes_length (t0 k : Z) (cs : list Buffer) :
  length (arrivalTimes t0 k cs) = length cs.
Proof. revert k. induction cs as [|c cs IH]; intros k; simpl; [|rewrite IH]; reflexivity. Qed.

Lemma arrivals_app (t0 k : Z) (a b : list Buffer) :
  arrivals t0 k (a ++ b) = arrivals t0 k a ++ arrivals t0 (k + Z.of_nat (length a)) b.
Proof.
  unfold arrivals, datas. revert k. induction a as [|c a IH]; intros k.
  - simpl. rewrite Z.add_0_r. reflexivity.
  - replace (k + Z.of_nat (length (c :: a))) with (k + 1 + Z.of_nat (length a))
      by (simpl length; lia).
    simpl. rewrite IH. reflexivity.
Qed.

Lemma arrivals_cons (t0 k : Z) (c : Buffer) (cs : list Buffer) :
  arrivals t0 k (c :: cs) = Data c (t0 + 100 * k) :: arrivals t0 (k + 1) cs.
Proof. reflexivity. Qed.

Lemma run_nil (w : World) : run [] w = (w, []).
Proof. reflexivity. Qed.

Section Runs.

Variables (thr : Z) (dur : Q) (proc : bool) (m : ListenerMode)
          (res rej : option PromiseId) (infl : gmap nat Awaiting) (nc np : nat).

Local Abbreviation W buf t cnt hra :=
  (mkWorld (mkListener thr dur buf t proc m res rej cnt hra) infl nc np).

Lemma unskipped_skipsChunk (buf : list Buffer) (t : option Z) (cnt : Z) (hra : bool) :
  unskippedFrom m <= cnt ->
  skipsChunk (set_chunkCount (chunkCount (svc (W buf t cnt hra)) + 1)
                (svc (W buf t cnt hra))) = false.
Proof.
  intros Hc. destruct (skipsChunk _) eqn:Hs; [|reflexivity].
  apply skipsChunk_iff in Hs. simpl in Hs.
  unfold unskippedFrom in Hc.
  destruct Hs as [Hs|[Hm Hs]]; [destruct m; lia|]. rewrite Hm in Hc. lia.
Qed.

Lemma heard_heard (hra : bool) : heard m (heard m hra) = heard m hra.
Proof. unfold heard. destruct m; reflexivity. Qed.

Lemma step_loud (chunk : Buffer) (now : Z) (buf : list Buffer) (t : option Z)
      (cnt : Z) (hra : bool) :
  unskippedFrom m <= cnt -> loud thr chunk ->
  handleChunk chunk now (W buf t cnt hra) =
    (W (buf ++ [chunk]) None (cnt + 1) (heard m hra), []).
Proof.
  intros Hc (v & Hv & Hle).
  rewrite (handleChunk_loud _ _ v); auto using unskipped_skipsChunk.
  unfold pushed, heard. simpl.
  apply Z.leb_le in Hle. rewrite Hle. destruct m; reflexivity.
Qed.

Lemma pushed_quiet (chunk : Buffer) (v : Z) (buf : list Buffer) (t : option Z)
      (cnt : Z) (hra : bool) :
  v < thr ->
  pushed chunk v (mkListener thr dur buf t proc m res rej cnt hra) =
    mkListener thr dur (buf ++ [chunk]) t proc m res rej (cnt + 1) hra.
Proof.
  intros Hlt. unfold pushed. simpl.
  replace (thr <=? v) with false by (symmetry; apply Z.leb_gt; exact Hlt).
  rewrite andb_false_r. reflexivity.
Qed.

Lemma step_quiet_start (chunk : Buffer) (now : Z) (buf : list Buffer)
      (cnt : Z) (hra : bool) :
  unskippedFrom m <= cnt -> quiet thr chunk ->
  handleChunk chunk now (W buf None cnt hra) =
    (W (buf ++ [chunk]) (Some now) (cnt + 1) hra, []).
Proof.
  intros Hc (v & Hv & Hlt).
  rewrite (handleChunk_quiet_start _ _ v); auto using unskipped_skipsChunk.
  simpl svc. rewrite pushed_quiet by exact Hlt. reflexivity.
Qed.

Lemma step_quiet_wait (chunk : Buffer) (now start : Z) (buf : list Buffer)
      (cnt : Z) (hra : bool) :
  unskippedFrom m <= cnt -> quiet thr chunk ->
  Qle_bool (dur * 1000) (inject_Z (now - start)) = false ->
  handleChunk chunk now (W buf (Some start) cnt hra) =
    (W (buf ++ [chunk]) (Some start) (cnt + 1) hra, []).
Proof.
  intros Hc (v & Hv & Hlt) He.
  rewrite (handleChunk_quiet_wait _ _ v start); auto using unskipped_skipsChunk.
  simpl svc. rewrite pushed_quiet by exact Hlt. reflexivity.
Qed.

Lemma run_loud (t0 : Z) (cs : list Buffer) :
  forall (k : Z) (buf : list Buffer) (cnt : Z) (hra : bool),
  unskippedFrom m <= cnt -> Forall (loud thr) cs -> heard m hra = hra ->
  run (arrivals t0 k cs) (W buf None cnt hra) =
    (W (buf ++ cs) None (cnt + Z.of_nat (length cs)) hra,
     List.map (fun _ => []) cs).
Proof.
  induction cs as [|c cs IH]; intros k buf cnt hra Hc Hl Hh.
  - simpl. rewrite app_nil_r, Z.add_0_r. reflexivity.
  - apply Forall_cons in Hl as [Hl1 Hl]. unfold arrivals. simpl arrivalTimes.
    simpl datas. rewrite run_cons. simpl step.
    rewrite step_loud by assumption. simpl fst. simpl snd. rewrite Hh.
    fold (arrivals t0 (k + 1) cs). rewrite IH by (assumption || lia).
    rewrite <- app_assoc. simpl. do 3 f_equal. lia.
Qed.

Lemma run_quiet_wait (t0 start : Z) (cs : list Buffer) :
  forall (k : Z) (buf : list Buffer) (cnt : Z) (hra : bool),
  unskippedFrom m <= cnt -> Forall (quiet thr) cs ->
  (forall i, k <= i < k + Z.of_nat (length cs) ->
     Qle_bool (dur * 1000) (inject_Z (t0 + 100 * i - start)) = false) ->
  run (arrivals t0 k cs) (W buf (Some start) cnt hra) =
    (W (buf ++ cs) (Some start) (cnt + Z.of_nat (length cs)) hra,
     List.map (fun _ => []) cs).
Proof.
  induction cs as [|c cs IH]; intros k buf cnt hra Hc Hq He.
  - simpl. rewrite app_nil_r, Z.add_0_r. reflexivity.
  - apply Forall_cons in Hq as [Hq1 Hq]. unfold arrivals. simpl arrivalTimes.
    simpl datas. rewrite run_cons. simpl step.
    rewrite step_quiet_wait; [|assumption|assumption|apply He; simpl length; lia].
    simpl fst. simpl snd.
    fold (arrivals t0 (k + 1) cs). rewrite IH; [|lia|assumption|].
    + rewrite <- app_assoc. simpl. do 3 f_equal. lia.
    + intros i Hi. apply He. simpl length. lia.
Qed.

End Runs.

(** With [silenceDuration = 1.5] the silence test is [1500 <= elapsed]. *)
Lemma silence_1500 (d : Z) : Qle_bool ((3 # 2) * 1000) (inject_Z d) = (1500 <=? d).
Proof.
  unfold Qle_bool. simpl.
  change (Z.pos (2 * 1)) with 2. change (3 * 1000 * 1) with 3000.
  destruct (Z.leb_spec 3000 (d * 2)), (Z.leb_spec 1500 d); (reflexivity || lia).
Qed.

Lemma split_last {A : Type} (l : list A) (n : nat) :
  length l = S n -> exists l' x, l = l' ++ [x] /\ length l' = n.
Proof.
  revert n. induction l as [|a l IH]; intros n Hl; [discriminate|].
  destruct l as [|b l].
  - exists [], a. simpl in *. split; [reflexivity|lia].
  - destruct n as [|n]; [discriminate|].
    destruct (IH n) as (l' & x & E & Hn); [simpl in *; lia|].
    exists (a :: l'), x. rewrite E. simpl. split; [reflexivity|lia].
Qed.

(** The leading chunks of a session that starts with [chunkCount = 0]:
    one in WakeWord mode, five in Command mode. *)
Lemma run_leading (m : ListenerMode) (t0 : Z) (skip : list Buffer)
      (thr : Z) (dur : Q) (res rej : option PromiseId)
      (infl : gmap nat Awaiting) (nc np : nat) :
  Z.of_nat (length skip) = unskippedFrom m ->
  run (arrivals t0 1 skip)
      (mkWorld (mkListener thr dur [] None false m res rej 0 false) infl nc np) =
    (mkWorld (mkListener thr dur [] None false m res rej (unskippedFrom m) false)
       infl nc np,
     List.map (fun _ => []) skip).
Proof.
  intros Hlen. destruct m; unfold unskippedFrom in *.
  - destruct skip as [|c [|]]; try (simpl in Hlen; lia). reflexivity.
  - unfold arrivals. rewrite run_skipped_command.
    + rewrite arrivalTimes_length. simpl. rewrite Hlen. f_equal.
      clear. generalize 1. induction skip; intros; simpl; f_equal; auto.
    + reflexivity.
    + rewrite arrivalTimes_length. simpl. lia.
Qed.

Lemma step_boundary_dispatch (m : ListenerMode) (chunk : Buffer) (now start : Z)
      (thr : Z) (dur : Q) (buf : list Buffer) (res rej : option PromiseId)
      (cnt : Z) (hra : bool) (infl : gmap nat Awaiting) (nc np : nat) :
  unskippedFrom m <= cnt -> quiet thr chunk -> heard m hra = hra ->
  Qle_bool (dur * 1000) (inject_Z (now - start)) = true ->
  snd (handleChunk chunk now
         (mkWorld (mkListener thr dur buf (Some start) false m res rej cnt hra)
            infl nc np)) =
    [Boundary m; Transcribe nc (Buffer_concat (buf ++ [chunk]))].
Proof.
  intros Hc (v & Hv & Hlt) Hh He.
  set (w := mkWorld _ _ _ _).
  assert (Hf : firesBoundary chunk now w = true).
  { unfold firesBoundary.
    unfold w. rewrite unskipped_skipsChunk by exact Hc.
    rewrite Hv. simpl. apply Z.ltb_lt in Hlt. rewrite Hlt. exact He. }
  destruct m.
  - destruct (boundary_wake_dispatch chunk now w Hf eq_refl eq_refl) as (l & -> & _).
    reflexivity.
  - destruct (boundary_command_dispatch chunk now w Hf eq_refl (eq_sym Hh) eq_refl)
      as (l & -> & _).
    reflexivity.
Qed.

(** One utterance at a fixed pace: the leading chunks that are skipped, at
    least one chunk that reaches the threshold, then chunks below it.  The
    timer starts at the arrival of the first silent chunk [q1]; the chunks
    [mid] arrive before [silenceDuration] has passed since then, and [last]
    is the first that arrives after it has.  Nothing happens before [last];
    on [last] the boundary fires and everything after the skipped chunks is
    sent to the transcription. *)
Lemma run_single_utterance (m : ListenerMode) (t0 : Z)
      (skip : list Buffer) (l1 : Buffer) (louds : list Buffer)
      (q1 : Buffer) (mid : list Buffer) (last : Buffer)
      (thr : Z) (dur : Q) (res rej : option PromiseId)
      (infl : gmap nat Awaiting) (nc np : nat) :
  Z.of_nat (length skip) = unskippedFrom m ->
  Forall (loud thr) (l1 :: louds) -> Forall (quiet thr) (q1 :: mid ++ [last]) ->
  (forall i, 1 <= i <= Z.of_nat (length mid) ->
     Qle_bool (dur * 1000) (inject_Z (100 * i)) = false) ->
  Qle_bool (dur * 1000) (inject_Z (100 * (Z.of_nat (length mid) + 1))) = true ->
  snd (run (arrivals t0 1 (skip ++ (l1 :: louds) ++ (q1 :: mid) ++ [last]))
         (mkWorld (mkListener thr dur [] None false m res rej 0 false) infl nc np)) =
    List.map (fun _ => []) (skip ++ (l1 :: louds) ++ (q1 :: mid)) ++
    [[Boundary m;
      Transcribe nc (Buffer_concat ((l1 :: louds) ++ (q1 :: mid) ++ [last]))]].
Proof.
  intros Hskip Hl Hq Hwait Hfire.
  apply Forall_cons in Hl as [Hl1 Hl].
  apply Forall_cons in Hq as [Hq1 Hq]. apply Forall_app in Hq as [Hq Hlast].
  apply Forall_cons in Hlast as [Hlast _].
  pose proof (heard_heard m false) as Hh.
  assert (Hu : 1 <= unskippedFrom m) by (destruct m; simpl; lia).
  (* the skipped chunks *)
  rewrite arrivals_app, run_app, (run_leading m) by exact Hskip.
  cbn [fst snd]. rewrite Hskip, !List.map_app. rewrite <- !app_assoc. f_equal.
  (* the first chunk that is heard *)
  rewrite <- app_comm_cons, arrivals_cons, run_cons. cbn [step].
  rewrite step_loud by (assumption || lia).
  cbn [fst snd List.map]. rewrite <- app_comm_cons. f_equal.
  (* the other chunks that are heard *)
  rewrite arrivals_app, run_app, run_loud by (assumption || lia).
  cbn [fst snd]. f_equal.
  (* the first silent chunk starts the timer *)
  rewrite <- app_comm_cons, arrivals_cons, run_cons. cbn [step].
  rewrite step_quiet_start by (assumption || lia).
  cbn [fst snd List.map]. rewrite <- app_comm_cons. f_equal.
  (* the silent chunks that arrive in time *)
  set (k0 := 1 + unskippedFrom m + 1 + Z.of_nat (length louds)).
  rewrite arrivals_app, run_app.
  rewrite (run_quiet_wait _ _ _ _ _ _ _ _ _ t0); [|lia|assumption|].
  2:{ intros i Hi.
      replace (t0 + 100 * i - (t0 + 100 * k0)) with (100 * (i - k0)) by lia.
      apply Hwait. lia. }
  cbn [fst snd]. f_equal.
  (* the chunk on which the silence has lasted long enough *)
  rewrite arrivals_cons, run_cons. cbn [step]. unfold arrivals. cbn [arrivalTimes datas List.map].
  rewrite run_nil. cbn [fst snd]. f_equal.
  rewrite (step_boundary_dispatch m); [| lia | assumption | assumption |].
  - rewrite <- !app_assoc. reflexivity.
  - replace (t0 + 100 * (k0 + 1 + Z.of_nat (length mid)) - (t0 + 100 * k0))
      with (100 * (Z.of_nat (length mid) + 1)) by lia.
    exact Hfire.
Qed.

Lemma map_const_replicate {A B : Type} (x : B) (l : list A) :
  List.map (fun _ => x) l = replicate (length l) x.
Proof. induction l as [|a l IH]; simpl; [|rewrite IH]; reflexivity. Qed.

(** C3, as the code has it.  Threshold 900, silence duration 1.5 s, chunk
    [k] arriving at [t0 + 100 k] ms; twenty chunks whose peak reaches the
    threshold, then sixteen whose peak is below it.  The timer starts when
    chunk 21 arrives, so the silence has lasted 1.5 s when chunk 36 arrives:
    chunks 1 to 35 cause nothing, and chunk 36 fires the one boundary.  The
    audio sent to the transcription is chunks 2 to 36 after
    [listenForWakeWord] on a new listener, and chunks 6 to 36 after
    [listenForCommand]. *)
Theorem scenario_A_boundary_at_chunk_36
  (t0 : Z) (louds quiets : list Buffer) :
  length louds = 20%nat -> length quiets = 16%nat ->
  Forall (loud 900) louds -> Forall (quiet 900) quiets ->
  snd (run (arrivals t0 1 (louds ++ quiets))
         (fst (listenForWakeWord (newWorld 900 (3 # 2))))) =
    replicate 35 [] ++
    [[Boundary wake_word;
      Transcribe 0 (Buffer_concat (drop 1 (louds ++ quiets)))]] /\
  snd (run (arrivals t0 1 (louds ++ quiets))
         (fst (listenForCommand (newWorld 900 (3 # 2))))) =
    replicate 35 [] ++
    [[Boundary command;
      Transcribe 0 (Buffer_concat (drop 5 (louds ++ quiets)))]].
Proof.
  intros Hl Hq Fl Fq.
  destruct quiets as [|q1 quiets]; [discriminate|].
  destruct (split_last quiets 14) as (mid & last & -> & Hmid); [simpl in Hq; lia|].
  assert (Hwait : forall i, 1 <= i <= Z.of_nat (length mid) ->
            Qle_bool ((3 # 2) * 1000) (inject_Z (100 * i)) = false)
    by (intros i Hi; rewrite silence_1500; apply Z.leb_gt; lia).
  assert (Hfire : Qle_bool ((3 # 2) * 1000)
                    (inject_Z (100 * (Z.of_nat (length mid) + 1))) = true)
    by (rewrite silence_1500, Hmid; reflexivity).
  split.
  - destruct louds as [|c1 [|l1 louds]]; try discriminate.
    apply Forall_cons in Fl as [_ Fl].
    change (((c1 :: l1 :: louds) ++ q1 :: mid ++ [last]))
      with ([c1] ++ (l1 :: louds) ++ (q1 :: mid) ++ [last]).
    change (fst (listenForWakeWord (newWorld 900 (3 # 2))))
      with (mkWorld (mkListener 900 (3 # 2) [] None false wake_word
                       (Some 0%nat) (Some 0%nat) 0 false) ∅ 0 1).
    rewrite (run_single_utterance wake_word); try assumption; [|reflexivity].
    rewrite map_const_replicate. cbn [drop app]. do 2 f_equal.
    simpl length in *. rewrite !length_app. simpl length. lia.
  - destruct louds as [|c1 [|c2 [|c3 [|c4 [|c5 [|l1 louds]]]]]]; try discriminate.
    do 5 apply Forall_cons in Fl as [_ Fl].
    change (((c1 :: c2 :: c3 :: c4 :: c5 :: l1 :: louds) ++ q1 :: mid ++ [last]))
      with ([c1; c2; c3; c4; c5] ++ (l1 :: louds) ++ (q1 :: mid) ++ [last]).
    change (fst (listenForCommand (newWorld 900 (3 # 2))))
      with (mkWorld (mkListener 900 (3 # 2) [] None false command
                       (Some 0%nat) (Some 0%nat) 0 false) ∅ 0 1).
    rewrite (run_single_utterance command); try assumption; [|reflexivity].
    rewrite map_const_replicate. cbn [drop app]. do 2 f_equal.
    simpl length in *. rewrite !length_app. simpl length. lia.
Qed.

Lemma scenario_A_boundary_at_chunk_36_witness :
  let louds := replicate 20 [x00; x10]%byte in
  let quiets := replicate 16 [x01; x00]%byte in
  snd (run (arrivals 0 1 (louds ++ quiets))
         (fst (listenForWakeWord (newWorld 900 (3 # 2))))) =
    replicate 35 [] ++
    [[Boundary wake_word;
      Transcribe 0 (Buffer_concat (drop 1 (louds ++ quiets)))]].
Proof.
  intros louds quiets.
  refine (proj1 (scenario_A_boundary_at_chunk_36 0 louds quiets eq_refl eq_refl _ _)).
  - repeat constructor; exists 4096; split; (reflexivity || lia).
  - repeat constructor; exists 1; split; (reflexivity || lia).
Defined.

(** C3 as the specification words it fails on the chunk number: with twenty
    chunks of peak 4096 and sixteen of peak 1, arriving from 100 ms on,
    nothing has happened after chunk 35, in either mode; the boundary
    fires on chunk 36. *)
Lemma scenario_A_no_boundary_at_chunk_35 :
  let chunks := replicate 20 [x00; x10]%byte ++ replicate 16 [x01; x00]%byte in
  let wake := fst (listenForWakeWord (newWorld 900 (3 # 2))) in
  let cmd := fst (listenForCommand (newWorld 900 (3 # 2))) in
  trace (arrivals 0 1 (take 35 chunks)) wake = [] /\
  trace (arrivals 0 1 (take 35 chunks)) cmd = [] /\
  existsb isBoundary
    (snd (step (Data [x01; x00]%byte 3600) (final (arrivals 0 1 (take 35 chunks)) wake)))
    = true /\
  existsb isBoundary
    (snd (step (Data [x01; x00]%byte 3600) (final (arrivals 0 1 (take 35 chunks)) cmd)))
    = true.
Proof. repeat apply conj; vm_compute; reflexivity. Qed.

(** ** [isProcessing] in Command mode (C8) *)

Lemma handleChunk_latched (chunk : Buffer) (now : Z) (w : World) :
  mode (svc w) = command -> isProcessing (svc w) = true ->
  let w' := fst (handleChunk chunk now w) in
  isProcessing (svc w') = true /\ inflight w' = inflight w /\
  forallb (fun e => negb (isTranscribe e)) (snd (handleChunk chunk now w)) = true.
Proof.
  intros Hm Hp. handleChunk_cases; simplify_eq; simpl in *;
    rewrite ?Hp in *; simpl in *; auto; congruence.
Qed.

Lemma Latched_step (ev : Event) (w : World) :
  withinSession ev = true -> Latched w ->
  Latched (fst (step ev w)) /\
  forallb (fun e => negb (isTranscribe e)) (snd (step ev w)) = true.
Proof.
  intros Hev [Hm Hp Hfl]. destruct ev as [chunk now|error|call r| |]; try discriminate.
  - simpl step.
    destruct (handleChunk_frame chunk now w) as (_ & _ & _ & Hm' & _).
    destruct (handleChunk_latched chunk now w Hm Hp) as (Hp' & Hi & Ht).
    split; [split|]; try congruence. rewrite Hi. exact Hfl.
  - simpl. unfold onStreamError.
    destruct (currentRejector (svc w)); simpl; split; try reflexivity; split; assumption.
  - simpl. destruct (inflight w !! call) as [k|] eqn:Hc.
    + rewrite (Hfl call k Hc).
      destruct (processCommand_resume_fields r (svc w)) as (Hm' & _ & _ & _ & _ & Hp' & _).
      unfold processCommand_resume in *.
      destruct r as [e|t];
        [destruct (currentRejector (svc w)) | destruct (currentResolver (svc w))];
        simpl in *; (split; [split|reflexivity]); simpl; try congruence;
        apply map_Forall_delete; exact Hfl.
    + split; [split; assumption | reflexivity].
Qed.

Lemma Latched_run (evs : list Event) (w : World) :
  forallb withinSession evs = true -> Latched w ->
  Latched (final evs w) /\
  forallb (fun e => negb (isTranscribe e)) (trace evs w) = true.
Proof.
  revert w. induction evs as [|ev evs IH]; intros w Hevs Hl.
  - split; [exact Hl | reflexivity].
  - simpl in Hevs. apply andb_true_iff in Hevs as [Hev Hevs].
    destruct (Latched_step ev w Hev Hl) as [Hl' Ht].
    destruct (IH _ Hevs Hl') as [Hl'' Ht'].
    rewrite final_cons, trace_cons, forallb_app, Ht, Ht'. split; [exact Hl''|reflexivity].
Qed.

(** C8, as the code has it.  A boundary that [processCommand] dispatches
    sets [isProcessing] before the transcription is called, and the rest of
    [processCommand], on success or on error, leaves the flag as it is.
    So, once a command boundary has been dispatched, and provided no
    transcription dispatched by [processWakeWord] is still in flight, no
    later boundary of that session reaches the transcription, whatever
    chunks, stream errors and transcription results arrive, until
    [listenForWakeWord] or [listenForCommand] is called. *)
Theorem command_dispatch_latches_isProcessing :
  (forall (w : World) (chunk : Buffer) (now : Z),
     firesBoundary chunk now w = true ->
     mode (svc w) = command -> hasReceivedAudio (svc w) = true ->
     isProcessing (svc w) = false ->
     let w' := fst (handleChunk chunk now w) in
     existsb isTranscribe (snd (handleChunk chunk now w)) = true /\
     isProcessing (svc w') = true /\
     inflight w' !! nextCall w = Some AwaitCommand) /\
  (forall (r : Error + string) (l : Listener),
     isProcessing (fst (processCommand_resume r l)) = isProcessing l) /\
  (forall (w : World) (evs : list Event),
     mode (svc w) = command -> isProcessing (svc w) = true ->
     map_Forall (fun _ k => k = AwaitCommand) (inflight w) ->
     forallb withinSession evs = true ->
     forallb (fun e => negb (isTranscribe e)) (trace evs w) = true /\
     isProcessing (svc (final evs w)) = true /\
     mode (svc (final evs w)) = command).
Proof.
  repeat apply conj.
  - intros w chunk now Hf Hm Hh Hp w'. subst w'.
    destruct (boundary_command_dispatch _ _ _ Hf Hm Hh Hp) as (l & -> & _ & _ & Hp' & _).
    simpl. repeat split; [exact Hp' | apply lookup_insert_eq].
  - intros r l. apply (processCommand_resume_fields r l).
  - intros w evs Hm Hp Hfl Hevs.
    destruct (Latched_run evs w Hevs (Build_Latched w Hm Hp Hfl)) as [[Hm' Hp' _] Ht].
    auto.
Qed.

Lemma command_dispatch_latches_isProcessing_witness :
  let w := final [CallListenForCommand;
                  Data [] 0; Data [] 100; Data [] 200; Data [] 300; Data [] 400;
                  Data [x00; x10]%byte 500; Data [x01; x00]%byte 600;
                  Data [x01; x00]%byte 2100] (newWorld 900 (3 # 2)) in
  let evs := [Data [x01; x00]%byte 2200; Settled 0%nat (inr "lights on"%string);
              Data [x00; x10]%byte 2300; Data [x01; x00]%byte 2400;
              Data [x01; x00]%byte 3900; StreamError "closed"%string] in
  forallb (fun e => negb (isTranscribe e)) (trace evs w) = true /\
  isProcessing (svc (final evs w)) = true /\
  mode (svc (final evs w)) = command.
Proof.
  intros w evs.
  refine (proj2 (proj2 command_dispatch_latches_isProcessing) w evs
            eq_refl eq_refl _ eq_refl).
  intros i k Hik.
  assert (Hw : inflight w = {[ 0%nat := AwaitCommand ]}) by reflexivity.
  rewrite Hw in Hik. apply lookup_singleton_Some in Hik as [_ <-]. reflexivity.
Defined.

(** C8 as it is worded fails when a wake-word transcription is still in
    flight: the last statement of [processWakeWord] clears the flag too.
    Here the wake-word boundary at 1600 dispatches call 0;
    [listenForCommand] is called; the command boundary at 3800 dispatches
    call 1; call 0 then returns; and the boundary at 3900, in the same
    Command session, dispatches call 2. *)
Lemma stale_wake_word_result_unlatches :
  let cmd := [Data [] 1700; Data [] 1800; Data [] 1900; Data [] 2000; Data [] 2100;
              Data [x00; x10]%byte 2200; Data [x01; x00]%byte 2300;
              Data [x01; x00]%byte 3800;
              Settled 0%nat (inr EmptyString);
              Data [x01; x00]%byte 3900] in
  forallb withinSession cmd = true /\
  trace ([CallListenForWakeWord; Data [] 0; Data [x01; x00]%byte 100;
          Data [x01; x00]%byte 1600; CallListenForCommand] ++ cmd)
        (newWorld 900 (3 # 2))
  = [Boundary wake_word; Transcribe 0 [x01; x00; x01; x00]%byte;
     Boundary command; Transcribe 1 [x00; x10; x01; x00; x01; x00]%byte;
     Boundary command; Transcribe 2 [x01; x00]%byte].
Proof. split; reflexivity. Qed.

(** * Properties of [recognizeStream] *)

Module WhisperFacts.
Import Whisper.

Lemma totalBytes_nonneg (chunks : list Buffer) : 0 <= totalBytes chunks.
Proof. induction chunks as [|c cs IH]; simpl; lia. Qed.

(** A stream that carries no byte is made of empty chunks, which the
    ['data'] handler goes through without reading a sample. *)
Lemma deliver_no_bytes (chunks : list Buffer) (bytes amplitude : Z) :
  totalBytes chunks = 0 ->
  deliver chunks bytes amplitude =
    (List.map WriteWav chunks, Some (bytes, amplitude)).
Proof.
  revert bytes. induction chunks as [|c cs IH]; intros bytes H0; [reflexivity|].
  simpl in H0. pose proof (totalBytes_nonneg cs) as Hn.
  destruct c as [|b c]; [|simpl length in H0; lia].
  simpl. rewrite IH by lia. rewrite Z.add_0_r. reflexivity.
Qed.

Lemma forallb_map_WriteWav (p : Effect -> bool) (chunks : list Buffer) :
  (forall c, p (WriteWav c) = true) -> forallb p (List.map WriteWav chunks) = true.
Proof. intros H. induction chunks as [|c cs IH]; simpl; [|rewrite H, IH]; reflexivity. Qed.

(** C9, as the code has it.  When the writer finishes and the stream has
    delivered no byte, [recognizeStream] resolves with the empty string
    and neither runs the transcription subprocess nor removes anything;
    the WAV writer on the temporary file has been opened by then, as it
    is before any data arrives. *)
Theorem recognizeStream_no_audio
  (modelPath : string) (devShm : bool) (now : Z) (chunks : list Buffer)
  (exec : Error + string) (tempExists : bool) :
  totalBytes chunks = 0 ->
  let effs := recognizeStream modelPath devShm now chunks Finish exec tempExists in
  effs = NewFileWriter (tempFileName devShm now) :: List.map WriteWav chunks ++
         [LogNoAudio; Resolve EmptyString] /\
  forallb (fun e => negb (isExecFile e)) effs = true /\
  forallb (fun e => negb (isUnlinkSync e)) effs = true /\
  existsb createsFile effs = true.
Proof.
  intros H0 effs. subst effs. unfold recognizeStream.
  rewrite (deliver_no_bytes _ _ _ H0). simpl.
  repeat split; rewrite ?forallb_app; simpl; rewrite ?andb_true_r;
    apply forallb_map_WriteWav; reflexivity.
Qed.

Lemma recognizeStream_no_audio_witness :
  recognizeStream "./models/ggml-base.en.bin" false 1700000000000 [[]; []] Finish
    (inr EmptyString) true
  = [NewFileWriter "/tmp/audio-1700000000000.wav"; WriteWav []; WriteWav [];
     LogNoAudio; Resolve EmptyString].
Proof.
  exact (proj1 (recognizeStream_no_audio "./models/ggml-base.en.bin" false
                  1700000000000 [[]; []] (inr EmptyString) true eq_refl)).
Defined.

(** C9 as it is worded fails on the temporary file: on a stream that
    ends without a chunk, the WAV writer has been created on the
    temporary file all the same. *)
Lemma temp_file_is_opened_without_audio :
  totalBytes [] = 0 /\
  recognizeStream "./models/ggml-base.en.bin" false 1700000000000 [] Finish
    (inr EmptyString) true
  = [NewFileWriter "/tmp/audio-1700000000000.wav"; LogNoAudio; Resolve EmptyString] /\
  existsb createsFile
    (recognizeStream "./models/ggml-base.en.bin" false 1700000000000 [] Finish
       (inr EmptyString) true) = true.
Proof. repeat split. Qed.

End WhisperFacts.

(** * Properties of [sendMessage] *)

Module ChatGPTFacts.
Import ChatGPT.

(** C10. [sendMessage] puts the user message at the end of the history
    and calls the API with that history.  If the call fails the promise
    is rejected with the error and the history keeps the user message as
    its last entry; if it succeeds the promise resolves with the
    assistant's text and the history ends with the user message followed
    by the assistant message. *)
Theorem sendMessage_history
  (userMessage : string) (create : Request -> Error + Completion) (s : Service) :
  let request :=
    mkRequest (model s) (conversationHistory s ++ [mkMessage user userMessage])
      (7 # 10) 500 in
  let s' := fst (sendMessage userMessage create s) in
  match create request with
  | inl error =>
      snd (sendMessage userMessage create s) = inl error /\
      conversationHistory s' =
        conversationHistory s ++ [mkMessage user userMessage]
  | inr completion =>
      snd (sendMessage userMessage create s) = inr (assistantMessageOf completion) /\
      conversationHistory s' =
        conversationHistory s ++
        [mkMessage user userMessage;
         mkMessage assistant (assistantMessageOf completion)]
  end.
Proof.
  intros request s'. subst request s'. unfold sendMessage. simpl.
  destruct (create _) as [error|completion]; simpl; [auto|].
  rewrite <- app_assoc. auto.
Qed.

End ChatGPTFacts.

(** * Further properties of the listener *)

(** ** The peak of a chunk *)

Lemma pair_induction {A : Type} (P : list A -> Prop) :
  P [] -> (forall a, P [a]) -> (forall a b l, P l -> P (a :: b :: l)) ->
  forall l, P l.
Proof.
  intros H0 H1 H2.
  assert (H : forall l, P l /\ forall a, P (a :: l)).
  { induction l as [|b l [IH1 IH2]]; split; auto. }
  intros l. apply H.
Qed.

Lemma int16LE_range (lo hi : byte) : -32768 <= int16LE lo hi <= 32767.
Proof.
  unfold int16LE.
  pose proof (Byte.to_N_bounded lo). pose proof (Byte.to_N_bounded hi).
  destruct (Z.ltb_spec (Z.of_N (Byte.to_N lo) + 256 * Z.of_N (Byte.to_N hi)) 32768); lia.
Qed.

Lemma maxVolumeFrom_odd (chunk : Buffer) :
  forall acc, maxVolumeFrom acc chunk = None <-> Nat.odd (length chunk) = true.
Proof.
  induction chunk as [|a|a b l IH] using pair_induction; intros acc.
  - split; discriminate.
  - split; reflexivity.
  - simpl maxVolumeFrom. rewrite IH. reflexivity.
Qed.

Lemma maxVolumeFrom_peak (chunk : Buffer) :
  forall acc v, maxVolumeFrom acc chunk = Some v ->
  acc <= v /\ (0 <= acc <= 32768 -> v <= 32768) /\
  Forall (fun s => Z.abs s <= v) (samplesOf chunk) /\
  (v = acc \/ Exists (fun s => Z.abs s = v) (samplesOf chunk)).
Proof.
  induction chunk as [|a|a b l IH] using pair_induction; intros acc v H.
  - injection H as <-. repeat split; auto; lia.
  - discriminate.
  - simpl in H. pose proof (int16LE_range a b) as Hr.
    destruct (IH _ _ H) as (Hle & Hub & Hall & Hex). simpl samplesOf.
    destruct (Z.gtb_spec (Z.abs (int16LE a b)) acc) as [Hgt|Hgt].
    + repeat split.
      * lia.
      * intros _. apply Hub. lia.
      * constructor; [lia | exact Hall].
      * right. destruct Hex as [->|Hex]; [left; reflexivity | right; exact Hex].
    + repeat split.
      * lia.
      * exact Hub.
      * constructor; [lia | exact Hall].
      * destruct Hex as [->|Hex]; [left; reflexivity | right; right; exact Hex].
Qed.

(** X1. [chunkMaxVolume] is defined exactly on the chunks with an even
    number of bytes, and then it is the largest absolute value among the
    16-bit samples of the chunk: between 0 and 32768, at least every
    [|sample|], and attained by a sample unless it is 0. *)
Theorem chunkMaxVolume_is_the_peak (chunk : Buffer) :
  (chunkMaxVolume chunk = None <-> Nat.odd (length chunk) = true) /\
  (forall v, chunkMaxVolume chunk = Some v ->
     0 <= v <= 32768 /\
     Forall (fun s => Z.abs s <= v) (samplesOf chunk) /\
     (v = 0 \/ Exists (fun s => Z.abs s = v) (samplesOf chunk))).
Proof.
  split; [apply maxVolumeFrom_odd|].
  intros v H. destruct (maxVolumeFrom_peak _ _ _ H) as (Hle & Hub & Hall & Hex).
  repeat split; auto; lia.
Qed.

Lemma chunkMaxVolume_is_the_peak_witness :
  0 <= 32768 <= 32768 /\
  Forall (fun s => Z.abs s <= 32768) (samplesOf [x01; x00; x00; x80]%byte) /\
  (32768 = 0 \/ Exists (fun s => Z.abs s = 32768) (samplesOf [x01; x00; x00; x80]%byte)).
Proof.
  apply (proj2 (chunkMaxVolume_is_the_peak [x01; x00; x00; x80]%byte) 32768).
  reflexivity.
Defined.

(** X2. A chunk with an odd number of bytes that is past the skipped
    leading chunks makes [handleChunk] throw in its sample loop: the chunk
    is counted, and nothing else changes (it is not buffered, the silence
    timer and [hasReceivedAudio] are as before, nothing is dispatched). *)
Theorem odd_chunk_is_counted_and_dropped (chunk : Buffer) (now : Z) (w : World) :
  Nat.odd (length chunk) = true ->
  skipsChunk (set_chunkCount (chunkCount (svc w) + 1) (svc w)) = false ->
  handleChunk chunk now w =
    (with_svc (set_chunkCount (chunkCount (svc w) + 1) (svc w)) w, [Uncaught]).
Proof.
  intros Hodd Hs. apply maxVolumeFrom_odd with (acc := 0) in Hodd.
  unfold skipsChunk in Hs. apply orb_false_iff in Hs as [H1 H2].
  unfold handleChunk, chunkMaxVolume. rewrite H1, H2, Hodd. reflexivity.
Qed.

Lemma odd_chunk_is_counted_and_dropped_witness :
  let w := final [CallListenForWakeWord; Data [] 0; Data [x01; x00]%byte 100]
                 (newWorld 900 (3 # 2)) in
  handleChunk [x01; x00; x7f]%byte 200 w =
    (with_svc (set_chunkCount 3 (svc w)) w, [Uncaught]).
Proof.
  intros w.
  exact (odd_chunk_is_counted_and_dropped [x01; x00; x7f]%byte 200 w eq_refl eq_refl).
Defined.

(** ** Chunks that never end an utterance *)

Lemma step_volumeThreshold (ev : Event) (w : World) :
  volumeThreshold (svc (fst (step ev w))) = volumeThreshold (svc w).
Proof.
  destruct ev as [chunk now|error|call r| |]; try reflexivity.
  - apply (handleChunk_frame chunk now w).
  - simpl. unfold onStreamError. destruct (currentRejector (svc w)); reflexivity.
  - simpl. destruct (inflight w !! call) as [[]|]; [| |reflexivity].
    + destruct (processWakeWord_resume_fields r (svc w)) as (_&_&_&_&_&_&H&_).
      destruct (processWakeWord_resume r (svc w)); exact H.
    + destruct (processCommand_resume_fields r (svc w)) as (_&_&_&_&_&_&H&_).
      destruct (processCommand_resume r (svc w)); exact H.
Qed.

Lemma handleChunk_not_below (chunk : Buffer) (now : Z) (w : World) :
  (forall v, chunkMaxVolume chunk = Some v -> volumeThreshold (svc w) <= v) ->
  forallb isQuietEffect (snd (handleChunk chunk now w)) = true /\
  inflight (fst (handleChunk chunk now w)) = inflight w.
Proof.
  intros Hv.
  destruct (skipsChunk (set_chunkCount (chunkCount (svc w) + 1) (svc w))) eqn:Hs.
  - rewrite (skipsChunk_skippedEntirely chunk now w Hs). split; reflexivity.
  - destruct (chunkMaxVolume chunk) as [v|] eqn:Hc.
    + rewrite (handleChunk_loud _ _ v w Hs Hc (Hv v eq_refl)). split; reflexivity.
    + unfold skipsChunk in Hs. apply orb_false_iff in Hs as [H1 H2].
      unfold handleChunk. rewrite H1, H2, Hc. split; reflexivity.
Qed.

(** X3. While every chunk that arrives has its peak at or above the
    threshold, nothing happens at all: no boundary fires and the
    transcription is not called, whatever the state of the listener. *)
Theorem loud_chunks_never_fire (cts : list (Buffer * Z)) (w : World) :
  Forall (fun ct => loud (volumeThreshold (svc w)) (fst ct)) cts ->
  trace (datas cts) w = [].
Proof.
  revert w. induction cts as [|[chunk now] cts IH]; intros w Hl; [reflexivity|].
  apply Forall_cons in Hl as [(v & Hv & Hle) Hl].
  simpl datas. rewrite trace_cons. simpl step.
  assert (He : snd (handleChunk chunk now w) = []).
  { destruct (skipsChunk (set_chunkCount (chunkCount (svc w) + 1) (svc w))) eqn:Hs.
    - rewrite (skipsChunk_skippedEntirely chunk now w Hs). reflexivity.
    - rewrite (handleChunk_loud _ _ v w Hs Hv Hle). reflexivity. }
  rewrite He. simpl. apply IH.
  destruct (handleChunk_frame chunk now w) as (_ & _ & _ & _ & -> & _). exact Hl.
Qed.

Lemma loud_chunks_never_fire_witness :
  trace (datas [([x00; x10]%byte, 0); ([x00; x10]%byte, 5000); ([x00; x80]%byte, 90000)])
        (fst (listenForWakeWord (newWorld 900 (3 # 2)))) = [].
Proof.
  apply loud_chunks_never_fire.
  repeat constructor; [exists 4096 | exists 4096 | exists 32768];
    split; (reflexivity || simpl; lia).
Defined.

Lemma forallb_imp {A : Type} (f g : A -> bool) (l : list A) :
  (forall a, f a = true -> g a = true) -> forallb f l = true -> forallb g l = true.
Proof.
  intros H. induction l as [|a l IH]; simpl; [reflexivity|].
  intros Hf. apply andb_true_iff in Hf as [Ha Hl]. rewrite (H a Ha), (IH Hl). reflexivity.
Qed.

Lemma forallb_both {A : Type} (f g : A -> bool) (l : list A) :
  forallb f l = true -> forallb g l = true ->
  forallb (fun a => f a && g a) l = true.
Proof.
  induction l as [|a l IH]; simpl; [reflexivity|].
  intros Hf Hg. apply andb_true_iff in Hf as [-> Hf]. apply andb_true_iff in Hg as [-> Hg].
  rewrite (IH Hf Hg). reflexivity.
Qed.

Lemma chunkMaxVolume_nonneg (chunk : Buffer) (v : Z) :
  chunkMaxVolume chunk = Some v -> 0 <= v.
Proof. intros H. apply (maxVolumeFrom_peak _ _ _ H). Qed.

Lemma Unarmed_step (ev : Event) (w : World) :
  Unarmed w ->
  Unarmed (fst (step ev w)) /\
  forallb (fun e => isQuietEffect e && negb (isResolve e)) (snd (step ev w)) = true.
Proof.
  intros [Ht Hi].
  assert (Ht' : volumeThreshold (svc (fst (step ev w))) <= 0)
    by (rewrite step_volumeThreshold; exact Ht).
  assert (Hrest : inflight (fst (step ev w)) = ∅ /\
            forallb (fun e => isQuietEffect e && negb (isResolve e))
              (snd (step ev w)) = true);
    [|destruct Hrest; split; [split|]; assumption].
  clear Ht'. destruct ev as [chunk now|error|call r| |].
  - simpl step.
    destruct (handleChunk_not_below chunk now w) as [Hq Hi'].
    { intros v Hv. pose proof (chunkMaxVolume_nonneg chunk v Hv). lia. }
    split; [congruence|].
    apply forallb_both; [exact Hq|].
    destruct (handleChunk_frame chunk now w) as (_&_&_&_&_&_&_&Hs).
    revert Hs. apply forallb_imp. intros [] H; simpl in *; congruence.
  - simpl. unfold onStreamError.
    destruct (currentRejector (svc w)); simpl; split; (assumption || reflexivity).
  - simpl. rewrite Hi, lookup_empty. split; (assumption || reflexivity).
  - simpl. split; (assumption || reflexivity).
  - simpl. split; (assumption || reflexivity).
Qed.

(** X4. A listener built with a volume threshold of 0 or less never ends
    an utterance: whatever chunks, stream errors and listen calls follow,
    no boundary fires, the transcription is never called and no listen
    request is ever resolved. *)
Theorem threshold_zero_disables_endpointing
  (threshold : Z) (duration : Q) (evs : list Event) :
  threshold <= 0 ->
  forallb (fun e => isQuietEffect e && negb (isResolve e))
    (trace evs (newWorld threshold duration)) = true.
Proof.
  intros Ht.
  assert (H0 : Unarmed (newWorld threshold duration)) by (split; [exact Ht | reflexivity]).
  revert H0. generalize (newWorld threshold duration).
  induction evs as [|ev evs IH]; intros w Hw; [reflexivity|].
  destruct (Unarmed_step ev w Hw) as [Hw' He].
  rewrite trace_cons, forallb_app, He. apply IH, Hw'.
Qed.

Lemma threshold_zero_disables_endpointing_witness :
  forallb (fun e => isQuietEffect e && negb (isResolve e))
    (trace [CallListenForCommand; Data [] 0; Data [] 0; Data [] 0; Data [] 0; Data [] 0;
            Data [x00; x00]%byte 0; Data [x00; x00]%byte 60000; Settled 0%nat (inr "hi"%string)]
       (newWorld 0 (3 # 2))) = true.
Proof.
  apply (threshold_zero_disables_endpointing 0 (3 # 2)). lia.
Defined.

(** ** Silence that is interrupted *)





(** ** The audio that reaches the transcription *)

Lemma audioOf_app (a b : list Effect) : audioOf (a ++ b) = audioOf a ++ audioOf b.
Proof.
  induction a as [|e a IH]; simpl; [reflexivity|].
  destruct e; simpl; rewrite ?IH, ?app_assoc; reflexivity.
Qed.

Lemma Buffer_concat_push (buf : list Buffer) (chunk : Buffer) :
  Buffer_concat (buf ++ [chunk]) = Buffer_concat buf ++ chunk.
Proof. unfold Buffer_concat. rewrite concat_app. simpl. rewrite app_nil_r. reflexivity. Qed.

(** A processed chunk on which no boundary fires is pushed on the buffer,
    and that is all. *)
Lemma handleChunk_pushes (chunk : Buffer) (now v : Z) (w : World) :
  skipsChunk (set_chunkCount (chunkCount (svc w) + 1) (svc w)) = false ->
  chunkMaxVolume chunk = Some v ->
  firesBoundary chunk now w = false ->
  snd (handleChunk chunk now w) = [] /\
  chunkBuffer (svc (fst (handleChunk chunk now w))) = chunkBuffer (svc w) ++ [chunk] /\
  inflight (fst (handleChunk chunk now w)) = inflight w.
Proof.
  intros Hs Hv Hf.
  destruct (pushed_fields chunk v (svc w)) as (_ & _ & _ & _ & _ & Hb & _).
  unfold firesBoundary in Hf. rewrite Hs, Hv in Hf. simpl in Hf.
  destruct (Z.ltb_spec v (volumeThreshold (svc w))) as [Hlt|Hge].
  - destruct (silenceStartTime (svc w)) as [start|] eqn:Hst.
    + simpl in Hf. unfold silenceElapsed in Hf. simpl in Hf.
      rewrite (handleChunk_quiet_wait _ _ v start); auto.
    + rewrite (handleChunk_quiet_start _ _ v); auto.
  - rewrite (handleChunk_loud _ _ v); auto.
Qed.

Lemma audio_conserved_step (ev : Event) (w : World) :
  mode (svc w) = wake_word -> withinSession ev = true ->
  mode (svc (fst (step ev w))) = wake_word /\
  audioOf (snd (step ev w)) ++ Buffer_concat (chunkBuffer (svc (fst (step ev w)))) =
    Buffer_concat (chunkBuffer (svc w)) ++ Buffer_concat (pushedBy ev w).
Proof.
  intros Hm Hev. destruct ev as [chunk now|error|call r| |]; try discriminate.
  - simpl step. simpl pushedBy.
    destruct (handleChunk_frame chunk now w) as (_ & _ & _ & Hm' & _).
    split; [congruence|].
    destruct (skipsChunk (set_chunkCount (chunkCount (svc w) + 1) (svc w))) eqn:Hs.
    { rewrite (skipsChunk_skippedEntirely chunk now w Hs). simpl.
      rewrite app_nil_r. reflexivity. }
    destruct (chunkMaxVolume chunk) as [v|] eqn:Hv.
    2:{ unfold skipsChunk in Hs. apply orb_false_iff in Hs as [H1 H2].
        unfold handleChunk. rewrite H1, H2, Hv. simpl. rewrite app_nil_r. reflexivity. }
    unfold Buffer_concat at 3. simpl List.concat. rewrite app_nil_r.
    destruct (firesBoundary chunk now w) eqn:Hf.
    + destruct (isProcessing (svc w)) eqn:Hp.
      * destruct (boundary_wake_dropped _ _ _ Hf Hm Hp) as (v' & Hv' & ->).
        destruct (pushed_fields chunk v' (svc w)) as (_ & _ & _ & _ & _ & Hb & _).
        set (l1 := pushed chunk v' (svc w)) in *. clearbody l1.
        simpl. rewrite Hb. apply Buffer_concat_push.
      * destruct (boundary_wake_dispatch _ _ _ Hf Hm Hp) as (l & -> & Hb & _).
        simpl. rewrite Hb. simpl. rewrite !app_nil_r. apply Buffer_concat_push.
    + destruct (handleChunk_pushes _ _ _ _ Hs Hv Hf) as (-> & -> & _).
      simpl. apply Buffer_concat_push.
  - simpl. unfold onStreamError.
    destruct (currentRejector (svc w)); simpl; rewrite app_nil_r; auto.
  - simpl. destruct (inflight w !! call) as [[]|]; simpl.
    + destruct (processWakeWord_resume_fields r (svc w)) as (Hm' & Hb & _).
      destruct (processWakeWord_resume r (svc w)) as [l effs] eqn:E. simpl in *.
      rewrite Hb, app_nil_r. split; [congruence|].
      assert (Ha : audioOf effs = []); [|rewrite Ha; reflexivity].
      unfold processWakeWord_resume in E.
      destruct r as [e|t]; [injection E as <- <-; reflexivity|].
      destruct (_ && _); [|injection E as <- <-; reflexivity].
      destruct (wakePhraseIn _); [|injection E as <- <-; reflexivity].
      destruct (currentResolver (svc w)); injection E as <- <-; reflexivity.
    + destruct (processCommand_resume_fields r (svc w)) as (Hm' & Hb & _).
      destruct (processCommand_resume r (svc w)) as [l effs] eqn:E. simpl in *.
      rewrite Hb, app_nil_r. split; [congruence|].
      assert (Ha : audioOf effs = []); [|rewrite Ha; reflexivity].
      unfold processCommand_resume in E.
      destruct r as [e|t];
        [destruct (currentRejector (svc w)) | destruct (currentResolver (svc w))];
        injection E as <- <-; reflexivity.
    + rewrite app_nil_r. auto.
Qed.

(** X6. In WakeWord mode no audio is lost and none is sent twice.  Over any
    callbacks of one listen session (chunks, transcription results and
    stream errors, in any order), the audio sent to the transcription so
    far followed by what is still in [chunkBuffer] is exactly what was in
    the buffer at the start followed by the chunks pushed since, in their
    order of arrival. *)
Theorem wake_word_audio_is_conserved (evs : list Event) (w : World) :
  mode (svc w) = wake_word -> forallb withinSession evs = true ->
  audioOf (trace evs w) ++ Buffer_concat (chunkBuffer (svc (final evs w))) =
    Buffer_concat (chunkBuffer (svc w)) ++ Buffer_concat (pushedChunks evs w).
Proof.
  revert w. induction evs as [|ev evs IH]; intros w Hm Hevs.
  - unfold trace, final. simpl. rewrite app_nil_r. reflexivity.
  - simpl in Hevs. apply andb_true_iff in Hevs as [Hev Hevs].
    destruct (audio_conserved_step ev w Hm Hev) as [Hm' Hstep].
    rewrite trace_cons, final_cons, audioOf_app. simpl pushedChunks.
    rewrite <- app_assoc, (IH _ Hm' Hevs), app_assoc, Hstep.
    unfold Buffer_concat. rewrite concat_app, app_assoc. reflexivity.
Qed.

Lemma wake_word_audio_is_conserved_witness :
  let evs := [Data [] 0; Data [x01; x00]%byte 100; Data [x02; x00]%byte 1600;
              Data [x03; x00]%byte 1700; Settled 0%nat (inr "music"%string);
              Data [x04; x00; x05]%byte 1800; Data [x06; x00]%byte 3200] in
  let w := fst (listenForWakeWord (newWorld 900 (3 # 2))) in
  audioOf (trace evs w) ++ Buffer_concat (chunkBuffer (svc (final evs w))) =
    [x01; x00; x02; x00; x03; x00; x06; x00]%byte.
Proof.
  intros evs w.
  exact (wake_word_audio_is_conserved evs w eq_refl eq_refl).
Defined.

(** ** Requests that are over *)

Lemma SlotInv_reachable (threshold : Z) (duration : Q) (evs : list Event) :
  SlotInv (final evs (newWorld threshold duration))
          (trace evs (newWorld threshold duration)).
Proof. apply (SlotInv_run evs _ [] (SlotInv_init threshold duration)). Qed.

Lemma Stale_step (p : PromiseId) (ev : Event) (w : World) :
  Stale p w -> Stale p (fst (step ev w)) /\ fulfilments p (snd (step ev w)) = 0%nat.
Proof.
  intros [Hc Hr Hj].
  destruct (step_SlotStep ev w) as [Hr' Hj' Hn Hq | q Hq Hr' Hj' Hn Hf | Hr' Hj' Hn He].
  - split; [split; congruence|]. apply fulfilments_none, Hq.
  - split; [split; congruence|]. rewrite Hf.
    destruct (Nat.eqb_spec p q) as [->|Hne]; [|reflexivity].
    destruct Hq; congruence.
  - rewrite He. split; [|reflexivity].
    split; rewrite ?Hr', ?Hj', ?Hn; try lia; intros [= E]; lia.
Qed.

Lemma Stale_run (p : PromiseId) (evs : list Event) (w : World) :
  Stale p w -> fulfilments p (trace evs w) = 0%nat.
Proof.
  revert w. induction evs as [|ev evs IH]; intros w Hs; [reflexivity|].
  destruct (Stale_step p ev w Hs) as [Hs' H0].
  rewrite trace_cons, fulfilments_app, H0. apply IH, Hs'.
Qed.

(** X7. A listen request that is superseded is abandoned.  If
    [listenForWakeWord] or [listenForCommand] is called while the promise
    of an earlier call is still pending, that earlier promise is never
    settled, whatever happens afterwards. *)
Theorem superseded_request_is_never_settled
  (threshold : Z) (duration : Q) (evs0 : list Event)
  (p : PromiseId) (ev : Event) (evs : list Event) :
  let w := final evs0 (newWorld threshold duration) in
  currentResolver (svc w) = Some p ->
  withinSession ev = false ->
  fulfilments p (trace (ev :: evs) w) = 0%nat.
Proof.
  intros w Hp Hev.
  destruct (SlotInv_reachable threshold duration evs0) as [_ Hpend _ _].
  destruct (Hpend p Hp) as [Hlt _]. fold w in Hlt.
  rewrite trace_cons, fulfilments_app.
  assert (Hs : Stale p (fst (step ev w)) /\ snd (step ev w) = []).
  { destruct ev; try discriminate; simpl; (split; [split; simpl; try lia|reflexivity]);
      intros [= E]; lia. }
  destruct Hs as [Hs ->]. simpl. apply Stale_run, Hs.
Qed.

Lemma superseded_request_is_never_settled_witness :
  fulfilments 0%nat
    (trace [CallListenForWakeWord; Data [] 0; Data [x00; x10]%byte 100;
            Data [x01; x00]%byte 200; Data [x01; x00]%byte 1700;
            Settled 0%nat (inr "isis"%string); StreamError "gone"%string]
       (final [CallListenForWakeWord] (newWorld 900 (3 # 2)))) = 0%nat.
Proof.
  exact (superseded_request_is_never_settled 900 (3 # 2) [CallListenForWakeWord]
           0%nat CallListenForWakeWord _ eq_refl eq_refl).
Defined.

Lemma empty_slot_step (ev : Event) (w : World) :
  withinSession ev = true ->
  currentResolver (svc w) = None -> currentRejector (svc w) = None ->
  currentResolver (svc (fst (step ev w))) = None /\
  currentRejector (svc (fst (step ev w))) = None /\
  forallb (fun e => negb (settles e)) (snd (step ev w)) = true.
Proof.
  intros Hev Hr Hj.
  destruct (step_SlotStep ev w) as [Hr' Hj' Hn Hq | q Hq Hr' Hj' Hn Hf | Hr' Hj' Hn He].
  - repeat split; congruence.
  - destruct Hq; congruence.
  - destruct ev; try discriminate Hev.
    + destruct (handleChunk_frame chunk now w) as (E & _). simpl step in Hr'. congruence.
    + simpl in Hr'. unfold onStreamError in Hr'. rewrite Hj in Hr'. simpl in Hr'. congruence.
    + simpl in Hn. destruct (inflight w !! call) as [[]|]; simpl in Hn;
        [destruct (processWakeWord_resume r (svc w)) |
         destruct (processCommand_resume r (svc w)) |]; simpl in Hn; lia.
Qed.

(** X8. A stream error fails the pending request, once and for good: the
    pending promise is rejected with the error of the stream, and until the
    next [listenFor...] call nothing is resolved or rejected any more, not
    even when a transcription that was in flight returns. *)
Theorem stream_error_ends_the_request
  (threshold : Z) (duration : Q) (evs0 : list Event)
  (error : Error) (evs : list Event) :
  let w := final evs0 (newWorld threshold duration) in
  snd (step (StreamError error) w) =
    match currentResolver (svc w) with
    | Some p => [Reject p error]
    | None => []
    end /\
  (forallb withinSession evs = true ->
   forallb (fun e => negb (settles e)) (trace evs (fst (step (StreamError error) w))) = true).
Proof.
  intros w.
  destruct (SlotInv_reachable threshold duration evs0) as [Hpair _ _ _]. fold w in Hpair.
  assert (H1 : snd (step (StreamError error) w) =
               match currentResolver (svc w) with
               | Some p => [Reject p error] | None => [] end /\
               currentResolver (svc (fst (step (StreamError error) w))) = None /\
               currentRejector (svc (fst (step (StreamError error) w))) = None).
  { simpl. unfold onStreamError. rewrite Hpair.
    destruct (currentResolver (svc w)) eqn:E; simpl; auto. }
  destruct H1 as (H1 & Hr & Hj). split; [exact H1|].
  revert Hr Hj. generalize (fst (step (StreamError error) w)). clear.
  intros w Hr Hj Hevs. revert w Hr Hj.
  induction evs as [|ev evs IH]; intros w Hr Hj; [reflexivity|].
  simpl in Hevs. apply andb_true_iff in Hevs as [Hev Hevs].
  destruct (empty_slot_step ev w Hev Hr Hj) as (Hr' & Hj' & Hq).
  rewrite trace_cons, forallb_app, Hq. apply (IH Hevs _ Hr' Hj').
Qed.

Lemma stream_error_ends_the_request_witness :
  let w := final [CallListenForWakeWord; Data [] 0; Data [x01; x00]%byte 100;
                  Data [x01; x00]%byte 1600] (newWorld 900 (3 # 2)) in
  snd (step (StreamError "mic unplugged"%string) w) = [Reject 0%nat "mic unplugged"%string] /\
  forallb (fun e => negb (settles e))
    (trace [Settled 0%nat (inr "isis"%string); Data [x01; x00]%byte 1700]
       (fst (step (StreamError "mic unplugged"%string) w))) = true.
Proof.
  intros w.
  destruct (stream_error_ends_the_request 900 (3 # 2)
              [CallListenForWakeWord; Data [] 0; Data [x01; x00]%byte 100;
               Data [x01; x00]%byte 1600] "mic unplugged"%string
              [Settled 0%nat (inr "isis"%string); Data [x01; x00]%byte 1700])
    as [H1 H2].
  split; [exact H1 | exact (H2 eq_refl)].
Defined.

(** ** From the listen call to the settled promise *)


Lemma final_app (a b : list Event) (w : World) :
  final (a ++ b) w = final b (final a w).
Proof. unfold final. rewrite run_app. reflexivity. Qed.






(** * Further properties of the chat history *)

Module ChatGPTRunsFacts.
Import ChatGPT ChatGPTRuns.

Lemma sendMessage_appends (userMessage : string)
      (create : Request -> Error + Completion) (s : Service) :
  model (fst (sendMessage userMessage create s)) = model s /\
  conversationHistory (fst (sendMessage userMessage create s)) =
    conversationHistory s ++
    mkMessage user userMessage ::
    match create (requestOf userMessage s) with
    | inr completion => [mkMessage assistant (assistantMessageOf completion)]
    | inl _ => []
    end.
Proof.
  unfold sendMessage, requestOf. simpl.
  destruct (create _); simpl; [auto|]. rewrite <- app_assoc. auto.
Qed.

Lemma call_keeps_the_prompt (c : Call) (s : Service) (rest : list Message) :
  conversationHistory s = mkMessage system systemPrompt :: rest ->
  model (call s c) = model s /\
  exists rest', conversationHistory (call s c) = mkMessage system systemPrompt :: rest'.
Proof.
  intros H. destruct c as [m create|]; simpl.
  - destruct (sendMessage_appends m create s) as [-> ->]. rewrite H. simpl. eauto.
  - rewrite H. simpl. eauto.
Qed.

Lemma calls_keep_the_prompt (cs : list Call) (s : Service) (rest : list Message) :
  conversationHistory s = mkMessage system systemPrompt :: rest ->
  model (calls cs s) = model s /\
  exists rest', conversationHistory (calls cs s) = mkMessage system systemPrompt :: rest'.
Proof.
  revert s rest. induction cs as [|c cs IH]; intros s rest H; [simpl; eauto|].
  destruct (call_keeps_the_prompt c s rest H) as [Hm (rest' & H')].
  destruct (IH _ _ H') as [Hm' Hex]. simpl. split; [congruence | exact Hex].
Qed.

(** X10. Whatever [sendMessage] and [clearHistory] calls have been made on
    a service, and whether the API calls failed or not, the history still
    starts with the system prompt of the constructor, and [clearHistory]
    brings the service back to the state the constructor gave it. *)
Theorem clearHistory_restores_the_constructor (modelName : string) (cs : list Call) :
  (exists rest, conversationHistory (calls cs (newService modelName)) =
                  mkMessage system systemPrompt :: rest) /\
  clearHistory (calls cs (newService modelName)) = newService modelName.
Proof.
  destruct (calls_keep_the_prompt cs (newService modelName) [] eq_refl) as [Hm (rest & H)].
  split; [eauto|]. unfold clearHistory. rewrite H, Hm. reflexivity.
Qed.

Lemma contentsOf_app (r : Role) (a b : list Message) :
  contentsOf r (a ++ b) = contentsOf r a ++ contentsOf r b.
Proof.
  unfold contentsOf. induction a as [|m a IH]; simpl; [reflexivity|].
  destruct (hasRole r m); simpl; rewrite IH; reflexivity.
Qed.

Lemma sends_accumulate (cs : list Call) (s : Service) :
  forallb isSend cs = true ->
  contentsOf user (conversationHistory (calls cs s)) =
    contentsOf user (conversationHistory s) ++ sent cs /\
  contentsOf assistant (conversationHistory (calls cs s)) =
    contentsOf assistant (conversationHistory s) ++ answered cs s /\
  contentsOf system (conversationHistory (calls cs s)) =
    contentsOf system (conversationHistory s) /\
  length (conversationHistory (calls cs s)) =
    (length (conversationHistory s) + length (sent cs) + length (answered cs s))%nat.
Proof.
  revert s. induction cs as [|c cs IH]; intros s Hs.
  - simpl. rewrite !app_nil_r. repeat split; lia.
  - simpl in Hs. apply andb_true_iff in Hs as [Hc Hs].
    destruct c as [m create|]; [|discriminate].
    destruct (IH (call s (Send m create)) Hs) as (Hu & Ha & Hy & Hl).
    change (calls (Send m create :: cs) s) with (calls cs (call s (Send m create))).
    rewrite Hu, Ha, Hy, Hl. simpl call.
    destruct (sendMessage_appends m create s) as [_ ->]. simpl sent. simpl answered.
    rewrite !contentsOf_app, !length_app.
    destruct (create (requestOf m s)); simpl;
      rewrite ?app_nil_r, <- ?app_assoc; simpl; repeat split; lia.
Qed.

(** X11. The history only grows.  After any number of [sendMessage] calls
    on a new service, the user entries of the history are exactly the
    messages that were sent, in order, those whose API call failed
    included; the assistant entries are exactly the answers of the calls
    that succeeded; the system prompt is the only system entry; and nothing
    else is in the history. *)
Theorem history_keeps_every_message (modelName : string) (cs : list Call) :
  forallb isSend cs = true ->
  let history := conversationHistory (calls cs (newService modelName)) in
  contentsOf user history = sent cs /\
  contentsOf assistant history = answered cs (newService modelName) /\
  contentsOf system history = [systemPrompt] /\
  length history =
    (1 + length (sent cs) + length (answered cs (newService modelName)))%nat.
Proof.
  intros Hs history. subst history.
  destruct (sends_accumulate cs (newService modelName) Hs) as (Hu & Ha & Hy & Hl).
  repeat split; assumption.
Qed.

Lemma history_keeps_every_message_witness :
  let failing := fun _ : Request => inl "quota"%string : Error + Completion in
  let answering := fun _ : Request =>
    inr (mkCompletion [mkChoice (Some (mkChoiceMessage (Some "It is noon."%string)))])
    : Error + Completion in
  let cs := [Send "what time is it" failing; Send "what time is it" answering] in
  List.map content (conversationHistory (calls cs (newService "gpt-4-turbo-preview"))) =
    [systemPrompt; "what time is it"; "what time is it"; "It is noon."]%string /\
  contentsOf user (conversationHistory (calls cs (newService "gpt-4-turbo-preview"))) =
    ["what time is it"; "what time is it"]%string.
Proof.
  intros failing answering cs. split; [reflexivity|].
  exact (proj1 (history_keeps_every_message "gpt-4-turbo-preview" cs eq_refl)).
Defined.

End ChatGPTRunsFacts.

(** * Further properties of strings *)

Module StrMoreFacts.
Import Str StrMore.

Lemma trimEnd_idempotent (s : string) : trimEnd (trimEnd s) = trimEnd s.
Proof.
  induction s as [|c s IH]; simpl; [reflexivity|].
  destruct (isSpace c && isEmpty (trimEnd s)) eqn:E; [reflexivity|].
  simpl. rewrite IH, E. reflexivity.
Qed.

Lemma trimStart_no_lead (s : string) : startsWithSpace (trimStart s) = false.
Proof.
  induction s as [|c s IH]; simpl; [reflexivity|].
  destruct (isSpace c) eqn:E; [exact IH | simpl; exact E].
Qed.

Lemma trimEnd_no_lead (s : string) :
  startsWithSpace s = false -> startsWithSpace (trimEnd s) = false.
Proof.
  destruct s as [|c s]; simpl; [reflexivity|]. intros E. rewrite E. simpl. exact E.
Qed.

Lemma trimStart_fixed (s : string) : startsWithSpace s = false -> trimStart s = s.
Proof. destruct s as [|c s]; simpl; [reflexivity|]. intros ->. reflexivity. Qed.

Lemma trim_idempotent (s : string) : trim (trim s) = trim s.
Proof.
  unfold trim.
  rewrite (trimStart_fixed (trimEnd (trimStart s)))
    by (apply trimEnd_no_lead, trimStart_no_lead).
  apply trimEnd_idempotent.
Qed.

Lemma trimEnd_allSpace (ws : string) : allSpace ws = true -> trimEnd ws = EmptyString.
Proof.
  induction ws as [|c ws IH]; simpl; [reflexivity|].
  intros H. apply andb_true_iff in H as [Hc Hw]. rewrite (IH Hw), Hc. reflexivity.
Qed.

Lemma trimStart_allSpace (ws : string) : allSpace ws = true -> trimStart ws = EmptyString.
Proof.
  induction ws as [|c ws IH]; simpl; [reflexivity|].
  intros H. apply andb_true_iff in H as [Hc Hw]. rewrite Hc. exact (IH Hw).
Qed.

Lemma trimEnd_app_space (s ws : string) :
  allSpace ws = true -> trimEnd (s ++ ws) = trimEnd s.
Proof.
  intros Hw. induction s as [|c s IH]; simpl; [apply trimEnd_allSpace, Hw|].
  rewrite IH. reflexivity.
Qed.

Lemma trimStart_app_space (s ws : string) :
  allSpace ws = true ->
  trimStart (s ++ ws) =
    if isEmpty (trimStart s) then EmptyString else (trimStart s ++ ws)%string.
Proof.
  intros Hw. induction s as [|c s IH]; simpl; [apply trimStart_allSpace, Hw|].
  destruct (isSpace c); [exact IH | reflexivity].
Qed.

Lemma trim_app_space (s ws : string) : allSpace ws = true -> trim (s ++ ws) = trim s.
Proof.
  intros Hw. unfold trim. rewrite (trimStart_app_space s ws Hw).
  destruct (trimStart s) eqn:E; simpl isEmpty; cbv iota; [reflexivity|].
  apply trimEnd_app_space, Hw.
Qed.

End StrMoreFacts.

(** * Further properties of [recognizeStream] and of transcribe.js *)

Module WhisperMoreFacts.
Import Whisper WhisperMore.

(** On chunks of even length the ['data'] handler never throws: every
    chunk is written and every byte is counted. *)
Lemma deliver_even (chunks : list Buffer) :
  Forall (fun c => Nat.odd (length c) = false) chunks ->
  forall bytes amplitude, exists amplitude',
    deliver chunks bytes amplitude =
      (List.map WriteWav chunks, Some (bytes + totalBytes chunks, amplitude')).
Proof.
  induction chunks as [|c cs IH]; intros He bytes amplitude.
  - exists amplitude. simpl. rewrite Z.add_0_r. reflexivity.
  - apply Forall_cons in He as [Hc He]. simpl.
    destruct (maxVolumeFrom amplitude c) as [a|] eqn:E.
    + destruct (IH He (bytes + Z.of_nat (length c)) a) as (a' & ->).
      exists a'. simpl. do 3 f_equal. lia.
    + apply maxVolumeFrom_odd in E. congruence.
Qed.


Lemma deliver_isWritten (chunks : list Buffer) :
  forall bytes amplitude,
  forallb isWritten (fst (deliver chunks bytes amplitude)) = true.
Proof.
  induction chunks as [|c cs IH]; intros bytes amplitude; [reflexivity|].
  simpl. destruct (maxVolumeFrom amplitude c) as [a|]; [|reflexivity].
  specialize (IH (bytes + Z.of_nat (length c)) a).
  destruct (deliver cs _ a). simpl in *. exact IH.
Qed.


Lemma recognizeStream_even
  (modelPath : string) (devShm : bool) (now : Z) (chunks : list Buffer)
  (ending : Ending) (exec : Error + string) (tempExists : bool) :
  Forall (fun c => Nat.odd (length c) = false) chunks ->
  exists amplitude,
    recognizeStream modelPath devShm now chunks ending exec tempExists =
      NewFileWriter (tempFileName devShm now) :: List.map WriteWav chunks ++
      afterStream modelPath (tempFileName devShm now) (totalBytes chunks) amplitude
        ending exec tempExists.
Proof.
  intros He. destruct (deliver_even chunks He 0 0) as (a & Hd).
  exists a. unfold recognizeStream. rewrite Hd. reflexivity.
Qed.





Lemma In_map_WriteWav (e : Effect) (chunks : list Buffer) :
  In e (List.map WriteWav chunks) -> isWritten e = true.
Proof. intros H. apply in_map_iff in H as (c & <- & _). reflexivity. Qed.

(** X13. The transcription subprocess is run exactly when the writer
    finishes after at least one byte (on a stream of even-length chunks);
    it is given the path the WAV writer was opened on and the model path;
    and the temporary file is removed afterwards: always when the
    subprocess succeeds, and when it fails if the file exists. *)
Theorem subprocess_runs_on_audio_only
  (modelPath : string) (devShm : bool) (now : Z) (chunks : list Buffer)
  (ending : Ending) (exec : Error + string) (tempExists : bool) :
  Forall (fun c => Nat.odd (length c) = false) chunks ->
  let effs := recognizeStream modelPath devShm now chunks ending exec tempExists in
  let tempFile := tempFileName devShm now in
  (existsb isExecFile effs = true <-> ending = Finish /\ totalBytes chunks <> 0) /\
  (forall file args, In (ExecFile file args) effs ->
     file = "node"%string /\ args = ["./transcribe.js"; tempFile; modelPath]%string /\
     In (NewFileWriter tempFile) effs /\
     (In (UnlinkSync tempFile) effs <->
      match exec with inr _ => True | inl _ => tempExists = true end)).
Proof.
  intros He effs tempFile. subst effs tempFile.
  destruct (recognizeStream_even modelPath devShm now chunks ending exec tempExists He)
    as (a & ->).
  set (tf := tempFileName devShm now).
  assert (Hw : forall e, In e (List.map WriteWav chunks) -> isWritten e = true)
    by (intros e; apply In_map_WriteWav).
  split.
  - simpl. rewrite existsb_app.
    replace (existsb isExecFile (List.map WriteWav chunks)) with false
      by (clear; induction chunks; simpl; auto).
    simpl. unfold afterStream. destruct ending as [|e|e].
    + destruct (Z.eqb_spec (totalBytes chunks) 0) as [E|E]; simpl.
      * split; [discriminate | intros [_ H]; contradiction].
      * split; auto.
    + simpl. split; [discriminate | intros [H _]; discriminate].
    + simpl. split; [discriminate | intros [H _]; discriminate].
  - intros file args Hin. simpl in Hin. destruct Hin as [Hin|Hin]; [discriminate|].
    apply in_app_or in Hin as [Hin|Hin]; [apply Hw in Hin; discriminate|].
    unfold afterStream in *. destruct ending as [|e|e];
      [|simpl in Hin; destruct Hin as [|[|[]]]; discriminate
       |simpl in Hin; destruct Hin as [|[|[]]]; discriminate].
    destruct (totalBytes chunks =? 0);
      [simpl in Hin; destruct Hin as [|[|[]]]; discriminate|].
    assert (Hargs : file = "node"%string /\
                    args = ["./transcribe.js"; tf; modelPath]%string).
    { simpl in Hin. destruct Hin as [Hin|[Hin|Hin]]; [discriminate| |].
      - injection Hin as <- <-. auto.
      - destruct exec as [e|out].
        + destruct Hin as [Hin|Hin]; [discriminate|].
          destruct tempExists; simpl in Hin;
            repeat (destruct Hin as [Hin|Hin]; [discriminate|]); destruct Hin.
        + repeat (destruct Hin as [Hin|Hin]; [discriminate|]); destruct Hin. }
    destruct Hargs as [-> ->]. repeat split; [left; reflexivity| |].
    + intros Hu. simpl in Hu. destruct Hu as [Hu|Hu]; [discriminate|].
      apply in_app_or in Hu as [Hu|Hu]; [apply Hw in Hu; discriminate|].
      destruct exec as [e|out]; [|exact I].
      destruct tempExists; [reflexivity|].
      simpl in Hu. repeat (destruct Hu as [Hu|Hu]; [discriminate|]). destruct Hu.
    + intros Hx. right. apply in_or_app. right.
      destruct exec as [e|out]; [subst tempExists|]; simpl; auto 6.
Qed.

Lemma subprocess_runs_on_audio_only_witness :
  existsb isExecFile
    (recognizeStream "./models/ggml-base.en.bin" true 1700000000000
       [[x00; x10]%byte; []] Finish (inl "timed out"%string) false) = true /\
  ~ In (UnlinkSync "/dev/shm/audio-1700000000000.wav")
       (recognizeStream "./models/ggml-base.en.bin" true 1700000000000
          [[x00; x10]%byte; []] Finish (inl "timed out"%string) false).
Proof.
  destruct (subprocess_runs_on_audio_only "./models/ggml-base.en.bin" true
              1700000000000 [[x00; x10]%byte; []] Finish (inl "timed out"%string) false)
    as [H1 H2].
  - repeat constructor.
  - split.
    + apply H1. split; [reflexivity | discriminate].
    + intros Hu.
      destruct (H2 "node"%string
                  ["./transcribe.js"; "/dev/shm/audio-1700000000000.wav";
                   "./models/ggml-base.en.bin"]%string) as (_ & _ & _ & H3).
      * do 4 right. left. reflexivity.
      * apply H3 in Hu. discriminate.
Defined.

(** X14. Whatever [recognizeStream] resolves with has no white space at
    either end: trimming it again changes nothing. *)
Theorem resolved_text_is_trimmed
  (modelPath : string) (devShm : bool) (now : Z) (chunks : list Buffer)
  (ending : Ending) (exec : Error + string) (tempExists : bool) (text : string) :
  In (Resolve text)
     (recognizeStream modelPath devShm now chunks ending exec tempExists) ->
  Str.trim text = text.
Proof.
  unfold recognizeStream. pose proof (deliver_isWritten chunks 0 0) as Hw.
  destruct (deliver chunks 0 0) as [writes counters]. simpl in Hw.
  intros [H|H]; [discriminate|].
  apply in_app_or in H as [H|H].
  { rewrite forallb_forall in Hw. apply Hw in H. discriminate. }
  destruct counters as [[bytes amplitude]|]; [|destruct H].
  destruct ending as [|e|e]; [|destruct H as [|[|[]]]; discriminate ..].
  destruct (bytes =? 0).
  - destruct H as [|[H|[]]]; [discriminate|]. injection H as <-. reflexivity.
  - destruct H as [|[|H]]; try discriminate.
    destruct exec as [e|out].
    + destruct H as [|H]; [discriminate|].
      destruct tempExists; simpl in H;
        repeat (destruct H as [H|H]; [discriminate|]); destruct H.
    + destruct H as [|[|[H|[]]]]; try discriminate.
      injection H as <-. apply StrMoreFacts.trim_idempotent.
Qed.

Lemma resolved_text_is_trimmed_witness :
  Str.trim "turn on the lights" = "turn on the lights"%string.
Proof.
  apply (resolved_text_is_trimmed "./models/ggml-base.en.bin" false 1700000000000
           [[x00; x10]%byte] Finish
           (inr ("  turn on the lights" ++ StrMore.newline)%string) true).
  do 6 right. left. reflexivity.
Defined.

End WhisperMoreFacts.

(** * transcribe.js, alone and under [recognizeStream] *)

Module TranscribeScriptFacts.
Import TranscribeScript.

Lemma allSpace_newline : StrMore.allSpace StrMore.newline = true.
Proof. reflexivity. Qed.

Lemma truthy_tempFileName (devShm : bool) (now : Z) :
  Str.truthy (Whisper.tempFileName devShm now) = true.
Proof. destruct devShm; reflexivity. Qed.

(** X15. transcribe.js exits with code 0 exactly when it was given a file
    path and loading the model, the transcription and the release of the
    context all succeeded; otherwise it exits with code 1.  Its standard
    output is empty unless the transcription succeeded, and is then the
    transcript followed by a line feed, also when the release fails
    afterwards.  Without a file path the whisper binding is not called at
    all, and the context is released only after a transcription that
    succeeded. *)
Theorem script_exit_and_output
  (argv2 argv3 : option string) (darwin : bool)
  (initWhisper : option Error) (transcribed : Error + string)
  (released : option Error) :
  let run := main argv2 argv3 darwin initWhisper transcribed released in
  let given := match argv2 with Some filePath => Str.truthy filePath | None => false end in
  (exitCode (snd run) = 0 <->
     given = true /\ initWhisper = None /\ released = None /\
     exists result, transcribed = inr result) /\
  (exitCode (snd run) = 0 \/ exitCode (snd run) = 1) /\
  (stdout (snd run) =
     match transcribed with
     | inr result =>
         if given && match initWhisper with None => true | Some _ => false end
         then (result ++ StrMore.newline)%string else EmptyString
     | inl _ => EmptyString
     end) /\
  (given = false -> fst run = []) /\
  (In Release (fst run) <->
     given = true /\ initWhisper = None /\ exists result, transcribed = inr result).
Proof.
  intros run given. subst run given. unfold main.
  destruct argv2 as [filePath|]; [destruct (Str.truthy filePath)|];
    destruct initWhisper as [e1|]; destruct transcribed as [e2|result];
    destruct released as [e3|]; simpl;
    intuition (try congruence; eauto);
    repeat match goal with
           | H : exists _, _ |- _ => destruct H
           | H : _ \/ _ |- _ => destruct H
           end; congruence.
Qed.

(** X16. [recognizeStream] over transcribe.js: on a stream of even-length
    chunks with at least one byte whose writer finishes, the script is
    given the temporary file and the model path, and the promise is
    resolved with the trimmed transcript exactly when loading the model,
    the transcription and the release of the context all succeed.  In every
    other case it is rejected with the error of the failed subprocess, also
    when only the release failed and the transcript had been printed. *)
Theorem recognizeStream_over_the_script
  (modelPath : string) (devShm darwin : bool) (now : Z) (chunks : list Buffer)
  (initWhisper : option Error) (transcribed : Error + string)
  (released : option Error) (failed : Error) (tempExists : bool) :
  Forall (fun c => Nat.odd (length c) = false) chunks ->
  Whisper.totalBytes chunks <> 0 ->
  let tempFile := Whisper.tempFileName devShm now in
  let script := main (Some tempFile) (Some modelPath) darwin
                     initWhisper transcribed released in
  let effs := Whisper.recognizeStream modelPath devShm now chunks Whisper.Finish
                (execFileAsync failed (snd script)) tempExists in
  In (Whisper.ExecFile "node" ["./transcribe.js"; tempFile; modelPath]%string) effs /\
  (forall filePath language temperature,
     In (TranscribeFile filePath language temperature) (fst script) ->
     filePath = tempFile) /\
  exists before,
    effs = before ++
      [match initWhisper, transcribed, released with
       | None, inr result, None => Whisper.Resolve (Str.trim result)
       | _, _, _ => Whisper.Reject failed
       end] /\
    forallb (fun e => negb (isSettlement e)) before = true.
Proof.
  intros He Hb tempFile script effs. subst effs script tempFile.
  set (tf := Whisper.tempFileName devShm now).
  destruct (WhisperMoreFacts.recognizeStream_even modelPath devShm now chunks
              Whisper.Finish
              (execFileAsync failed
                 (snd (main (Some tf) (Some modelPath) darwin
                         initWhisper transcribed released)))
              tempExists He) as (a & ->).
  fold tf. unfold WhisperMore.afterStream.
  destruct (Z.eqb_spec (Whisper.totalBytes chunks) 0) as [E|_]; [contradiction|].
  assert (Hw : forallb (fun e => negb (isSettlement e))
                 (List.map Whisper.WriteWav chunks) = true)
    by (clear; induction chunks; simpl; auto).
  split; [|split].
  - right. apply in_or_app. right. right. left. reflexivity.
  - intros filePath language temperature. unfold main.
    replace (Str.truthy tf) with true
      by (symmetry; apply truthy_tempFileName). simpl negb. cbv iota.
    destruct initWhisper as [e1|]; [|destruct transcribed as [e2|result]]; simpl;
      intros H;
      repeat match goal with
             | H : _ \/ _ |- _ => destruct H
             | H : False |- _ => destruct H
             end;
      try discriminate; congruence.
  - unfold main. replace (Str.truthy tf) with true
      by (symmetry; apply truthy_tempFileName).
    simpl negb. cbv iota.
    destruct initWhisper as [e1|]; [|destruct transcribed as [e2|result];
      [|destruct released as [e3|]]]; simpl snd; unfold execFileAsync, failure;
      simpl exitCode; simpl stdout; cbv iota.
    1-3: destruct tempExists;
      [eexists (Whisper.NewFileWriter tf ::
                List.map Whisper.WriteWav chunks ++ [_; _; _; _])
      |eexists (Whisper.NewFileWriter tf ::
                List.map Whisper.WriteWav chunks ++ [_; _; _])];
      (split; [simpl; rewrite <- app_assoc; simpl; reflexivity|]);
      simpl; rewrite forallb_app, Hw; reflexivity.
    change (0 =? 0) with true. cbv iota.
    rewrite (StrMoreFacts.trim_app_space result StrMore.newline allSpace_newline).
    eexists (Whisper.NewFileWriter tf ::
             List.map Whisper.WriteWav chunks ++ [_; _; _; _]).
    split; [simpl; rewrite <- app_assoc; simpl; reflexivity|].
    simpl. rewrite forallb_app, Hw. reflexivity.
Qed.

Lemma recognizeStream_over_the_script_witness :
  exists before,
    Whisper.recognizeStream "./models/ggml-base.en.bin" true 1700000000000
      [[x00; x10]%byte] Whisper.Finish
      (execFileAsync "Command failed"%string
         (snd (main (Some "/dev/shm/audio-1700000000000.wav"%string)
                 (Some "./models/ggml-base.en.bin"%string) false None
                 (inr " what time is it"%string) (Some "release failed"%string))))
      true =
    before ++ [Whisper.Reject "Command failed"%string] /\
    forallb (fun e => negb (isSettlement e)) before = true.
Proof.
  apply (recognizeStream_over_the_script "./models/ggml-base.en.bin" true false
           1700000000000 [[x00; x10]%byte] None (inr " what time is it"%string)
           (Some "release failed"%string) "Command failed"%string true).
  - repeat constructor.
  - discriminate.
Defined.

End TranscribeScriptFacts.

(** * Further properties: the WAV file built in memory *)

Module WavFacts.
Import Wav.

Lemma byteOf_value (v : Z) : Z.of_N (Byte.to_N (byteOf v)) = v mod 256.
Proof.
  unfold byteOf. pose proof (Z.mod_pos_bound v 256 ltac:(lia)) as Hb.
  destruct (Byte.of_N (Z.to_N (v mod 256))) as [b|] eqn:E.
  - apply Byte.to_of_N in E. rewrite E. lia.
  - apply Byte.of_N_None_iff in E. lia.
Qed.

Lemma length_bytesLE (n : nat) : forall v, length (bytesLE n v) = n.
Proof. induction n as [|n IH]; intros v; simpl; [reflexivity | rewrite IH; reflexivity]. Qed.

(** Reading back what was stored gives the value, reduced to the width. *)
Lemma valueLE_bytesLE (n : nat) :
  forall v, valueLE (bytesLE n v) = v mod 2 ^ (8 * Z.of_nat n).
Proof.
  induction n as [|n IH]; intros v.
  - simpl. rewrite Z.mod_1_r. reflexivity.
  - cbn [bytesLE valueLE]. rewrite byteOf_value, IH.
    replace (8 * Z.of_nat (S n)) with (8 + 8 * Z.of_nat n) by lia.
    rewrite Z.pow_add_r by lia. change (2 ^ 8) with 256.
    rewrite (Z.rem_mul_r v 256 (2 ^ (8 * Z.of_nat n))) by lia. reflexivity.
Qed.

Lemma writeUIntLE_Some (width : nat) (value : Z) (offset : nat) (buf : Buffer) :
  0 <= value <= 2 ^ (8 * Z.of_nat width) - 1 ->
  writeUIntLE width (inject_Z value) offset buf =
    Some (writeAt offset (bytesLE width value) buf).
Proof.
  intros Hr. unfold writeUIntLE.
  replace (Qle_bool 0 (inject_Z value)) with true
    by (symmetry; apply Qle_bool_iff; change 0%Q with (inject_Z 0);
        rewrite <- Zle_Qle; lia).
  replace (Qle_bool (inject_Z value) (inject_Z (2 ^ (8 * Z.of_nat width) - 1)))
    with true by (symmetry; apply Qle_bool_iff; rewrite <- Zle_Qle; lia).
  rewrite Qfloor_Z. reflexivity.
Qed.

Lemma writeUIntLE_checked (width : nat) (value : Q) (offset : nat) (buf : Buffer) :
  Qle_bool 0 value && Qle_bool value (inject_Z (2 ^ (8 * Z.of_nat width) - 1)) = true ->
  writeUIntLE width value offset buf =
    Some (writeAt offset (bytesLE width (Qfloor value)) buf).
Proof. intros H. unfold writeUIntLE. rewrite H. reflexivity. Qed.

Lemma writeUIntLE_None (width : nat) (value : Z) (offset : nat) (buf : Buffer) :
  2 ^ (8 * Z.of_nat width) - 1 < value ->
  writeUIntLE width (inject_Z value) offset buf = None.
Proof.
  intros Hr. unfold writeUIntLE.
  destruct (Qle_bool (inject_Z value) (inject_Z (2 ^ (8 * Z.of_nat width) - 1))) eqn:E.
  - apply Qle_bool_iff in E. rewrite <- Zle_Qle in E. lia.
  - rewrite andb_false_r. reflexivity.
Qed.

Lemma writeUIntLE_inv (width : nat) (value : Q) (offset : nat) (buf b : Buffer) :
  writeUIntLE width value offset buf = Some b ->
  (0 <= value)%Q /\ (value <= inject_Z (2 ^ (8 * Z.of_nat width) - 1))%Q /\
  b = writeAt offset (bytesLE width (Qfloor value)) buf.
Proof.
  unfold writeUIntLE.
  destruct (Qle_bool 0 value) eqn:E1; [|discriminate].
  destruct (Qle_bool value (inject_Z (2 ^ (8 * Z.of_nat width) - 1))) eqn:E2;
    [|discriminate].
  intros H. injection H as <-.
  apply Qle_bool_iff in E1, E2. auto.
Qed.

Lemma writeUIntLE_inv_Z (width : nat) (value : Z) (offset : nat) (buf b : Buffer) :
  writeUIntLE width (inject_Z value) offset buf = Some b ->
  0 <= value <= 2 ^ (8 * Z.of_nat width) - 1 /\
  b = writeAt offset (bytesLE width value) buf.
Proof.
  intros H. apply writeUIntLE_inv in H as (H1 & H2 & ->).
  change 0%Q with (inject_Z 0) in H1. rewrite <- Zle_Qle in H1, H2.
  rewrite Qfloor_Z. auto.
Qed.

Lemma createWavBuffer_inv (pcmData : Buffer) (sampleRate channels bitDepth : Z)
    (wav : Buffer) :
  createWavBuffer pcmData sampleRate channels bitDepth = Some wav ->
  0 <= Z.of_nat (length pcmData) + 36 <= 2 ^ 32 - 1 /\
  0 <= channels <= 2 ^ 16 - 1 /\ 0 <= sampleRate <= 2 ^ 32 - 1 /\
  0 <= bitDepth <= 2 ^ 16 - 1 /\
  wav = layout pcmData sampleRate channels bitDepth.
Proof.
  unfold createWavBuffer, layout, writeUInt32LE, writeUInt16LE.
  replace (44 + Z.of_nat (length pcmData) - 8) with (Z.of_nat (length pcmData) + 36)
    by lia.
  set (blockAlign := (inject_Z channels * (inject_Z bitDepth / inject_Z 8))%Q).
  set (byteRate := (inject_Z sampleRate * blockAlign)%Q).
  clearbody byteRate. clearbody blockAlign.
  intros H.
  repeat match type of H with
         | mbind _ ?m = Some _ =>
             let E := fresh "E" in
             destruct m eqn:E; [|discriminate H]; cbn [mbind option_bind] in H
         end.
  apply writeUIntLE_inv_Z in E as (R1 & ->), E0 as (_ & ->), E1 as (_ & ->),
    E2 as (R2 & ->), E3 as (R3 & ->), E6 as (R4 & ->), E7 as (_ & ->).
  apply writeUIntLE_inv in E4 as (_ & _ & ->), E5 as (_ & _ & ->).
  injection H as <-.
  change (Z.of_nat 4) with 4 in R1, R3. change (Z.of_nat 2) with 2 in R2, R4.
  repeat split; try lia.
  generalize (Qfloor byteRate) (Qfloor blockAlign) (Z.of_nat (length pcmData)).
  intros v1 v2 v3. clear.
  unfold write, writeAt, Buffer_alloc, Buffer_concat.
  cbn -[byteOf Z.div Z.add]. rewrite app_nil_r. reflexivity.
Qed.

Lemma layout_length (pcmData : Buffer) (sampleRate channels bitDepth : Z) :
  length (layout pcmData sampleRate channels bitDepth) = (44 + length pcmData)%nat.
Proof.
  unfold layout. repeat rewrite length_app. rewrite !length_bytesLE. reflexivity.
Qed.

Lemma layout_fields (pcmData : Buffer) (sampleRate channels bitDepth : Z) :
  let blockAlign : Q := (inject_Z channels * (inject_Z bitDepth / inject_Z 8))%Q in
  let byteRate : Q := (inject_Z sampleRate * blockAlign)%Q in
  let wav := layout pcmData sampleRate channels bitDepth in
  skipn 44 wav = pcmData /\
  slice 0 4 wav = list_byte_of_string "RIFF" /\
  slice 4 4 wav = bytesLE 4 (Z.of_nat (length pcmData) + 36) /\
  slice 8 8 wav = list_byte_of_string "WAVEfmt " /\
  slice 16 4 wav = bytesLE 4 16 /\
  slice 20 2 wav = bytesLE 2 1 /\
  slice 22 2 wav = bytesLE 2 channels /\
  slice 24 4 wav = bytesLE 4 sampleRate /\
  slice 28 4 wav = bytesLE 4 (Qfloor byteRate) /\
  slice 32 2 wav = bytesLE 2 (Qfloor blockAlign) /\
  slice 34 2 wav = bytesLE 2 bitDepth /\
  slice 36 4 wav = list_byte_of_string "data" /\
  slice 40 4 wav = bytesLE 4 (Z.of_nat (length pcmData)).
Proof.
  intros blockAlign byteRate wav. subst wav. unfold layout.
  fold blockAlign. fold byteRate.
  generalize (Qfloor byteRate) (Qfloor blockAlign) (Z.of_nat (length pcmData)).
  intros v1 v2 v3. unfold slice.
  cbn -[byteOf Z.div Z.add]. repeat split; reflexivity.
Qed.

Lemma valueLE_stored (n : nat) (v : Z) :
  0 <= v <= 2 ^ (8 * Z.of_nat n) - 1 -> valueLE (bytesLE n v) = v.
Proof. intros H. rewrite valueLE_bytesLE. apply Z.mod_small. lia. Qed.

(** X17. A WAV file that [createWavBuffer] builds is a header of 44 bytes
    followed by the PCM data unchanged, so that dropping the first 44 bytes
    (as test-audio-file.js does) gives the data back.  The header starts
    with the RIFF, WAVE, fmt and data tags at their offsets, and read back
    as little-endian numbers its fields hold the file size less 8, the
    number of channels, the sample rate, the bit depth and the size of the
    data. *)
Theorem createWavBuffer_round_trip
  (pcmData : Buffer) (sampleRate channels bitDepth : Z) (wav : Buffer) :
  createWavBuffer pcmData sampleRate channels bitDepth = Some wav ->
  length wav = (44 + length pcmData)%nat /\
  skipn 44 wav = pcmData /\
  slice 0 4 wav = list_byte_of_string "RIFF" /\
  valueLE (slice 4 4 wav) = Z.of_nat (length wav) - 8 /\
  slice 8 8 wav = list_byte_of_string "WAVEfmt " /\
  valueLE (slice 16 4 wav) = 16 /\
  valueLE (slice 20 2 wav) = 1 /\
  valueLE (slice 22 2 wav) = channels /\
  valueLE (slice 24 4 wav) = sampleRate /\
  valueLE (slice 34 2 wav) = bitDepth /\
  slice 36 4 wav = list_byte_of_string "data" /\
  valueLE (slice 40 4 wav) = Z.of_nat (length pcmData).
Proof.
  intros H. apply createWavBuffer_inv in H as (R1 & R2 & R3 & R4 & ->).
  pose proof (layout_length pcmData sampleRate channels bitDepth) as Hl.
  destruct (layout_fields pcmData sampleRate channels bitDepth)
    as (F0 & F1 & F2 & F3 & F4 & F5 & F6 & F7 & _ & _ & F10 & F11 & F12).
  rewrite Hl, F0, F1, F2, F3, F4, F5, F6, F7, F10, F11, F12.
  rewrite !valueLE_stored; try (change (Z.of_nat 4) with 4);
    try (change (Z.of_nat 2) with 2); try lia.
  repeat split; lia.
Qed.

Lemma createWavBuffer_round_trip_witness :
  skipn 44 [x52; x49; x46; x46; x26; x00; x00; x00; x57; x41; x56; x45;
            x66; x6d; x74; x20; x10; x00; x00; x00; x01; x00; x01; x00;
            x80; x3e; x00; x00; x00; x7d; x00; x00; x02; x00; x10; x00;
            x64; x61; x74; x61; x02; x00; x00; x00; x34; x12]%byte
    = [x34; x12]%byte.
Proof.
  apply (createWavBuffer_round_trip [x34; x12]%byte 16000 1 16).
  reflexivity.
Defined.

(** X18. With the parameters [recognizeStream] passes (16 kHz, one
    channel, 16 bits), [createWavBuffer] throws exactly when the data and
    the 36 bytes counted with it exceed the largest 32-bit number;
    otherwise the header declares a byte rate of 32000 and a block
    alignment of 2. *)
Theorem createWavBuffer_16k_mono (pcmData : Buffer) :
  match createWavBuffer pcmData 16000 1 16 with
  | None => 2 ^ 32 - 1 < Z.of_nat (length pcmData) + 36
  | Some wav =>
      Z.of_nat (length pcmData) + 36 <= 2 ^ 32 - 1 /\
      valueLE (slice 28 4 wav) = 32000 /\ valueLE (slice 32 2 wav) = 2
  end.
Proof.
  destruct (createWavBuffer pcmData 16000 1 16) as [wav|] eqn:E.
  - apply createWavBuffer_inv in E as (R1 & _ & _ & _ & ->).
    destruct (layout_fields pcmData 16000 1 16)
      as (_ & _ & _ & _ & _ & _ & _ & _ & F8 & F9 & _).
    rewrite F8, F9. split; [lia|]. split; reflexivity.
  - destruct (Z.le_gt_cases (Z.of_nat (length pcmData) + 36) (2 ^ 32 - 1)) as [Hle|Hgt];
      [exfalso | lia].
    revert E. unfold createWavBuffer, writeUInt32LE, writeUInt16LE.
    replace (44 + Z.of_nat (length pcmData) - 8) with (Z.of_nat (length pcmData) + 36)
      by lia.
    rewrite writeUIntLE_Some by (change (Z.of_nat 4) with 4; lia).
    cbn [mbind option_bind].
    do 7 (rewrite writeUIntLE_checked by (vm_compute; reflexivity);
          cbn [mbind option_bind]).
    rewrite (writeUIntLE_Some 4 (Z.of_nat (length pcmData)))
      by (change (Z.of_nat 4) with 4; lia).
    discriminate.
Qed.

End WavFacts.

Module WavMemoryFacts.
Import Wav WavMemory.

Lemma maxVolumeFrom_app (a b : Buffer) :
  forall acc v, maxVolumeFrom acc a = Some v ->
  maxVolumeFrom acc (a ++ b) = maxVolumeFrom v b.
Proof.
  induction a as [|x|x y l IH] using pair_induction; intros acc v H.
  - injection H as <-. reflexivity.
  - discriminate.
  - simpl in *. apply IH. exact H.
Qed.

Lemma totalBytes_length (chunks : list Buffer) :
  Whisper.totalBytes chunks = Z.of_nat (length (Buffer_concat chunks)).
Proof.
  induction chunks as [|c cs IH]; [reflexivity|].
  unfold Buffer_concat in *. simpl. rewrite length_app, IH. lia.
Qed.

(** What the ['data'] handler has gathered when it never threw. *)
Lemma collect_Some (chunks : list Buffer) :
  forall audioChunks bytesWritten maxAmplitude kept bytes amplitude,
  collect chunks audioChunks bytesWritten maxAmplitude = Some (kept, bytes, amplitude) ->
  kept = audioChunks ++ chunks /\
  bytes = bytesWritten + Whisper.totalBytes chunks /\
  maxVolumeFrom maxAmplitude (Buffer_concat chunks) = Some amplitude.
Proof.
  induction chunks as [|c cs IH]; intros ac bw ma kept bytes amplitude H.
  - injection H as <- <- <-. rewrite app_nil_r. simpl. repeat split; lia.
  - simpl in H. destruct (maxVolumeFrom ma c) as [m|] eqn:E; [|discriminate].
    apply IH in H as (-> & -> & Hm). rewrite <- app_assoc. simpl.
    repeat split; [lia|].
    unfold Buffer_concat in *. simpl. rewrite (maxVolumeFrom_app c _ ma m E). exact Hm.
Qed.

(** The loop of test-audio-file.js finds the peak that the loop of the
    services finds, and counts one sample for every two bytes. *)
Lemma scan_spec (audioData : Buffer) :
  forall maxAmplitude totalSamples loudSamples amplitude,
  maxVolumeFrom maxAmplitude audioData = Some amplitude ->
  exists loud,
    TestAudioFile.scan audioData maxAmplitude totalSamples loudSamples =
      Some (amplitude, totalSamples + Z.of_nat (length audioData) / 2, loud) /\
    loudSamples <= loud <= loudSamples + Z.of_nat (length audioData) / 2.
Proof.
  induction audioData as [|x|x y l IH] using pair_induction;
    intros ma ts ls amplitude H.
  - injection H as <-. exists ls. simpl. rewrite Z.add_0_r.
    split; [reflexivity | change (Z.of_nat 0 / 2) with 0; lia].
  - discriminate.
  - simpl in H. cbn [TestAudioFile.scan].
    set (ls' := if Z.abs (int16LE x y) >? 1000 then ls + 1 else ls).
    destruct (IH _ (ts + 1) ls' _ H) as (loud & -> & Hl).
    assert (Hd : Z.of_nat (length (x :: y :: l)) / 2 = 1 + Z.of_nat (length l) / 2).
    { replace (Z.of_nat (length (x :: y :: l))) with (1 * 2 + Z.of_nat (length l))
        by (simpl length; lia).
      rewrite Z.div_add_l by lia. reflexivity. }
    rewrite Hd. exists loud. split; [do 3 f_equal; lia|].
    subst ls'. destruct (Z.abs (int16LE x y) >? 1000); lia.
Qed.

Lemma In_caught (tempExists : bool) (tempFile : string) (error : Error) (e : Effect) :
  In e (LogError error ::
        (if tempExists then [UnlinkSync tempFile] else []) ++ [Reject error]) ->
  e = LogError error \/ e = UnlinkSync tempFile \/ e = Reject error.
Proof.
  destruct tempExists; simpl; intuition.
Qed.

(** X19. The [recognizeStream] that keeps the audio in memory writes the
    temporary file only when the stream ended after at least one byte, and
    what it writes is then a 44-byte header followed by exactly the bytes
    of the stream, in the order they arrived; it never writes a file for a
    stream without audio or for a stream that ended in an error. *)
Theorem written_file_holds_the_audio
  (modelPath : string) (devShm : bool) (now : Z) (chunks : list Buffer)
  (ending : Ending) (outOfRange : Error) (written : option Error)
  (exec : Error + string) (tempExists : bool) (path : string) (data : Buffer) :
  In (WriteFileSync path data)
     (recognizeStream modelPath devShm now chunks ending outOfRange written
        exec tempExists) ->
  ending = End /\ Whisper.totalBytes chunks <> 0 /\
  path = Whisper.tempFileName devShm now /\
  length data = (44 + length (Buffer_concat chunks))%nat /\
  skipn 44 data = Buffer_concat chunks.
Proof.
  unfold recognizeStream.
  destruct (collect chunks [] 0 0) as [[[kept bytes] amplitude]|] eqn:E;
    [|intros [H|[]]; discriminate].
  apply collect_Some in E as (-> & -> & Hm). rewrite app_nil_l, Z.add_0_l.
  destruct ending as [|error]; [|intros [H|[H|[]]]; discriminate].
  destruct (Z.eqb_spec (Whisper.totalBytes chunks) 0) as [Hz|Hz];
    [intros [H|[H|[]]]; discriminate|].
  destruct (createWavBuffer (Buffer_concat chunks) 16000 1 16) as [wav|] eqn:Ew.
  - intros [H|[H|H]]; [discriminate| |].
    + injection H as <- <-.
      apply WavFacts.createWavBuffer_inv in Ew as (_ & _ & _ & _ & ->).
      pose proof (WavFacts.layout_length (Buffer_concat chunks) 16000 1 16).
      destruct (WavFacts.layout_fields (Buffer_concat chunks) 16000 1 16) as (Hd & _).
      auto.
    + exfalso. destruct written as [error|].
      * apply In_caught in H as [H|[H|H]]; discriminate.
      * destruct H as [H|H]; [discriminate|]. destruct exec as [error|stdout].
        -- apply In_caught in H as [H|[H|H]]; discriminate.
        -- destruct H as [H|[H|[H|[]]]]; discriminate.
  - intros H. apply In_caught in H as [H|[H|H]]; discriminate.
Qed.

Lemma written_file_holds_the_audio_witness :
  skipn 44 [x52; x49; x46; x46; x28; x00; x00; x00; x57; x41; x56; x45;
            x66; x6d; x74; x20; x10; x00; x00; x00; x01; x00; x01; x00;
            x80; x3e; x00; x00; x00; x7d; x00; x00; x02; x00; x10; x00;
            x64; x61; x74; x61; x04; x00; x00; x00; x34; x12; x00; xff]%byte
    = Buffer_concat [[x34; x12]; []; [x00; xff]]%byte.
Proof.
  apply (written_file_holds_the_audio "./models/ggml-base.en.bin" true
           1700000000000 [[x34; x12]; []; [x00; xff]]%byte End
           "out of range"%string (Some "disk full"%string) (inl "unused"%string) false
           "/dev/shm/audio-1700000000000.wav").
  right. left. reflexivity.
Defined.

(** X20. The file the in-memory [recognizeStream] writes, analysed by
    test-audio-file.js, shows the figures the service logged: whenever the
    service logs a recording of some size and peak amplitude, it writes a
    file of that size, and the analysis of that file finds the same peak
    amplitude and one sample for every two bytes behind the header. *)
Theorem analysis_agrees_with_the_log
  (modelPath : string) (devShm : bool) (now : Z) (chunks : list Buffer)
  (ending : Ending) (outOfRange : Error) (written : option Error)
  (exec : Error + string) (tempExists : bool) (size amplitude : Z) :
  let effs := recognizeStream modelPath devShm now chunks ending outOfRange
                written exec tempExists in
  In (LogRecording size amplitude) effs ->
  exists data loud,
    In (WriteFileSync (Whisper.tempFileName devShm now) data) effs /\
    size = Z.of_nat (length data) /\
    TestAudioFile.analyze data = Some (amplitude, (size - 44) / 2, loud) /\
    0 <= loud <= (size - 44) / 2.
Proof.
  intros effs. subst effs. unfold recognizeStream.
  destruct (collect chunks [] 0 0) as [[[kept bytes] amplitude']|] eqn:E;
    [|intros [H|[]]; discriminate].
  apply collect_Some in E as (-> & -> & Hm). rewrite app_nil_l, Z.add_0_l.
  destruct ending as [|error]; [|intros [H|[H|[]]]; discriminate].
  destruct (Z.eqb_spec (Whisper.totalBytes chunks) 0) as [Hz|Hz];
    [intros [H|[H|[]]]; discriminate|].
  destruct (createWavBuffer (Buffer_concat chunks) 16000 1 16) as [wav|] eqn:Ew;
    [|intros H; apply In_caught in H as [H|[H|H]]; discriminate].
  intros H.
  assert (Hs : size = Z.of_nat (length wav) /\ amplitude = amplitude').
  { destruct H as [H|[H|H]]; [injection H as <- <-; auto|discriminate|].
    exfalso. destruct written as [error|].
    - apply In_caught in H as [H|[H|H]]; discriminate.
    - destruct H as [H|H]; [discriminate|]. destruct exec as [error|stdout].
      + apply In_caught in H as [H|[H|H]]; discriminate.
      + destruct H as [H|[H|[H|[]]]]; discriminate. }
  destruct Hs as [-> ->]. clear H.
  apply WavFacts.createWavBuffer_inv in Ew as (_ & _ & _ & _ & ->).
  pose proof (WavFacts.layout_length (Buffer_concat chunks) 16000 1 16) as Hl.
  destruct (WavFacts.layout_fields (Buffer_concat chunks) 16000 1 16) as (Hd & _).
  destruct (scan_spec (Buffer_concat chunks) 0 0 0 amplitude' Hm) as (loud & Hscan & Hloud).
  exists (layout (Buffer_concat chunks) 16000 1 16), loud.
  replace (Z.of_nat (length (layout (Buffer_concat chunks) 16000 1 16)) - 44)
    with (Z.of_nat (length (Buffer_concat chunks))) by lia.
  split; [right; left; reflexivity|]. split; [reflexivity|].
  split; [|lia].
  unfold TestAudioFile.analyze. rewrite Hd, Hscan. reflexivity.
Qed.

Lemma analysis_agrees_with_the_log_witness :
  exists data loud,
    In (WriteFileSync "/dev/shm/audio-1700000000000.wav" data)
       (recognizeStream "./models/ggml-base.en.bin" true 1700000000000
          [[x34; x12]; []; [x00; xff]]%byte End "out of range"%string None
          (inr "hello"%string) true) /\
    48 = Z.of_nat (length data) /\
    TestAudioFile.analyze data = Some (4660, (48 - 44) / 2, loud) /\
    0 <= loud <= (48 - 44) / 2.
Proof.
  apply (analysis_agrees_with_the_log "./models/ggml-base.en.bin" true
           1700000000000 [[x34; x12]; []; [x00; xff]]%byte End
           "out of range"%string None (inr "hello"%string) true 48 4660).
  left. reflexivity.
Defined.

End WavMemoryFacts.

(** * Further properties: the voice assistant *)

Module AssistantFacts.
Import Assistant.

Lemma append_cons (c : ascii) (s t : string) :
  (String c s ++ t)%string = String c (s ++ t).
Proof. reflexivity. Qed.

Lemma append_nil_l (t : string) : (EmptyString ++ t)%string = t.
Proof. reflexivity. Qed.

Lemma append_nil_r (s : string) : (s ++ EmptyString)%string = s.
Proof.
  induction s as [|c s IH]; [reflexivity|]. rewrite append_cons, IH. reflexivity.
Qed.

Lemma append_assoc (a b c : string) : ((a ++ b) ++ c)%string = (a ++ b ++ c)%string.
Proof.
  induction a as [|x a IH]; [reflexivity|]. rewrite !append_cons, IH. reflexivity.
Qed.

Lemma snoc_append (s : string) (c : ascii) (t : string) :
  (snoc s c ++ t)%string = (s ++ String c t)%string.
Proof. unfold snoc. rewrite append_assoc. reflexivity. Qed.

Lemma isEmpty_snoc (s : string) (c : ascii) : Str.isEmpty (snoc s c) = false.
Proof. destruct s; reflexivity. Qed.

Lemma noTerminator_snoc (s : string) (c : ascii) :
  noTerminator (snoc s c) = noTerminator s && negb (isTerminator c).
Proof.
  induction s as [|x s IH];
    [unfold snoc; rewrite append_nil_l; cbn; destruct (isTerminator c); reflexivity|].
  unfold snoc in *. rewrite append_cons. cbn [noTerminator].
  rewrite IH, andb_assoc. reflexivity.
Qed.

Lemma allTerminators_snoc (s : string) (c : ascii) :
  allTerminators (snoc s c) = allTerminators s && isTerminator c.
Proof.
  induction s as [|x s IH];
    [unfold snoc; rewrite append_nil_l; cbn; destruct (isTerminator c); reflexivity|].
  unfold snoc in *. rewrite append_cons. cbn [allTerminators].
  rewrite IH, andb_assoc. reflexivity.
Qed.

Lemma matches_sentences (response : string) :
  forall body marks,
  noTerminator body = true -> allTerminators marks = true ->
  (Str.isEmpty body = true -> Str.isEmpty marks = true) ->
  Forall isSentence (matches response body marks).
Proof.
  induction response as [|c rest IH]; intros body marks Hb Hm Hi; cbn [matches].
  - destruct (Str.isEmpty body) eqn:Eb; [constructor|].
    destruct (Str.isEmpty marks) eqn:Em; [constructor|].
    constructor; [|constructor]. exists body, marks. auto.
  - destruct (isTerminator c) eqn:Ec.
    + destruct (Str.isEmpty body) eqn:Eb.
      * apply IH; reflexivity.
      * apply IH; [exact Hb| |intros ?; congruence].
        rewrite allTerminators_snoc, Hm, Ec. reflexivity.
    + destruct (Str.isEmpty marks) eqn:Em.
      * apply IH; [|reflexivity|rewrite isEmpty_snoc; discriminate].
        rewrite noTerminator_snoc, Hb, Ec. reflexivity.
      * constructor.
        -- exists body, marks. repeat split; auto.
           destruct (Str.isEmpty body); [|reflexivity].
           symmetry. apply Hi. reflexivity.
        -- apply IH; [cbn; rewrite Ec; reflexivity | reflexivity | intros ?; discriminate].
Qed.

(** X21. The sentences of a response are never an empty list.  They are
    either the matches of the pattern, each of them a non-empty run of
    characters other than [.], [!], [?] followed by a non-empty run of
    these three, or, when nothing matches, the response itself as the only
    sentence. *)
Theorem sentences_of_a_response (assistantResponse : string) :
  sentencesOf assistantResponse <> [] /\
  (Forall isSentence (sentencesOf assistantResponse) \/
   (matches assistantResponse EmptyString EmptyString = [] /\
    sentencesOf assistantResponse = [assistantResponse])).
Proof.
  unfold sentencesOf.
  pose proof (matches_sentences assistantResponse EmptyString EmptyString
                eq_refl eq_refl (fun _ => eq_refl)) as H.
  destruct (matches assistantResponse EmptyString EmptyString) as [|m ms]; cbv iota.
  - split; [discriminate | right; auto].
  - split; [discriminate | left; exact H].
Qed.

(** What the scan gives on text without [.!?]: the match under way, if it
    has its marks, and nothing of the text. *)
Lemma matches_tail (tail : string) :
  forall body marks,
  noTerminator tail = true ->
  (Str.isEmpty body = true -> Str.isEmpty marks = true) ->
  matches tail body marks =
    if Str.isEmpty marks then [] else [(body ++ marks)%string].
Proof.
  induction tail as [|c rest IH]; intros body marks Ht Hi; cbn [matches].
  - destruct (Str.isEmpty body) eqn:Eb; [rewrite Hi by reflexivity; reflexivity|].
    reflexivity.
  - cbn [noTerminator] in Ht. apply andb_true_iff in Ht as [Hc Hr].
    apply negb_true_iff in Hc. rewrite Hc.
    destruct (Str.isEmpty marks) eqn:Em.
    + rewrite IH; [reflexivity | exact Hr | rewrite isEmpty_snoc; discriminate].
    + rewrite IH; [reflexivity | exact Hr | intros ?; discriminate].
Qed.

Lemma matches_app_tail (response tail : string) :
  forall body marks,
  noTerminator tail = true ->
  (Str.isEmpty body = true -> Str.isEmpty marks = true) ->
  matches (response ++ tail) body marks = matches response body marks.
Proof.
  induction response as [|c rest IH]; intros body marks Ht Hi.
  - rewrite append_nil_l, (matches_tail tail body marks Ht Hi). cbn [matches].
    destruct (Str.isEmpty body) eqn:Eb; [rewrite Hi by reflexivity|]; reflexivity.
  - rewrite append_cons. cbn [matches].
    destruct (isTerminator c); [destruct (Str.isEmpty body) eqn:Eb|
                                destruct (Str.isEmpty marks) eqn:Em].
    + apply IH; auto.
    + apply IH; [exact Ht | intros ?; congruence].
    + apply IH; [exact Ht | rewrite isEmpty_snoc; discriminate].
    + f_equal. apply IH; [exact Ht | intros ?; discriminate].
Qed.

(** X22. Text behind the last [.], [!] or [?] of a response is never
    spoken: when the response has at least one sentence that matches,
    adding text without these three characters at its end leaves the
    sentences as they are. *)
Theorem unfinished_tail_is_dropped (assistantResponse tail : string) :
  noTerminator tail = true ->
  matches assistantResponse EmptyString EmptyString <> [] ->
  sentencesOf (assistantResponse ++ tail) = sentencesOf assistantResponse.
Proof.
  intros Ht Hm. unfold sentencesOf.
  rewrite (matches_app_tail assistantResponse tail EmptyString EmptyString Ht
             (fun _ => eq_refl)).
  destruct (matches assistantResponse EmptyString EmptyString); [contradiction|].
  reflexivity.
Qed.

Lemma unfinished_tail_is_dropped_witness :
  sentencesOf ("It is noon. Anything else" ++ " I can do") =
  sentencesOf "It is noon. Anything else".
Proof.
  apply (unfinished_tail_is_dropped "It is noon. Anything else" " I can do").
  - reflexivity.
  - discriminate.
Defined.

(** Whether the text, or the marks before it when it is empty, ends in
    one of [.!?]. *)
Lemma concat_matches (response : string) :
  forall body marks,
  endsMarked response (negb (Str.isEmpty marks)) = true ->
  (Str.isEmpty body = true -> Str.isEmpty marks = true) ->
  (Str.isEmpty body = true -> startsMarked response = false) ->
  String.concat EmptyString (matches response body marks) =
    (body ++ marks ++ response)%string.
Proof.
  induction response as [|c rest IH]; intros body marks He Hi Hs; cbn [matches].
  - cbn [endsMarked] in He. apply negb_true_iff in He.
    destruct (Str.isEmpty body) eqn:Eb; [specialize (Hi eq_refl); congruence|].
    rewrite He. cbn [orb String.concat]. rewrite append_nil_r. reflexivity.
  - cbn [endsMarked] in He. cbn [startsMarked] in Hs.
    destruct (isTerminator c) eqn:Ec.
    + destruct (Str.isEmpty body) eqn:Eb; [specialize (Hs eq_refl); discriminate|].
      rewrite IH; [|rewrite isEmpty_snoc; exact He|intros ?; congruence|intros ?; congruence].
      rewrite snoc_append. reflexivity.
    + destruct (Str.isEmpty marks) eqn:Em.
      * rewrite IH; [|exact He|reflexivity|rewrite isEmpty_snoc; discriminate].
        destruct marks; [|discriminate].
        rewrite !append_nil_l, snoc_append. reflexivity.
      * assert (Hc : forall x l, String.concat EmptyString (x :: l) =
                                 (x ++ String.concat EmptyString l)%string).
        { intros x [|y l]; cbn [String.concat]; [rewrite append_nil_r|]; reflexivity. }
        rewrite Hc, IH; [|exact He|reflexivity|intros ?; discriminate].
        rewrite append_nil_l, !append_cons, append_nil_l, append_assoc. reflexivity.
Qed.

(** X23. A response that starts with a character other than [.], [!],
    [?] and ends with one of the three is spoken completely: its sentences,
    put together again, are the response. *)
Theorem well_formed_response_is_kept (assistantResponse : string) :
  startsMarked assistantResponse = false ->
  endsMarked assistantResponse false = true ->
  String.concat EmptyString (sentencesOf assistantResponse) = assistantResponse.
Proof.
  intros Hs He. unfold sentencesOf.
  pose proof (concat_matches assistantResponse EmptyString EmptyString He
                (fun _ => eq_refl) (fun _ => Hs)) as H.
  rewrite !append_nil_l in H.
  destruct (matches assistantResponse EmptyString EmptyString) as [|m ms];
    [reflexivity | exact H].
Qed.

Lemma well_formed_response_is_kept_witness :
  String.concat EmptyString (sentencesOf "Yes! It is noon... Anything else?") =
  "Yes! It is noon... Anything else?"%string.
Proof.
  apply (well_formed_response_is_kept "Yes! It is noon... Anything else?");
    reflexivity.
Defined.

(** ** The loop that speaks the response *)

Lemma said_app (xs ys : list Effect) : said (xs ++ ys) = said xs ++ said ys.
Proof.
  induction xs as [|e xs IH]; [reflexivity|].
  destruct e; cbn [app said]; rewrite IH; reflexivity.
Qed.

Lemma speakLoop_effects (env : Env) (sentences : list string) :
  forall k, forallb isLoopEffect (fst (fst (speakLoop env sentences k))) = true.
Proof.
  induction sentences as [|a|a b rest IH] using pair_induction; intros k.
  - reflexivity.
  - reflexivity.
  - cbn [speakLoop]. unfold bind at 1. unfold speak at 1.
    destruct (says env (speaks k)) as [e|]; [reflexivity|].
    destruct rest as [|c rest']; [reflexivity|].
    unfold bind at 1. unfold speak at 1. cbn [speaks asked].
    destruct (says env (S (speaks k))) as [e|]; [reflexivity|].
    unfold bind at 1. unfold confirm at 1. cbn [speaks asked].
    destruct (confirmations env (asked k)) as [e|userResponse]; [reflexivity|].
    destruct (affirmative userResponse).
    + specialize (IH (mkCounters (S (S (speaks k))) (S (asked k)))).
      destruct (speakLoop env (c :: rest') _) as [[effs k'] r].
      cbn [fst] in IH. cbn [fst app forallb isLoopEffect andb]. exact IH.
    + unfold speak. reflexivity.
Qed.

(** The first round of the loop when more than two sentences are left
    and nothing fails. *)
Lemma speakLoop_round (env : Env) (a b : string) (rest : list string)
    (k : Counters) (userResponse : string) :
  rest <> [] ->
  says env (speaks k) = None -> says env (S (speaks k)) = None ->
  confirmations env (asked k) = inr userResponse ->
  speakLoop env (a :: b :: rest) k =
    let round := [Speak (join " " [a; b]); Speak "Should I continue?";
                  StartRecording 0 0; RecognizeStream; StopRecordingAfter 3000] in
    let k' := mkCounters (S (S (speaks k))) (S (asked k)) in
    if affirmative userResponse then
      let '(effs, k'', r) := speakLoop env rest k' in (round ++ effs, k'', r)
    else
      let '(effs, k'', r) := speak env "Okay, stopping here." k' in
      (round ++ effs, k'', r).
Proof.
  intros Hne H1 H2 H3. cbn [speakLoop]. unfold bind at 1. unfold speak at 1. rewrite H1.
  destruct rest as [|c rest]; [contradiction|].
  unfold bind at 1. unfold speak at 1. cbn [speaks asked]. rewrite H2.
  unfold bind at 1. unfold confirm at 1. cbn [speaks asked]. rewrite H3.
  cbv zeta. destruct (affirmative userResponse).
  - destruct (speakLoop env (c :: rest) _) as [[effs k''] r]. reflexivity.
  - reflexivity.
Qed.

Lemma between_cons (separator item : string) (items : list string) :
  items <> [] ->
  between separator (item :: items) = item :: separator :: between separator items.
Proof. destruct items; [contradiction | reflexivity]. Qed.

Lemma chunked_nonempty (sentences : list string) :
  sentences <> [] -> chunked sentences <> [].
Proof. destruct sentences as [|a [|b rest]]; [contradiction|discriminate..]. Qed.

(** X24. When no call of the speech output fails and the user answers
    every question affirmatively, the loop ends without an error after it
    has spoken every sentence, in order and two at a time, with
    [Should I continue?] between the pairs and nothing else; it listens for
    an answer once between two pairs, and not after the last. *)
Theorem every_sentence_is_spoken (env : Env) (sentences : list string) :
  (forall n, says env n = None) ->
  (forall n, exists userResponse,
     confirmations env n = inr userResponse /\ affirmative userResponse = true) ->
  forall k, exists effs k',
    speakLoop env sentences k = (effs, k', inr tt) /\
    said effs = between "Should I continue?" (chunked sentences) /\
    length (List.filter isRecognizeStream effs) = pred (length (chunked sentences)).
Proof.
  intros Hs Hc.
  induction sentences as [|a|a b rest IH] using pair_induction; intros k.
  - exists [], k. auto.
  - exists [Speak (join " " [a])], (mkCounters (S (speaks k)) (asked k)).
    cbn [speakLoop]. unfold speak. rewrite Hs. auto.
  - destruct rest as [|c rest].
    + exists [Speak (join " " [a; b])], (mkCounters (S (speaks k)) (asked k)).
      cbn [speakLoop]. unfold bind, speak, ret. rewrite Hs. auto.
    + destruct (Hc (asked k)) as (userResponse & Hr & Ha).
      remember (c :: rest) as tail eqn:Et.
      assert (Hne : tail <> []) by (subst tail; discriminate). clear Et c rest.
      rewrite (speakLoop_round env a b tail k userResponse Hne (Hs _) (Hs _) Hr).
      cbv zeta. rewrite Ha.
      destruct (IH (mkCounters (S (S (speaks k))) (S (asked k))))
        as (effs & k' & -> & Hsaid & Hn).
      eexists _, k'. split; [reflexivity|]. split.
      * cbn [app said]. rewrite Hsaid. cbn [chunked].
        rewrite between_cons by (apply chunked_nonempty; exact Hne). reflexivity.
      * cbn [app List.filter isRecognizeStream length]. rewrite Hn.
        cbn [chunked length pred].
        pose proof (chunked_nonempty tail Hne) as Hne'.
        destruct (chunked tail); [contradiction | reflexivity].
Qed.

Lemma every_sentence_is_spoken_witness :
  exists effs k',
    speakLoop (mkEnv None (inr "isis"%string) (inr "what is up"%string) false
                 (inr "One. Two. Three."%string) (fun _ => None)
                 (fun _ => inr "yes"%string))
      ["One."; " Two."; " Three."]%string (mkCounters 1 0) = (effs, k', inr tt) /\
    said effs = between "Should I continue?" (chunked ["One."; " Two."; " Three."]%string) /\
    length (List.filter isRecognizeStream effs) =
      pred (length (chunked ["One."; " Two."; " Three."]%string)).
Proof.
  apply (every_sentence_is_spoken
           (mkEnv None (inr "isis"%string) (inr "what is up"%string) false
              (inr "One. Two. Three."%string) (fun _ => None)
              (fun _ => inr "yes"%string))
           ["One."; " Two."; " Three."]%string).
  - intros n. reflexivity.
  - intros n. exists "yes"%string. split; reflexivity.
Defined.

(** X25. When no call of the speech output fails, the user answers the
    first [j] questions affirmatively and the next one in any other way,
    and more than [2 * (j + 1)] sentences are there, the loop speaks the
    first [2 * (j + 1)] sentences, asks, says [Okay, stopping here.] and
    ends: none of the later sentences is spoken. *)
Theorem refusal_stops_the_speech (env : Env) (j : nat) (refusal : string) :
  (forall n, says env n = None) ->
  forall (sentences : list string) (k : Counters),
  (forall i, (i < j)%nat -> exists userResponse,
     confirmations env (asked k + i) = inr userResponse /\
     affirmative userResponse = true) ->
  confirmations env (asked k + j) = inr refusal ->
  affirmative refusal = false ->
  (2 * (j + 1) < length sentences)%nat ->
  exists effs k',
    speakLoop env sentences k = (effs, k', inr tt) /\
    said effs =
      between "Should I continue?" (chunked (firstn (2 * (j + 1)) sentences)) ++
      ["Should I continue?"; "Okay, stopping here."]%string.
Proof.
  intros Hs. induction j as [|j IH]; intros sentences k Hyes Hno Hneg Hlen.
  - destruct sentences as [|a [|b [|c rest]]]; cbn [length] in Hlen; try lia.
    rewrite Nat.add_0_r in Hno.
    rewrite (speakLoop_round env a b (c :: rest) k refusal
             ltac:(discriminate) (Hs _) (Hs _) Hno).
    cbv zeta. rewrite Hneg. unfold speak. rewrite Hs.
    eexists _, _. split; [reflexivity|]. reflexivity.
  - destruct sentences as [|a [|b [|c rest]]]; cbn [length] in Hlen; try lia.
    destruct (Hyes 0%nat ltac:(lia)) as (userResponse & Hr & Ha).
    rewrite Nat.add_0_r in Hr.
    remember (c :: rest) as tail eqn:Et.
    assert (Hne : tail <> []) by (subst tail; discriminate).
    rewrite (speakLoop_round env a b tail k userResponse Hne (Hs _) (Hs _) Hr).
    cbv zeta. rewrite Ha.
    destruct (IH tail (mkCounters (S (S (speaks k))) (S (asked k))))
      as (effs & k' & -> & Hsaid).
    + intros i Hi. cbn [asked]. destruct (Hyes (S i) ltac:(lia)) as (r & Hr' & Ha').
      exists r. split; [|exact Ha'].
      replace (S (asked k) + i)%nat with (asked k + S i)%nat by lia. exact Hr'.
    + cbn [asked]. replace (S (asked k) + j)%nat with (asked k + S j)%nat by lia.
      exact Hno.
    + exact Hneg.
    + subst tail. cbn [length]. lia.
    + eexists _, k'. split; [reflexivity|].
      cbn [app said]. rewrite Hsaid.
      replace (2 * (S j + 1))%nat with (S (S (2 * (j + 1)))) by lia.
      cbn [firstn chunked].
      rewrite between_cons; [reflexivity|].
      apply chunked_nonempty. subst tail.
      replace (2 * (j + 1))%nat with (S (2 * j + 1)) by lia. discriminate.
Qed.

Lemma refusal_stops_the_speech_witness :
  exists effs k',
    speakLoop (mkEnv None (inr "isis"%string) (inr "what is up"%string) false
                 (inr "One. Two. Three."%string) (fun _ => None)
                 (fun _ => inr "no thanks"%string))
      ["One."; " Two."; " Three."]%string (mkCounters 1 0) = (effs, k', inr tt) /\
    said effs =
      between "Should I continue?" (chunked (firstn (2 * (0 + 1))
                                               ["One."; " Two."; " Three."]%string)) ++
      ["Should I continue?"; "Okay, stopping here."]%string.
Proof.
  apply (refusal_stops_the_speech
           (mkEnv None (inr "isis"%string) (inr "what is up"%string) false
              (inr "One. Two. Three."%string) (fun _ => None)
              (fun _ => inr "no thanks"%string))
           0 "no thanks").
  - intros n. reflexivity.
  - intros i Hi. lia.
  - reflexivity.
  - reflexivity.
  - cbn. lia.
Defined.

(** ** One run of [processVoiceInput] *)

Lemma loop_effects_filter (f : Effect -> bool) (effs : list Effect) :
  (forall e, isLoopEffect e = true -> f e = false) ->
  forallb isLoopEffect effs = true -> List.filter f effs = [].
Proof.
  intros Hf. induction effs as [|e effs IH]; [reflexivity|].
  cbn [forallb List.filter]. intros H. apply andb_true_iff in H as [He Hl].
  rewrite (Hf e He). exact (IH Hl).
Qed.

Lemma filter_nil_not_In (f : Effect -> bool) (effs : list Effect) (e : Effect) :
  List.filter f effs = [] -> f e = true -> ~ In e effs.
Proof.
  intros Hn He Hin.
  assert (H : In e (List.filter f effs)) by (apply filter_In; auto).
  rewrite Hn in H. destruct H.
Qed.

Lemma trim_blank (text : string) :
  (String.length (Str.trim text) =? 0)%nat = Str.isEmpty (Str.trim text).
Proof. destruct (Str.trim text); reflexivity. Qed.

(** The effects of the body of the [try], as far as the properties below
    need them. *)
Lemma afterWakeWord_effects (env : Env) (a : Assistant) (k : Counters) :
  exists asks loop,
    fst (fst (afterWakeWord env a k)) = Speak "Yes" :: asks ++ loop /\
    forallb isLoopEffect loop = true /\
    (asks = [] \/ asks = [ListenForCommand] \/
     exists text, asks = [ListenForCommand; SendMessage text]) /\
    (forall text,
       In (SendMessage text) asks <->
       says env (speaks k) = None /\ continuousListener a = true /\
       command env = inr text /\ Str.isEmpty (Str.trim text) = false /\
       testMode env = false) /\
    (says env (speaks k) = None -> continuousListener a = true ->
     exists rest, asks = ListenForCommand :: rest).
Proof.
  unfold afterWakeWord. unfold bind at 1. unfold speak at 1.
  destruct (says env (speaks k)) as [e|] eqn:Es.
  { exists [], []. cbn. split; [|split; [|split; [|split]]]; auto.
    - intros text. split; [intros [] | intros (H & _); discriminate].
    - discriminate. }
  destruct (continuousListener a) eqn:El.
  2:{ exists [], []. unfold bind, throw. cbn.
      split; [|split; [|split; [|split]]]; auto.
      - intros text. split; [intros [] | intros (_ & H & _); discriminate].
      - discriminate. }
  unfold bind at 1. unfold listenForCommand at 1.
  destruct (command env) as [e|userText] eqn:Ec.
  { exists [ListenForCommand], []. cbn.
    split; [|split; [|split; [|split]]]; eauto.
    intros text. split; [intros [H|[]]; discriminate|].
    intros (_ & _ & H & _); discriminate. }
  rewrite trim_blank.
  destruct (negb (Str.truthy userText) || Str.isEmpty (Str.trim userText)) eqn:Eb.
  { exists [ListenForCommand], [Speak "I didn't hear anything"].
    unfold speak. cbn. split; [|split; [|split; [|split]]]; eauto.
    intros text. split; [intros [H|[]]; discriminate|].
    intros (_ & _ & H & Ht & _). injection H as <-.
    rewrite Ht, orb_false_r in Eb. destruct userText; discriminate. }
  apply orb_false_iff in Eb as [_ Eb].
  destruct (testMode env) eqn:Et.
  { unfold bind, ret. cbn [app].
    pose proof (speakLoop_effects env
                  (sentencesOf ("I heard you say: " ++ userText))
                  (mkCounters (S (speaks k)) (asked k))) as Hl.
    destruct (speakLoop env _ _) as [[loop k'] r]. cbn [fst] in Hl.
    exists [ListenForCommand], loop. cbn. split; [|split; [|split; [|split]]]; eauto.
    intros text. split; [intros [H|[]]; discriminate|].
    intros (_ & _ & _ & _ & H); discriminate. }
  unfold bind at 1. unfold sendMessage at 1.
  destruct (answer env) as [e|assistantResponse].
  { exists [ListenForCommand; SendMessage userText], []. cbn.
    split; [|split; [|split; [|split]]]; eauto.
    intros text. split.
    - intros [H|[H|[]]]; [discriminate | injection H as <-; auto].
    - intros (_ & _ & H & _). injection H as <-. auto. }
  pose proof (speakLoop_effects env (sentencesOf assistantResponse)
                (mkCounters (S (speaks k)) (asked k))) as Hl.
  destruct (speakLoop env _ _) as [[loop k'] r]. cbn [fst] in Hl.
  exists [ListenForCommand; SendMessage userText], loop. cbn.
  split; [|split; [|split; [|split]]]; eauto.
  intros text. split.
  - intros [H|[H|[]]]; [discriminate | injection H as <-; auto].
  - intros (_ & _ & H & _). injection H as <-. auto.
Qed.

(** What [listenForWakeWord] does: it speaks to no service but the
    recorder and the listener; the listener is there afterwards if it was
    before or the recording could be started; and it sets the listening up
    only when that had not been done, and then at most once. *)
Lemma listenForWakeWord_facts (env : Env) (a : Assistant) :
  let effs := fst (fst (listenForWakeWord env a)) in
  let a' := snd (fst (listenForWakeWord env a)) in
  (forall e, In e effs ->
     isSetup e = true \/ e = ListenForWakeWord \/ exists error, e = LogError error) /\
  (continuousListener a' = true <->
   continuousListener a = true \/ startContinuousRecording env = None) /\
  (continuousStream a && continuousListener a = true ->
   a' = a /\ List.filter isSetup effs = []) /\
  (length (List.filter isNewContinuousListener effs) <= 1)%nat /\
  (length (List.filter isStartListening effs) <= 1)%nat /\
  (List.filter isNewContinuousListener effs <> [] \/
   List.filter isStartListening effs <> [] ->
   continuousStream a' && continuousListener a' = true).
Proof.
  unfold listenForWakeWord.
  destruct a as [vt [|] [|]]; cbn [continuousStream continuousListener negb orb andb];
    destruct (startContinuousRecording env) as [e1|];
    destruct (wakeWord env) as [e2|w]; cbn;
    (split; [|split; [|split; [|split; [|split]]]]);
    try (intros e H;
         repeat (destruct H as [<-|H]; [cbn; eauto|]); destruct H);
    try (split; auto; intros [H|H]; auto; discriminate);
    try discriminate; auto; try lia;
    try (intros [H|H]; contradiction).
Qed.

Lemma processVoiceInput_effects (env : Env) (a : Assistant) :
  exists asks loop log,
    fst (processVoiceInput env a) =
      fst (fst (listenForWakeWord env a)) ++ (Speak "Yes" :: asks ++ loop) ++ log /\
    snd (processVoiceInput env a) = snd (fst (listenForWakeWord env a)) /\
    forallb isLoopEffect loop = true /\
    (log = [] \/ exists error, log = [LogError error]) /\
    (asks = [] \/ asks = [ListenForCommand] \/
     exists text, asks = [ListenForCommand; SendMessage text]) /\
    (forall text,
       In (SendMessage text) asks <->
       says env 0%nat = None /\
       (continuousListener a = true \/ startContinuousRecording env = None) /\
       command env = inr text /\ Str.isEmpty (Str.trim text) = false /\
       testMode env = false) /\
    (says env 0%nat = None ->
     continuousListener a = true \/ startContinuousRecording env = None ->
     exists rest, asks = ListenForCommand :: rest).
Proof.
  unfold processVoiceInput.
  destruct (listenForWakeWord_facts env a) as (_ & Hl & _).
  destruct (listenForWakeWord env a) as [[effs a'] ok]. cbn [fst snd] in *.
  destruct (afterWakeWord_effects env a' (mkCounters 0 0))
    as (asks & loop & He & Hloop & Hasks & Hsend & Hcmd).
  destruct (afterWakeWord env a' (mkCounters 0 0)) as [[effs' k'] r].
  cbn [fst snd speaks] in *. subst effs'.
  exists asks, loop, (match r with inl error => [LogError error] | inr _ => [] end).
  split; [reflexivity|]. split; [reflexivity|]. split; [exact Hloop|].
  split; [destruct r; eauto|]. split; [exact Hasks|]. split.
  - intros text. rewrite Hsend, Hl. reflexivity.
  - intros H1 H2. apply Hcmd; [exact H1 | apply Hl, H2].
Qed.

(** X26. In one run of [processVoiceInput] the chat service is asked at
    most once.  It is asked exactly when saying [Yes] did not fail, the
    listener is there, listening for the command gave a text that is not
    blank, and the test mode is off; and it is asked with that text. *)
Theorem chat_is_asked_for_a_spoken_command (env : Env) (a : Assistant) :
  let effs := fst (processVoiceInput env a) in
  (forall text,
     In (SendMessage text) effs <->
     says env 0%nat = None /\
     (continuousListener a = true \/ startContinuousRecording env = None) /\
     command env = inr text /\ Str.isEmpty (Str.trim text) = false /\
     testMode env = false) /\
  (length (List.filter isSendMessage effs) <= 1)%nat.
Proof.
  intros effs. subst effs.
  destruct (processVoiceInput_effects env a)
    as (asks & loop & log & -> & _ & Hloop & Hlog & Hasks & Hsend & _).
  destruct (listenForWakeWord_facts env a) as (Hw & _).
  assert (Hnl : List.filter isSendMessage loop = []).
  { apply loop_effects_filter; [|exact Hloop]. intros [] H; try discriminate; reflexivity. }
  split.
  - intros text. rewrite <- Hsend. split.
    + intros H. apply in_app_or in H as [H|H].
      { apply Hw in H as [H|[H|[e H]]]; discriminate. }
      apply in_app_or in H as [H|H].
      * destruct H as [H|H]; [discriminate|].
        apply in_app_or in H as [H|H]; [exact H|].
        exfalso. revert H. apply (filter_nil_not_In isSendMessage); auto.
      * destruct Hlog as [->|[e ->]]; [destruct H | destruct H as [H|[]]; discriminate].
    + intros H. apply in_or_app. right. apply in_or_app. left. right.
      apply in_or_app. left. exact H.
  - rewrite !List.filter_app. cbn [List.filter isSendMessage].
    rewrite List.filter_app, Hnl, app_nil_r, !length_app.
    assert (H1 : List.filter isSendMessage (fst (fst (listenForWakeWord env a))) = []).
    { destruct (List.filter isSendMessage (fst (fst (listenForWakeWord env a))))
        as [|e l] eqn:E; [reflexivity|].
      assert (Hin : In e (e :: l)) by (left; reflexivity).
      rewrite <- E in Hin. apply filter_In in Hin as [Hin He].
      apply Hw in Hin as [H|[H|[x H]]]; subst; try discriminate.
      destruct e; discriminate. }
    rewrite H1.
    assert (H2 : List.filter isSendMessage log = []).
    { destruct Hlog as [->|[e ->]]; reflexivity. }
    rewrite H2. cbn [length].
    destruct Hasks as [->|[->|[text ->]]]; cbn; lia.
Qed.

(** X27. A failure of listening for the wake word goes unnoticed: when
    the listener is set up and its promise for the wake word is rejected,
    [processVoiceInput] logs the error and goes on as after a wake word: it
    says [Yes] and, if that does not fail, listens for the command. *)
Theorem wake_word_failure_is_ignored (env : Env) (a : Assistant) (error : Error) :
  continuousStream a = true -> continuousListener a = true ->
  wakeWord env = inl error ->
  says env 0%nat = None ->
  exists rest,
    fst (processVoiceInput env a) =
      [ListenForWakeWord; LogError error; Speak "Yes"; ListenForCommand] ++ rest.
Proof.
  intros Hs Hl Hw Hy.
  destruct (processVoiceInput_effects env a)
    as (asks & loop & log & -> & _ & _ & _ & _ & _ & Hcmd).
  destruct (Hcmd Hy (or_introl Hl)) as (rest & ->).
  unfold listenForWakeWord. rewrite Hs, Hl, Hw. cbn.
  eexists. reflexivity.
Qed.

Lemma wake_word_failure_is_ignored_witness :
  exists rest,
    fst (processVoiceInput
           (mkEnv None (inl "stream closed"%string) (inr "what time is it"%string)
              true (inr EmptyString) (fun _ => None) (fun _ => inr EmptyString))
           (mkAssistant 400 true true)) =
      [ListenForWakeWord; LogError "stream closed"%string; Speak "Yes";
       ListenForCommand] ++ rest.
Proof.
  apply (wake_word_failure_is_ignored
           (mkEnv None (inl "stream closed"%string) (inr "what time is it"%string)
              true (inr EmptyString) (fun _ => None) (fun _ => inr EmptyString))
           (mkAssistant 400 true true) "stream closed"%string); reflexivity.
Defined.

(** ** Run after run *)

Lemma processVoiceInput_setup (env : Env) (a : Assistant) (f : Effect -> bool) :
  (forall e, f e = true -> isSetup e = true) ->
  List.filter f (fst (processVoiceInput env a)) =
  List.filter f (fst (fst (listenForWakeWord env a))).
Proof.
  intros Hf.
  destruct (processVoiceInput_effects env a)
    as (asks & loop & log & -> & _ & Hloop & Hlog & Hasks & _).
  rewrite !List.filter_app.
  assert (Hno : forall e, isSetup e = false -> f e = false).
  { intros e He. destruct (f e) eqn:E; [|reflexivity].
    apply Hf in E. congruence. }
  assert (H1 : List.filter f (Speak "Yes" :: asks ++ loop) = []).
  { cbn [List.filter]. rewrite (Hno (Speak "Yes") eq_refl), List.filter_app.
    rewrite (loop_effects_filter f loop); [|intros [] H; try discriminate; apply Hno; reflexivity|exact Hloop].
    destruct Hasks as [->|[->|[text ->]]]; cbn [List.filter app];
      rewrite ?(Hno ListenForCommand eq_refl), ?(Hno (SendMessage _) eq_refl);
      reflexivity. }
  assert (H2 : List.filter f log = []).
  { destruct Hlog as [->|[e ->]]; [reflexivity|].
    cbn [List.filter]. rewrite (Hno (LogError e) eq_refl). reflexivity. }
  rewrite H1, H2, !app_nil_r. reflexivity.
Qed.

Lemma runs_set_up (envs : list Env) :
  forall a, continuousStream a && continuousListener a = true ->
  List.filter isSetup (fst (runs envs a)) = [].
Proof.
  induction envs as [|env envs IH]; intros a Ha; [reflexivity|].
  cbn [runs].
  pose proof (processVoiceInput_setup env a isSetup (fun e H => H)) as Hp.
  destruct (processVoiceInput_effects env a) as (_ & _ & _ & _ & Ha' & _).
  destruct (listenForWakeWord_facts env a) as (_ & _ & Hk & _).
  destruct (Hk Ha) as [Hsame Hnone].
  destruct (processVoiceInput env a) as [effs a']. cbn [fst snd] in *.
  rewrite Hsame in Ha'. subst a'. specialize (IH a Ha).
  destruct (runs envs a) as [effs' a'']. cbn [fst] in *.
  rewrite List.filter_app, Hp, Hnone, IH. reflexivity.
Qed.

Lemma filter_sub (f : Effect -> bool) (effs : list Effect) :
  (forall e, f e = true -> isSetup e = true) ->
  List.filter isSetup effs = [] -> List.filter f effs = [].
Proof.
  intros Hf. induction effs as [|e effs IH]; [reflexivity|].
  cbn [List.filter]. destruct (isSetup e) eqn:E; [discriminate|].
  intros H. destruct (f e) eqn:Ef; [apply Hf in Ef; congruence|]. exact (IH H).
Qed.

(** X28. However many times [processVoiceInput] runs and whatever the
    services answer, the assistant creates at most one continuous listener
    and attaches it to the audio stream at most once, so that no chunk is
    ever handled twice; an assistant whose stream and listener are set
    starts no recording and creates no listener at all. *)
Theorem listener_is_set_up_once (envs : list Env) (a : Assistant) :
  let effs := fst (runs envs a) in
  (length (List.filter isNewContinuousListener effs) <= 1)%nat /\
  (length (List.filter isStartListening effs) <= 1)%nat /\
  (continuousStream a && continuousListener a = true ->
   List.filter isSetup effs = []).
Proof.
  intros effs. subst effs. split; [|split]; [| |apply runs_set_up].
  - revert a. induction envs as [|env envs IH]; intros a; [cbn; lia|].
    cbn [runs].
    pose proof (processVoiceInput_setup env a isNewContinuousListener) as Hp.
    destruct (processVoiceInput_effects env a) as (_ & _ & _ & _ & Ha' & _).
    destruct (listenForWakeWord_facts env a) as (_ & _ & _ & Hle & _ & Hready).
    pose proof (runs_set_up envs (snd (processVoiceInput env a))) as Hset.
    specialize (IH (snd (processVoiceInput env a))).
    destruct (processVoiceInput env a) as [effs a']. cbn [fst snd] in *.
    destruct (runs envs a') as [effs' a'']. cbn [fst] in *.
    rewrite List.filter_app, length_app, Hp by (intros [] H; try discriminate; reflexivity).
    destruct (List.filter isNewContinuousListener (fst (fst (listenForWakeWord env a))))
      as [|e l] eqn:E; [cbn [length]; lia|].
    rewrite Ha' in Hset.
    rewrite (filter_sub isNewContinuousListener effs')
      by first [intros [] H; try discriminate; reflexivity
               | apply Hset, Hready; left; discriminate].
    cbn [length] in *. lia.
  - revert a. induction envs as [|env envs IH]; intros a; [cbn; lia|].
    cbn [runs].
    pose proof (processVoiceInput_setup env a isStartListening) as Hp.
    destruct (processVoiceInput_effects env a) as (_ & _ & _ & _ & Ha' & _).
    destruct (listenForWakeWord_facts env a) as (_ & _ & _ & _ & Hle & Hready).
    pose proof (runs_set_up envs (snd (processVoiceInput env a))) as Hset.
    specialize (IH (snd (processVoiceInput env a))).
    destruct (processVoiceInput env a) as [effs a']. cbn [fst snd] in *.
    destruct (runs envs a') as [effs' a'']. cbn [fst] in *.
    rewrite List.filter_app, length_app, Hp by (intros [] H; try discriminate; reflexivity).
    destruct (List.filter isStartListening (fst (fst (listenForWakeWord env a))))
      as [|e l] eqn:E; [cbn [length]; lia|].
    rewrite Ha' in Hset.
    rewrite (filter_sub isStartListening effs')
      by first [intros [] H; try discriminate; reflexivity
               | apply Hset, Hready; right; discriminate].
    cbn [length] in *. lia.
Qed.

Lemma listener_is_set_up_once_witness :
  List.filter isSetup
    (fst (runs [mkEnv None (inr "isis"%string) (inr "what time is it"%string) true
                  (inr EmptyString) (fun _ => None) (fun _ => inr EmptyString);
                mkEnv (Some "no device"%string) (inl "stream closed"%string)
                  (inl "stream closed"%string) false (inr EmptyString)
                  (fun _ => None) (fun _ => inr EmptyString)]
            (mkAssistant 400 true true))) = [].
Proof.
  apply (listener_is_set_up_once
           [mkEnv None (inr "isis"%string) (inr "what time is it"%string) true
              (inr EmptyString) (fun _ => None) (fun _ => inr EmptyString);
            mkEnv (Some "no device"%string) (inl "stream closed"%string)
              (inl "stream closed"%string) false (inr EmptyString)
              (fun _ => None) (fun _ => inr EmptyString)]
           (mkAssistant 400 true true)).
  reflexivity.
Defined.

End AssistantFacts.

(** * Further properties: the listener and the transcription together *)








(** * Further properties: AudioInputService *)

Module AudioInputFacts.
Import AudioInput.

Lemma Current_step (darwin : bool) (ev : Event) (w : World) :
  Current w -> Current (fst (step darwin ev w)).
Proof.
  unfold Current. intros Hc.
  destruct ev as [|st sd vt| | |r chunk now]; cbn [step].
  - unfold startContinuousRecording.
    destruct (continuousStream (svc w)); cbn; [exact Hc|].
    intros r H. injection H as <-. lia.
  - cbn. intros r H. injection H as <-. lia.
  - unfold stopRecording. destruct (recording (svc w)) eqn:E; cbn;
      [discriminate | intros q Hq; congruence].
  - unfold stopContinuousRecording.
    destruct (recording (svc w)) eqn:E; cbn; [discriminate | intros q Hq; congruence].
  - unfold onData. destruct (chunkMaxVolume chunk); [|exact Hc].
    destruct (detectors w !! r) as [d|]; [|exact Hc].
    destruct (positive (volumeThreshold d)); [|exact Hc].
    destruct (negb (Qle_bool (volumeThreshold d) (inject_Z z))); [|exact Hc].
    destruct (silenceStartTime d) as [start|]; [|exact Hc].
    destruct (Qle_bool (silenceDuration d * 1000) (inject_Z (now - start))); [|exact Hc].
    unfold stopRecording. destruct (recording (svc w)) eqn:E; cbn;
      [discriminate | intros q Hq; congruence].
Qed.

Lemma Current_run (darwin : bool) (evs : list Event) :
  forall w, Current w -> Current (fst (run darwin evs w)).
Proof.
  induction evs as [|ev evs IH]; intros w Hc; [exact Hc|].
  cbn [run]. pose proof (Current_step darwin ev w Hc) as Hs.
  destruct (step darwin ev w) as [w' effs]. cbn [fst] in Hs.
  specialize (IH w' Hs). destruct (run darwin evs w') as [w'' effs']. exact IH.
Qed.

(** A recorder that has been started and that [recording] does not name
    stays so, and is not stopped. *)
Lemma lost_step (darwin : bool) (ev : Event) (w : World) (r : RecorderId) :
  Current w -> (r < nextRecorder w)%nat -> recording (svc w) <> Some r ->
  (r < nextRecorder (fst (step darwin ev w)))%nat /\
  recording (svc (fst (step darwin ev w))) <> Some r /\
  ~ In (Stopped r) (snd (step darwin ev w)).
Proof.
  intros Hc Hr Hn.
  assert (Hstop : (r < nextRecorder (fst (stopRecording w)))%nat /\
                  recording (svc (fst (stopRecording w))) <> Some r /\
                  ~ In (Stopped r) (snd (stopRecording w))).
  { unfold stopRecording. destruct (recording (svc w)) as [x|] eqn:E; cbn.
    - repeat split; [exact Hr | discriminate |]. intros [H|[]]. congruence.
    - repeat split; [exact Hr | congruence |]. intros [H|[]]. discriminate. }
  destruct ev as [|st sd vt| | |x chunk now]; cbn [step].
  - unfold startContinuousRecording.
    destruct (continuousStream (svc w)); cbn.
    + repeat split; auto.
    + repeat split; [lia | intros H; injection H as <-; lia |].
      intros [H|[]]. discriminate.
  - cbn. repeat split; [lia | intros H; injection H as <-; lia |].
    intros [H|[]]. discriminate.
  - exact Hstop.
  - unfold stopContinuousRecording. destruct (recording (svc w)) as [y|] eqn:E; cbn.
    + repeat split; [exact Hr | discriminate |]. intros [H|[]]. congruence.
    + repeat split; [exact Hr | congruence | auto].
  - unfold onData. destruct (chunkMaxVolume chunk);
      [|cbn; repeat split; auto; intros [H|[]]; discriminate].
    destruct (detectors w !! x) as [d|]; [|cbn; repeat split; auto].
    destruct (positive (volumeThreshold d)); [|cbn; repeat split; auto].
    destruct (negb (Qle_bool (volumeThreshold d) (inject_Z z)));
      [|cbn; repeat split; auto].
    destruct (silenceStartTime d) as [start|]; [|cbn; repeat split; auto].
    destruct (Qle_bool (silenceDuration d * 1000) (inject_Z (now - start)));
      [|cbn; repeat split; auto].
    destruct Hstop as (H1 & H2 & H3).
    destruct (stopRecording w) as [w' effs]. cbn [fst snd] in *.
    repeat split; auto. intros [H|H]; [discriminate | auto].
Qed.

Lemma lost_run (darwin : bool) (evs : list Event) (r : RecorderId) :
  forall w, Current w -> (r < nextRecorder w)%nat -> recording (svc w) <> Some r ->
  ~ In (Stopped r) (snd (run darwin evs w)).
Proof.
  induction evs as [|ev evs IH]; intros w Hc Hr Hn; [intros []|].
  cbn [run]. pose proof (Current_step darwin ev w Hc) as Hc'.
  destruct (lost_step darwin ev w r Hc Hr Hn) as (Hr' & Hn' & Hs).
  destruct (step darwin ev w) as [w' effs]. cbn [fst snd] in *.
  specialize (IH w' Hc' Hr' Hn').
  destruct (run darwin evs w') as [w'' effs']. cbn [snd] in *.
  intros H. apply in_app_or in H as [H|H]; auto.
Qed.

(** X30. The service can stop only the recorder it started last.  Once a
    recorder has been started and [recording] names another one or none,
    no call of the service and no chunk of any stream stops it any more:
    the recording that a later [startRecording] displaces runs on,
    whatever [stopRecording], [stopContinuousRecording] or the detection
    of silence do afterwards. *)
Theorem displaced_recorder_is_never_stopped
  (darwin : bool) (before after : list Event) (r : RecorderId) :
  let w := fst (run darwin before newWorld) in
  (r < nextRecorder w)%nat -> recording (svc w) <> Some r ->
  ~ In (Stopped r) (snd (run darwin after w)).
Proof.
  intros w Hr Hn. apply lost_run; [|exact Hr|exact Hn].
  apply Current_run. intros x H. discriminate.
Qed.

Lemma displaced_recorder_is_never_stopped_witness :
  ~ In (Stopped 0%nat)
      (snd (run false
              [CallStopRecording; CallStopContinuousRecording;
               CallStartContinuousRecording; CallStopRecording]
              (fst (run false
                      [CallStartContinuousRecording; CallStartRecording 0 0 0]
                      newWorld)))).
Proof.
  apply (displaced_recorder_is_never_stopped false
           [CallStartContinuousRecording; CallStartRecording 0 0 0]
           [CallStopRecording; CallStopContinuousRecording;
            CallStartContinuousRecording; CallStopRecording] 0%nat).
  - vm_compute. lia.
  - vm_compute. discriminate.
Defined.

End AudioInputFacts.
